(** * wiki_utils: chunked execution, validation, rate-limit retry,
      continuation and title normalisation

    A shallow embedding of the control core of [wiki_utils.py]
    ([doChunks], [checkEntities], [checkTitles], [reqWDQS], [reqMediaWiki],
    [normalizedTitle], [m_PageOutLinks] with its continuation loop, and
    [w_isValid]) and the properties its specification states about it.

    Conventions.
    - A Python [str] is a [string].  The character classes the code uses
      ([\s], [\d], [str.strip]) are embedded as they are on plain text:
      ASCII characters other than the four separators 0x1C-0x1F
      ([Str.plain]).  Outside plain text Python has more white space (the
      separators and some characters beyond ASCII) and more digits; what is
      proved of [checkEntities] and [checkTitles] as such is stated for
      plain text.
    - A Python call returns, raises, or never comes back because the
      remote service does not reply: [outcome].
    - A [dict] used as a map is a [gmap]; a [dict] whose key order is
      observed ([dict.fromkeys], the accumulator that becomes a data frame)
      is a list in insertion order.
    - Network and clock are an explicit world: the replies the remote
      service will give, consumed one per request, and a log of what the
      code did (requests sent, sleeps). *)

From Stdlib Require Import ZArith String Ascii List Bool Lia DecimalString.
From stdpp Require Import gmap strings list.

Open Scope string_scope.

(** ** Python outcomes *)

Inductive exn : Type :=
| ValueError (msg : string)
| NameError (msg : string)
| TypeError (msg : string)
| KeyError (key : string)
| AttributeError (msg : string)
| UnboundLocalError (var : string)
| ZeroDivisionError
| HTTPError (status : Z)
| LibraryError (what : string).

Inductive outcome (A : Type) : Type :=
| Return (a : A)
| Raise (e : exn)
| Blocked.
Arguments Return {A} a.
Arguments Raise {A} e.
Arguments Blocked {A}.

Definition bind {A B} (m : outcome A) (k : A -> outcome B) : outcome B :=
  match m with
  | Return a => k a
  | Raise e => Raise e
  | Blocked => Blocked
  end.

Notation "x <- m ;; k" := (bind m (fun x => k))
  (at level 100, m at next level, right associativity).

(** ** Characters and strings *)

Module Str.

Definition chars (s : string) : list ascii := list_ascii_of_string s.
Definition of_chars (l : list ascii) : string := string_of_list_ascii l.

(** [\s] and the characters [str.strip] removes, on plain text:
    space, [\t], [\n], [\v], [\f], [\r]. *)
Definition isspace (c : ascii) : bool :=
  let n := nat_of_ascii c in
  (n =? 32)%nat || ((9 <=? n)%nat && (n <=? 13)%nat).

(** [\d] on plain text. *)
Definition isdigit (c : ascii) : bool :=
  let n := nat_of_ascii c in
  (48 <=? n)%nat && (n <=? 57)%nat.

Fixpoint lstrip (l : list ascii) : list ascii :=
  match l with
  | c :: l' => if isspace c then lstrip l' else l
  | [] => []
  end.

Definition rstrip (l : list ascii) : list ascii := rev (lstrip (rev l)).

(** [x.strip()], on plain text. *)
Definition strip (s : string) : string := of_chars (rstrip (lstrip (chars s))).

(** [re.match('\s*$', x)], on plain text: [x] is whitespace only. *)
Definition blank (s : string) : bool := forallb isspace (chars s).

(** [c in "#<>[]|{}"] for a single character [c]. *)
Definition forbidden (c : ascii) : bool :=
  existsb (Ascii.eqb c) (chars "#<>[]|{}").

(** [s] occurs in [t]. *)
Definition occurs_in (s t : string) : Prop := exists a b, t = a ++ s ++ b.

(** Plain text: every character is ASCII and none is one of the separators
    0x1C-0x1F.  On plain text [str.isspace] and [\s] hold of the same
    characters, those of [isspace], and [\d] of those of [isdigit]. *)
Definition plain_char (c : ascii) : bool :=
  let n := nat_of_ascii c in
  (n <? 128)%nat && negb ((28 <=? n)%nat && (n <=? 31)%nat).

Definition plain (s : string) : Prop := forallb plain_char (chars s) = true.

End Str.

(** ** Validation of work lists *)

(** An argument that is either one [str] or a list of them
    ([isinstance(entity_list, str)]). *)
Inductive strs : Type :=
| One (s : string)
| Many (l : list string).

(** An argument of plain text. *)
Definition plain_strs (x : strs) : Prop :=
  match x with
  | One s => Str.plain s
  | Many l => Forall Str.plain l
  end.

(** [list(dict.fromkeys(l))]: keys are inserted in list order, a key that is
    already present keeps its position. *)
Definition fromkeys_insert (keys : list string) (k : string) : list string :=
  if bool_decide (k ∈ keys) then keys else keys ++ [k].

Definition dedup (l : list string) : list string :=
  fold_left fromkeys_insert l [].

(** [x] occurs in [l] for the first time at index [i]. *)
Definition first_at (l : list string) (x : string) (i : nat) : Prop :=
  l !! i = Some x ∧ ∀ k, (k < i)%nat → l !! k ≠ Some x.

(** [[x.strip() for x in l if not re.match('\s*$', x)]] *)
Definition stripped (l : list string) : list string :=
  map Str.strip (filter (fun x => Str.blank x = false) l).

(** [re.match(r'(?:Q|P)\d+$', q)], on plain text: [$] also matches before
    a final newline. *)
Fixpoint digits_then_end (l : list ascii) : bool :=
  match l with
  | [] => true
  | c :: l' =>
      if Str.isdigit c then digits_then_end l'
      else Ascii.eqb c "010"%char && match l' with [] => true | _ => false end
  end.

Definition entity_match (q : string) : bool :=
  match Str.chars q with
  | c :: d :: l =>
      (Ascii.eqb c "Q" || Ascii.eqb c "P") && Str.isdigit d && digits_then_end l
  | _ => false
  end.

Definition checkEntities (entity_list : strs) : outcome (list string) :=
  let entity_list := match entity_list with One s => [s] | Many l => l end in
  let entity_list := stripped entity_list in
  if (length entity_list =? 0)%nat then
    Raise (ValueError "Invalid value for parameter 'entity_list'")
  else
    match find (fun q => negb (entity_match q)) entity_list with
    | Some q =>
        Raise (ValueError ("Invalid value in parameter 'entity_list': '" ++ q ++ "'"))
    | None => Return (dedup entity_list)
    end.

(** The first title with a forbidden character, and that character. *)
Fixpoint first_forbidden (titles : list string) : option (string * ascii) :=
  match titles with
  | [] => None
  | title :: rest =>
      match find Str.forbidden (Str.chars title) with
      | Some c => Some (title, c)
      | None => first_forbidden rest
      end
  end.

Definition checkTitles (titles : strs) : outcome (list string) :=
  titles <- match titles with
            | One s =>
                if String.eqb (Str.strip s) "" then
                  Raise (ValueError "Invalid value for parameter 'titles'")
                else Return [s]
            | Many l => Return l
            end ;;
  let titles := stripped titles in
  if (length titles =? 0)%nat then
    Raise (ValueError "Invalid value for parameter 'titles'")
  else
    match first_forbidden titles with
    | Some (title, c) =>
        Raise (ValueError ("Invalid value for parameter 'titles': article title '"
                           ++ title ++ "' has forbidden character ("
                           ++ String c "" ++ ")."))
    | None => Return (dedup titles)
    end.

(** ** doChunks *)

Section DoChunks.

(** [W]: the world a worker acts on (network, clock).
    [V]: the values of a result [dict]; [Row]: the rows of a data frame. *)
Context {W V Row : Type}.
Local Open Scope list_scope.

(** What a worker returns when it does not return [None]: a [dict], a
    data frame, or a tuple whose first component is a [dict] or a data
    frame and whose second component is a [dict]. *)
Inductive part : Type :=
| PDict (m : gmap string V)
| PFrame (rows : list Row).

Inductive result : Type :=
| Dict (m : gmap string V)
| Tuple (d0 : part) (d1 : gmap string V)
| Frame (rows : list Row).

(** [output.update(d)]: the keys of [d] overwrite those of [output]. *)
Definition update (output d : gmap string V) : gmap string V := d ∪ output.

(** [pd.concat([output, d])]: the rows of [d] follow those of [output]. *)
Definition concat_frames (output d : list Row) : list Row := output ++ d.

(** The merge of the result [d] of a later batch into [output]; the
    branch is chosen by the shape of [d].  The workers of this module
    return one shape throughout; when the shapes differ the Python code
    ends in an error raised by [dict], [tuple] or pandas code. *)
Definition merge (output d : result) : outcome result :=
  match d with
  | Dict dm =>
      match output with
      | Dict om => Return (Dict (update om dm))
      | _ => Raise (LibraryError "update")
      end
  | Tuple d0 d1 =>
      match output with
      | Tuple o0 o1 =>
          let o1 := update o1 d1 in
          match d0 with
          | PDict dm =>
              match o0 with
              | PDict om => Return (Tuple (PDict (update om dm)) o1)
              | PFrame _ => Raise (LibraryError "update")
              end
          | PFrame drows =>
              match o0 with
              | PFrame orows => Return (Tuple (PFrame (concat_frames orows drows)) o1)
              | PDict _ => Raise (LibraryError "concat")
              end
          end
      | _ => Raise (LibraryError "index")
      end
  | Frame drows =>
      match output with
      | Frame orows => Return (Frame (concat_frames orows drows))
      | _ => Raise (LibraryError "concat")
      end
  end.

(** A worker [f(x_list, chunksize=chunksize, **arg)]: it acts on the
    world and returns a result, returns [None], or raises. *)
Definition worker : Type :=
  list string -> nat -> W -> W * outcome (option result).

(** One worker invocation: the batch passed and what came back. *)
Definition call : Type := list string * outcome (option result).

(** [x[i:j]] for [i <= j]. *)
Definition slice (x : list string) (i j : nat) : list string :=
  take (j - i) (drop i x).

(** [return(output)]: [output] is bound only once a batch has returned. *)
Definition return_output (output : option result) : outcome (option result) :=
  match output with
  | Some o => Return (Some o)
  | None => Raise (UnboundLocalError "output")
  end.

(** The body of [for k in range(nlim+1)], over the remaining values of
    [k]; [output] is [None] while the variable is unbound. *)
Fixpoint doChunks_loop (f : worker) (x : list string) (chunksize : nat)
    (ks : list nat) (output : option result) (w : W) (log : list call)
    : W * list call * outcome (option result) :=
  match ks with
  | [] => (w, log, return_output output)
  | k :: ks' =>
      let offset := k * chunksize in
      let x_list := slice x offset (offset + chunksize) in
      if (length x_list =? 0)%nat then (w, log, return_output output)
      else
        let '(w', d) := f x_list chunksize w in
        let log' := log ++ [(x_list, d)] in
        match d with
        | Raise e => (w', log', Raise e)
        | Blocked => (w', log', Blocked)
        | Return None => (w', log', Return None)
        | Return (Some d) =>
            if (k =? 0)%nat then
              doChunks_loop f x chunksize ks' (Some d) w' log'
            else
              match output with
              | None => (w', log', Raise (UnboundLocalError "output"))
              | Some output =>
                  match merge output d with
                  | Return output' =>
                      doChunks_loop f x chunksize ks' (Some output') w' log'
                  | Raise e => (w', log', Raise e)
                  | Blocked => (w', log', Blocked)
                  end
              end
        end
  end.

(** [doChunks(f, x, chunksize, **arg)].  [nlim = int(n/chunksize)] is the
    integer quotient (the float quotient of two list-sized integers
    truncates to it). *)
Definition doChunks (f : worker) (x : list string) (chunksize : nat) (w : W)
    : W * list call * outcome (option result) :=
  if (chunksize =? 0)%nat then (w, [], Raise ZeroDivisionError)
  else
    let n := length x in
    let nlim := n / chunksize in
    doChunks_loop f x chunksize (seq 0 (nlim + 1)) None w [].

(** The batches of [x]: [x[0:c]], [x[c:2c]], ... while non-empty. *)
Definition ceil_div (n c : nat) : nat := (n + c - 1) / c.

Definition batches (x : list string) (c : nat) : list (list string) :=
  map (fun k => slice x (k * c) ((k + 1) * c)) (seq 0 (ceil_div (length x) c)).

(** *** The loop as a traversal of the batches

    [doChunks_loop] visits [k = 0, 1, ...] and stops at the first empty
    slice; [over_batches] is the same body run over the non-empty slices
    that are left, [first] telling whether [k == 0]. *)
Fixpoint over_batches (f : worker) (chunksize : nat) (first : bool)
    (bs : list (list string)) (output : option result) (w : W) (log : list call)
    : W * list call * outcome (option result) :=
  match bs with
  | [] => (w, log, return_output output)
  | x_list :: bs =>
      let '(w', d) := f x_list chunksize w in
      let log' := log ++ [(x_list, d)] in
      match d with
      | Raise e => (w', log', Raise e)
      | Blocked => (w', log', Blocked)
      | Return None => (w', log', Return None)
      | Return (Some d) =>
          if first then over_batches f chunksize false bs (Some d) w' log'
          else
            match output with
            | None => (w', log', Raise (UnboundLocalError "output"))
            | Some output =>
                match merge output d with
                | Return output' =>
                    over_batches f chunksize false bs (Some output') w' log'
                | Raise e => (w', log', Raise e)
                | Blocked => (w', log', Blocked)
                end
            end
      end
  end.

(** The shape of a result, which selects the branch of [merge]. *)
Inductive shape : Type :=
| SDict
| STupleDict
| STupleFrame
| SFrame.

Definition shape_of (d : result) : shape :=
  match d with
  | Dict _ => SDict
  | Tuple (PDict _) _ => STupleDict
  | Tuple (PFrame _) _ => STupleFrame
  | Frame _ => SFrame
  end.

(** What a run of the traversal leaves in the log: the batches reached, in
    order; every call but the last returned a result; when the last call
    did not, what it returned is the outcome of the run. *)
Definition log_of_run (bs : list (list string)) (calls : list call)
    (r : outcome (option result)) : Prop :=
  map fst calls `prefix_of` bs
  ∧ (∀ i b d, calls !! i = Some (b, d) → (S i < length calls)%nat →
       ∃ d', d = Return (Some d'))
  ∧ (∀ b d, last calls = Some (b, d) → (∃ d', d = Return (Some d')) ∨ r = d)
  ∧ (map fst calls = bs ∨ r = Return None ∨ (∃ e, r = Raise e) ∨ r = Blocked).


End DoChunks.

Arguments part : clear implicits.
Arguments result : clear implicits.
Arguments worker : clear implicits.
Arguments call : clear implicits.

(** ** The remote services *)

(** What the code does to the outside world, in order. *)
Inductive method : Type :=
| GET
| POST
| Method (name : string).

Inductive event : Type :=
| Request (m : method) (url : string) (params : gmap string string)
          (accept : option string)
| Sleep (seconds : Z).

(** Decimal numerals: [int(t)] for a string of digits, [f"{n}"]. *)
Definition digit_value (c : ascii) : Z := Z.of_nat (nat_of_ascii c) - 48.

Definition int (t : string) : Z :=
  fold_left (fun acc c => if Str.isdigit c then (acc * 10 + digit_value c)%Z else acc)
            (Str.chars t) 0%Z.

Definition str_of_nat (n : nat) : string :=
  DecimalString.NilZero.string_of_uint (Nat.to_uint n).

(** [response.raise_for_status()] *)
Definition raise_for_status (status_code : Z) : outcome unit :=
  if ((400 <=? status_code) && (status_code <? 600))%Z
  then Raise (HTTPError status_code)
  else Return tt.

(** *** reqWDQS *)

Module WDQS.

(** A response of the query service: the status, the two headers the
    code reads ([None]: header absent) and the body. *)
Record response : Type := {
  status_code : Z;
  retry_after : option string;
  content_type : option string;
  text : string
}.

(** The reply to one request, and the value [int(time())] has when the
    code reads the clock after receiving it. *)
Record exchange : Type := {
  reply : response;
  clock : Z
}.

(** The value returned: [response.json()], [response.text] or
    [pd.read_csv(StringIO(response.text))], each of the body text. *)
Inductive body : Type :=
| Json (text : string)
| Text (text : string)
| Csv (text : string).

Definition url : string := "https://query.wikidata.org/sparql".

(** [re.match(r'^\d+$', t)] *)
Definition pure_integer (t : string) : bool :=
  match Str.chars t with
  | d :: l => Str.isdigit d && digits_then_end l
  | [] => false
  end.

End WDQS.

Section ReqWDQS.
Import WDQS.

(** [http.cookiejar.http2time]: seconds since the epoch of an HTTP date,
    [None] when the text is not a date. *)
Variable http2time : string -> option Z.

(** The wait computed from [Retry-after] on a 429 response. *)
Definition retry_wait (t : string) (now : Z) : outcome Z :=
  if pure_integer t then Return (int t)
  else
    match http2time t with
    | Some target => Return (target - now)%Z
    | None => Raise (TypeError "unsupported operand type(s) for -: 'NoneType' and 'int'")
    end.

(** What follows [response.raise_for_status()]. *)
Definition decode (format : string) (response : response) : outcome body :=
  match content_type response with
  | None => Raise (KeyError "content-type")
  | Some rtype =>
      if String.eqb format "json" && String.prefix "application/sparql-results+json" rtype
      then Return (Json (text response))
      else if String.eqb format "xml" && String.prefix "application/sparql-results+xml" rtype
      then Return (Text (text response))
      else if String.eqb format "csv" && String.prefix "text/csv" rtype
      then Return (Csv (text response))
      else Raise (ValueError ("reqWDQS() format '" ++ format ++ "' or response type '"
                              ++ rtype ++ "' is incorrect"))
  end.

(** The [while True] loop: one iteration per reply of the service.
    [Blocked]: the request was sent and the service has not replied. *)
Fixpoint reqWDQS_loop (sparql_query : string) (method : method)
    (format wdqs_format : string) (script : list exchange) (log : list event)
    : list exchange * list event * outcome body :=
  match method with
  | Method name =>
      (script, log, Raise (ValueError ("Method '" ++ name ++ "' is not supported")))
  | _ =>
      let log := (log ++ [Request method url {[ "query" := sparql_query ]}
                                  (Some wdqs_format)])%list in
      match script with
      | [] => (script, log, Blocked)
      | x :: script =>
          let response := reply x in
          if (status_code response =? 429)%Z then
            match retry_after response with
            | None => (script, log, Raise (KeyError "retry-after"))
            | Some t =>
                match retry_wait t (clock x) with
                | Raise e => (script, log, Raise e)
                | Blocked => (script, log, Blocked)
                | Return t =>
                    if (600 <? t)%Z then
                      (* [raise("ERROR: ...")]: a [str] is not an exception *)
                      (script, log,
                       Raise (TypeError "exceptions must derive from BaseException"))
                    else if (t <? 0)%Z then
                      (* [sleep(t)] with a negative [t] *)
                      (script, log,
                       Raise (ValueError "sleep length must be non-negative"))
                    else
                      reqWDQS_loop sparql_query method format wdqs_format script
                                   (log ++ [Sleep t])%list
                end
            end
          else
            (script, log,
             _ <- raise_for_status (status_code response) ;;
             decode format response)
      end
  end.

(** The [Accept] header for the format asked for. *)
Definition wdqs_format_of (format : string) : outcome string :=
  if String.eqb format "json" then Return "application/sparql-results+json"
  else if String.eqb format "xml" then Return "application/sparql-results+xml"
  else if String.eqb format "csv" then Return "text/csv"
  else Raise (ValueError ("Format '" ++ format ++ "' is not supported")).

(** [reqWDQS(sparql_query, method, format)] *)
Definition reqWDQS (sparql_query : string) (method : method) (format : string)
    (script : list exchange) (log : list event)
    : list exchange * list event * outcome body :=
  match wdqs_format_of format with
  | Return wdqs_format =>
      reqWDQS_loop sparql_query method format wdqs_format script log
  | Raise e => (script, log, Raise e)
  | Blocked => (script, log, Blocked)
  end.

(** The body in the representation asked for. *)
Definition represent (format : string) (text : string) : body :=
  if String.eqb format "json" then Json text
  else if String.eqb format "xml" then Text text
  else Csv text.

End ReqWDQS.

(** *** reqMediaWiki *)

Module MW.

(** The decoded JSON of a MediaWiki API response ([formatversion=2]),
    restricted to the keys the code reads.  An optional key is an
    [option]; a key tested only for presence is a [bool]. *)
Record api_error : Type := {
  code : string;
  info : string
}.

Record norm_entry : Type := {
  fromencoded : option bool;
  n_from : string;
  n_to : string
}.

Record redirect : Type := {
  r_from : string;
  r_to : string
}.

(** [links]: the titles [d['title']] of the entries of [page['links']]. *)
Record page : Type := {
  title : string;
  invalid : bool;
  missing : bool;
  pageid : option Z;
  links : option (list string)
}.

Record query_part : Type := {
  normalized : option (list norm_entry);
  redirects : option (list redirect);
  pages : option (list page)
}.

Record json : Type := {
  error : option api_error;
  query : option query_part;
  continue : option (gmap string string)
}.

Record response : Type := {
  status_code : Z;
  body : json
}.

Definition MW_LIMIT : nat := 50.

(** [len(s.split('|'))] *)
Definition split_count (s : string) : nat :=
  S (length (filter (fun c => c = "|"%char) (Str.chars s))).

End MW.

(** The [while True] loop of [reqMediaWiki]; [nt] is the number of
    requests made so far. *)
Fixpoint reqMediaWiki_loop (query : gmap string string) (url : string)
    (method : method) (attempts : Z) (nt : nat)
    (script : list MW.response) (log : list event)
    : list MW.response * list event * outcome MW.json :=
  let nt := S nt in
  match method with
  | Method name =>
      (script, log, Raise (ValueError ("Method '" ++ name ++ "' is not supported")))
  | _ =>
      let log := (log ++ [Request method url query None])%list in
      match script with
      | [] => (script, log, Blocked)
      | response :: script =>
          match raise_for_status (MW.status_code response) with
          | Raise e => (script, log, Raise e)
          | Blocked => (script, log, Blocked)
          | Return _ =>
              let j := MW.body response in
              match MW.error j with
              | None => (script, log, Return j)
              | Some err =>
                  if String.eqb (MW.code err) "ratelimited" then
                    if (Z.of_nat nt <=? attempts)%Z then
                      reqMediaWiki_loop query url method attempts nt script
                        (log ++ [Sleep (60 * Z.of_nat nt)])%list
                    else
                      (script, log,
                       Raise (NameError (str_of_nat nt
                                         ++ " ratelimited attemps achieved, aborting.")))
                  else
                    (script, log,
                     Raise (NameError ("ERROR: reqMediaWiki: " ++ MW.code err ++ ": "
                                       ++ MW.info err)))
              end
          end
      end
  end.

(** A reply that carries the JSON error code ["ratelimited"], and the
    requests and sleeps of [k] retries. *)
Definition ratelimited (r : MW.response) : Prop :=
  raise_for_status (MW.status_code r) = Return tt
  ∧ ∃ err, MW.error (MW.body r) = Some err ∧ MW.code err = "ratelimited".

Definition retries (method : method) (url : string) (query : gmap string string)
    (k : nat) : list event :=
  flat_map (fun n => [Request method url query None; Sleep (60 * Z.of_nat n)])
           (seq 1 k).

(** The default of the parameter [attempts]. *)
Definition default_attempts : Z := 2.

(** [reqMediaWiki(query, project, method, attempts)]; [method] defaults to
    ['GET'] and [attempts] to [default_attempts]. *)
Definition reqMediaWiki (query : gmap string string) (project : string)
    (method : method) (attempts : Z)
    (script : list MW.response) (log : list event)
    : list MW.response * list event * outcome MW.json :=
  if String.eqb (Str.strip project) "" then
    (script, log,
     Raise (ValueError "Parameter 'query' or parameter 'project' or both are invalid"))
  else if match query !! "titles" with
          | Some titles => (MW.MW_LIMIT <? MW.split_count titles)%nat
          | None => false
          end then
    (script, log,
     Raise (ValueError ("The number of articles ("
                        ++ str_of_nat (MW.split_count (default "" (query !! "titles")))
                        ++ ") exceeds the MediaWiki API limit ("
                        ++ str_of_nat MW.MW_LIMIT ++ ")")))
  else
    reqMediaWiki_loop query ("https://" ++ project ++ "/w/api.php") method attempts 0
                      script log.

(** ** normalizedTitle *)

Section NormalizedTitle.

(** [requests.utils.quote]: the percent-encoding of a string. *)
Variable quote : string -> string.

(** ['fromencoded' in nn and nn['fromencoded']] *)
Definition is_fromencoded (nn : MW.norm_entry) : bool :=
  match MW.fromencoded nn with
  | Some b => b
  | None => false
  end.

(** The body of [for nn in q['normalized']] on one entry: the new value
    of [anorm] and whether the loop breaks. *)
Definition normalized_step (anorm : string) (nn : MW.norm_entry) : string * bool :=
  let anorm :=
    if is_fromencoded nn && String.eqb (quote anorm) (MW.n_from nn)
    then MW.n_to nn else anorm in
  if String.eqb (MW.n_from nn) anorm then (MW.n_to nn, true) else (anorm, false).

Fixpoint normalized_loop (anorm : string) (l : list MW.norm_entry) : string :=
  match l with
  | [] => anorm
  | nn :: l =>
      let '(anorm, break) := normalized_step anorm nn in
      if break then anorm else normalized_loop anorm l
  end.

(** [for nn in q['redirects']]: the first entry whose source is [anorm]. *)
Fixpoint redirect_loop (anorm : string) (l : list MW.redirect) : option string :=
  match l with
  | [] => None
  | nn :: l =>
      if String.eqb (MW.r_from nn) anorm then Some (MW.r_to nn)
      else redirect_loop anorm l
  end.

(** The value of [anorm] when [normalizedTitle] returns. *)
Definition anorm_of (title : string) (q : MW.query_part) : string :=
  match MW.normalized q with
  | Some l => normalized_loop title l
  | None => title
  end.

(** [normalizedTitle(title, q)]: the pair [normalized, target]. *)
Definition normalizedTitle (title : string) (q : MW.query_part)
    : option string * option string :=
  let anorm := anorm_of title q in
  let normalized := if String.eqb anorm title then None else Some anorm in
  let target :=
    match MW.redirects q with
    | Some l => redirect_loop anorm l
    | None => None
    end in
  (normalized, target).

(** [next(n for n in [target, normalized, title] if n is not None)] *)
Definition resolved (title : string) (q : MW.query_part) : string :=
  let '(normalized, target) := normalizedTitle title q in
  match target with
  | Some t => t
  | None =>
      match normalized with
      | Some n => n
      | None => title
      end
  end.

(** The pages of [for page in q['pages']: if anorm == page['title']]. *)
Definition pages_of (title : string) (q : MW.query_part) (pages : list MW.page)
    : list MW.page :=
  List.filter (fun page => String.eqb (resolved title q) (MW.title page)) pages.

End NormalizedTitle.

(** ** Dictionaries whose key order is observed *)

Section ODict.
Context {A : Type}.

(** An insertion-ordered [dict] with [str] keys. *)
Definition odict : Type := list (string * A).

Fixpoint dict_get (k : string) (d : odict) : option A :=
  match d with
  | [] => None
  | (k', v) :: d => if String.eqb k k' then Some v else dict_get k d
  end.

(** [d[k] = v]: an existing key keeps its position, a new key goes last. *)
Fixpoint dict_set (k : string) (v : A) (d : odict) : odict :=
  match d with
  | [] => [(k, v)]
  | (k', v') :: d =>
      if String.eqb k k' then (k, v) :: d else (k', v') :: dict_set k v d
  end.

End ODict.
Arguments odict : clear implicits.

(** ** m_PageOutLinks *)

(** A value [output[title]]. *)
Record links_row : Type := {
  row_status : string;
  row_normalized : option string;
  row_target : option string;
  row_nlinks : nat;
  row_links : option (list string)
}.

(** The data frame [pd.DataFrame.from_dict(output, orient='index')]: one
    row per key of [output], in key order. *)
Definition links_frame : Type := result unit (string * links_row).

Section PageOutLinks.

Variable quote : string -> string.

Definition page_status (page : MW.page) : string :=
  if MW.invalid page then "invalid"
  else if MW.missing page then "missing"
  else match MW.pageid page with
       | None => "no pageid"
       | Some _ => "OK"
       end.

(** The body of [if anorm == page['title']]; [first] is
    ['continue' not in query]. *)
Definition absorb_page (first : bool) (title : string)
    (normalized target : option string) (page : MW.page)
    (output : odict links_row) : outcome (odict links_row) :=
  let output :=
    if first then
      let status := page_status page in
      dict_set title
        {| row_status := status;
           row_normalized := normalized;
           row_target := target;
           row_nlinks := 0;
           row_links := if String.eqb status "OK" then Some [] else None |}
        output
    else output in
  match MW.links page with
  | None => Return output
  | Some links =>
      match dict_get title output with
      | None => Raise (KeyError title)
      | Some row =>
          match row_links row with
          | None =>
              Raise (AttributeError "'NoneType' object has no attribute 'extend'")
          | Some old =>
              Return (dict_set title
                        {| row_status := row_status row;
                           row_normalized := row_normalized row;
                           row_target := row_target row;
                           row_nlinks := row_nlinks row + length links;
                           row_links := Some (old ++ links)%list |}
                        output)
          end
      end
  end.

Fixpoint absorb_pages (first : bool) (title : string)
    (normalized target : option string) (anorm : string) (pages : list MW.page)
    (output : odict links_row) : outcome (odict links_row) :=
  match pages with
  | [] => Return output
  | page :: pages =>
      output <- (if String.eqb anorm (MW.title page)
                 then absorb_page first title normalized target page output
                 else Return output) ;;
      absorb_pages first title normalized target anorm pages output
  end.

(** The body of [for title in titles]. *)
Definition absorb_title (first : bool) (q : MW.query_part) (title : string)
    (output : odict links_row) : outcome (odict links_row) :=
  let '(normalized, target) := normalizedTitle quote title q in
  let anorm := resolved quote title q in
  match MW.pages q with
  | None => Raise (KeyError "pages")
  | Some pages => absorb_pages first title normalized target anorm pages output
  end.

Fixpoint absorb (first : bool) (q : MW.query_part) (titles : list string)
    (output : odict links_row) : outcome (odict links_row) :=
  match titles with
  | [] => Return output
  | title :: titles =>
      output <- absorb_title first q title output ;;
      absorb first q titles output
  end.

Definition links_query (titles : list string) : gmap string string :=
  list_to_map
    [("format", "json"); ("formatversion", "2"); ("redirects", "1");
     ("action", "query"); ("prop", "links"); ("plnamespace", "0");
     ("pllimit", "max"); ("titles", String.concat "|" titles)].

(** The [while(True)] loop.  Every iteration takes at least one reply
    from [script]; [fuel] bounds the number of iterations. *)
Fixpoint links_loop (fuel : nat) (titles : list string) (project : string)
    (query : gmap string string) (output : odict links_row)
    (script : list MW.response) (log : list event)
    : list MW.response * list event * outcome (option links_frame) :=
  match fuel with
  | O => (script, log, Blocked)
  | S fuel =>
      let '(script, log, j) :=
        reqMediaWiki query project GET default_attempts script log in
      match j with
      | Raise e => (script, log, Raise e)
      | Blocked => (script, log, Blocked)
      | Return j =>
          match MW.query j with
          | None => (script, log, Return None)
          | Some q =>
              match absorb (negb (bool_decide ("continue" ∈ dom query)))
                           q titles output with
              | Raise e => (script, log, Raise e)
              | Blocked => (script, log, Blocked)
              | Return output =>
                  match MW.continue j with
                  | Some c =>
                      links_loop fuel titles project (update query c) output script log
                  | None => (script, log, Return (Some (Frame output)))
                  end
              end
          end
      end
  end.

(** [m_PageOutLinks] past the chunking test. *)
Definition links_direct (titles : list string) (project : string)
    (script : list MW.response) (log : list event)
    : list MW.response * list event * outcome (option links_frame) :=
  links_loop (S (length script)) titles project (links_query titles) [] script log.

(** [m_PageOutLinks(titles, project, chunksize)].  The function is its own
    worker in [doChunks]; [depth] is the depth of recursion the
    interpreter allows. *)
Fixpoint m_PageOutLinks (depth : nat) (titles : strs) (project : string)
    (chunksize : nat) (script : list MW.response) (log : list event)
    : list MW.response * list event * outcome (option links_frame) :=
  match checkTitles titles with
  | Raise e => (script, log, Raise e)
  | Blocked => (script, log, Blocked)
  | Return titles =>
      let n := length titles in
      if (chunksize <? n)%nat then
        match depth with
        | O => (script, log, Raise (LibraryError "RecursionError"))
        | S depth =>
            let f : worker (list MW.response * list event) unit (string * links_row) :=
              fun x_list chunksize w =>
                let '(script, log, d) :=
                  m_PageOutLinks depth (Many x_list) project chunksize (fst w) (snd w) in
                ((script, log), d) in
            let '(w, _, d) := doChunks f titles chunksize (script, log) in
            (fst w, snd w, d)
        end
      else links_direct titles project script log
  end.

(** *** Vocabulary for runs of the loop *)

(** [reqMediaWiki] accepts the query: at most [MW_LIMIT] titles. *)
Definition sendable (query : gmap string string) : Prop :=
  ∀ titles, query !! "titles" = Some titles →
            (MW.split_count titles ≤ MW.MW_LIMIT)%nat.

(** A reply that is a page: no HTTP error, no JSON error, a ["query"] part. *)
Definition is_page (r : MW.response) (q : MW.query_part) : Prop :=
  raise_for_status (MW.status_code r) = Return tt
  ∧ MW.error (MW.body r) = None
  ∧ MW.query (MW.body r) = Some q.

(** The query parameters after the tokens of the replies [rs] have been
    merged in, and the queries sent for [rs]. *)
Fixpoint after (query : gmap string string) (rs : list MW.response)
    : gmap string string :=
  match rs with
  | [] => query
  | r :: rs =>
      after (match MW.continue (MW.body r) with
             | Some c => update query c
             | None => query
             end) rs
  end.

Fixpoint queries (query : gmap string string) (rs : list MW.response)
    : list (gmap string string) :=
  match rs with
  | [] => []
  | r :: rs =>
      query :: queries (match MW.continue (MW.body r) with
                        | Some c => update query c
                        | None => query
                        end) rs
  end.

Definition requests (project : string) (query : gmap string string)
    (rs : list MW.response) : list event :=
  map (fun query => Request GET ("https://" ++ project ++ "/w/api.php") query None)
      (queries query rs).

(** Pages that carry a token with a field ["continue"], each sent a
    query that [reqMediaWiki] accepts. *)
Fixpoint continuing (query : gmap string string) (rs : list MW.response) : Prop :=
  match rs with
  | [] => True
  | r :: rs =>
      sendable query
      ∧ (∃ q, is_page r q)
      ∧ ∃ c, MW.continue (MW.body r) = Some c ∧ "continue" ∈ dom c
             ∧ continuing (update query c) rs
  end.

(** The ["query"] parts of replies. *)
Definition parts (rs : list MW.response) : list MW.query_part :=
  omap (fun r => MW.query (MW.body r)) rs.

(** The accumulator after the pages [qs], the first of them absorbed with
    ['continue' not in query] equal to [first], the others with [False]. *)
Fixpoint absorb_seq (first : bool) (qs : list MW.query_part) (titles : list string)
    (output : odict links_row) : outcome (odict links_row) :=
  match qs with
  | [] => Return output
  | q :: qs =>
      output <- absorb first q titles output ;;
      absorb_seq false qs titles output
  end.

(** The pages of a reply that answer [title], and the links they list. *)
Definition hits (title : string) (q : MW.query_part) : list MW.page :=
  pages_of quote title q (default [] (MW.pages q)).

Definition links_of (title : string) (q : MW.query_part) : list string :=
  concat (map (fun page => default [] (MW.links page)) (hits title q)).

Definition lists_links (title : string) (q : MW.query_part) : Prop :=
  ∃ page, page ∈ hits title q ∧ is_Some (MW.links page).

(** [absorb_pages] on the pages that answer the title. *)
Fixpoint absorb_hits (first : bool) (title : string)
    (normalized target : option string) (pages : list MW.page)
    (output : odict links_row) : outcome (odict links_row) :=
  match pages with
  | [] => Return output
  | page :: pages =>
      output <- absorb_page first title normalized target page output ;;
      absorb_hits first title normalized target pages output
  end.

(** [output[title]] with [links] appended. *)
Definition extended (row : links_row) (old links : list string) : links_row :=
  {| row_status := row_status row;
     row_normalized := row_normalized row;
     row_target := row_target row;
     row_nlinks := row_nlinks row + length links;
     row_links := Some (old ++ links)%list |}.

(** The union of the records of [title] over the pages [q1 :: qs]: the
    status and the names are those of the first page, the links are those of
    all pages in order. *)
Definition union_row (title : string) (q1 : MW.query_part) (qs : list MW.query_part)
    : option links_row :=
  match hits title q1 with
  | [] => None
  | page :: _ =>
      let all := concat (map (links_of title) (q1 :: qs)) in
      Some {| row_status := page_status page;
              row_normalized := (normalizedTitle quote title q1).1;
              row_target := (normalizedTitle quote title q1).2;
              row_nlinks := length all;
              row_links := if String.eqb (page_status page) "OK"
                           then Some all else None |}
  end.

(** Pages whose records can be united without a lookup error: every reply
    has its list of pages, the first reply has at most one page per title,
    and links are listed only for titles whose page in the first reply has
    status ["OK"]. *)
Definition regular (titles : list string) (q1 : MW.query_part)
    (qs : list MW.query_part) : Prop :=
  (∀ q, q ∈ q1 :: qs → is_Some (MW.pages q))
  ∧ (∀ title, title ∈ titles → (length (hits title q1) ≤ 1)%nat)
  ∧ (∀ title q, title ∈ titles → q ∈ q1 :: qs → lists_links title q →
       ∃ page, hits title q1 = [page] ∧ page_status page = "OK").

End PageOutLinks.

(** ** w_isValid *)

Section IsValid.

Variable http2time : string -> option Z.

(** The rows of the data frame, and the pandas code that turns the CSV
    reply into them (column slicing and renaming), taken as total. *)
Context {Row : Type}.
Variable frame_of : WDQS.body -> list Row.

Definition isValid_query (entity_list : list string) : string :=
  let values := "wd:" ++ String.concat " wd:" entity_list in
  "SELECT ?entity ?valid
(GROUP_CONCAT(DISTINCT ?instanc; separator='|') as ?instanceof) ?redirection
WHERE {
  OPTIONAL {
    VALUES ?entity {" ++ values ++ " }
    BIND(EXISTS{?entity rdfs:label []} || EXISTS{?entity schema:description []} AS ?valid).
    OPTIONAL {?entity wdt:P31 ?instanc.}
    OPTIONAL {?entity owl:sameAs ?redirection}
  }
} GROUP BY ?entity ?valid ?redirection
".

(** [w_isValid(entity_list, chunksize)]; [depth] as in [m_PageOutLinks]. *)
Fixpoint w_isValid (depth : nat) (entity_list : strs) (chunksize : nat)
    (script : list WDQS.exchange) (log : list event)
    : list WDQS.exchange * list event * outcome (option (result unit Row)) :=
  match checkEntities entity_list with
  | Raise e => (script, log, Raise e)
  | Blocked => (script, log, Blocked)
  | Return entity_list =>
      let n := length entity_list in
      if (chunksize <? n)%nat then
        match depth with
        | O => (script, log, Raise (LibraryError "RecursionError"))
        | S depth =>
            let f : worker (list WDQS.exchange * list event) unit Row :=
              fun x_list chunksize w =>
                let '(script, log, d) :=
                  w_isValid depth (Many x_list) chunksize (fst w) (snd w) in
                ((script, log), d) in
            let '(w, _, d) := doChunks f entity_list chunksize (script, log) in
            (fst w, snd w, d)
        end
      else
        let '(script, log, d) :=
          reqWDQS http2time (isValid_query entity_list) POST "csv" script log in
        (script, log, d <- d ;; Return (Some (Frame (frame_of d))))
  end.

End IsValid.

(** ** Sample workers and replies *)

Module Sample.

(** A worker that maps every identifier of its batch to the number of the
    call that served it; the world counts the calls. *)
Definition numbering : worker nat nat unit :=
  fun x_list _ w =>
    (S w, Return (Some (Dict (list_to_map (map (fun q => (q, S w)) x_list))))).

(** A worker that returns one row per identifier. *)
Definition listing : worker nat unit string :=
  fun x_list _ w => (S w, Return (Some (Frame x_list))).

(** A worker that returns [None] on the batch that holds ["Q3"]. *)
Definition refusing : worker nat nat unit :=
  fun x_list c w =>
    if bool_decide ("Q3" ∈ x_list) then (S w, Return None) else numbering x_list c w.

End Sample.

(** Replies and dates for the examples. *)
Module SampleWDQS.

(** A [http2time] that knows one date, 2015-10-21 07:28:00 GMT. *)
Definition http2time (t : string) : option Z :=
  if String.eqb t "Wed, 21 Oct 2015 07:28:00 GMT" then Some 1445412480%Z else None.

Definition too_many (retry_after : string) (clock : Z) : WDQS.exchange :=
  {| WDQS.reply := {| WDQS.status_code := 429;
                      WDQS.retry_after := Some retry_after;
                      WDQS.content_type := Some "text/html";
                      WDQS.text := "" |};
     WDQS.clock := clock |}.

Definition ok (content_type text : string) : WDQS.exchange :=
  {| WDQS.reply := {| WDQS.status_code := 200;
                      WDQS.retry_after := None;
                      WDQS.content_type := Some content_type;
                      WDQS.text := text |};
     WDQS.clock := 0 |}.

End SampleWDQS.

Module SampleMW.

Definition limited : MW.response :=
  {| MW.status_code := 200;
     MW.body := {| MW.error := Some {| MW.code := "ratelimited";
                                       MW.info := "You've exceeded your rate limit." |};
                   MW.query := None;
                   MW.continue := None |} |}.

Definition empty_page : MW.response :=
  {| MW.status_code := 200;
     MW.body := {| MW.error := None;
                   MW.query := Some {| MW.normalized := None;
                                       MW.redirects := None;
                                       MW.pages := Some [] |};
                   MW.continue := None |} |}.

End SampleMW.

Module SampleTitle.

(** A percent-encoding for the examples, as [urllib.parse.quote] does it on
    the UTF-8 bytes of a string: letters, digits and [_.-~/] stay, any other
    byte becomes [%XX]. *)
Definition hex_digit (n : nat) : ascii :=
  nth n (Str.chars "0123456789ABCDEF") "0"%char.

Definition unreserved (c : ascii) : bool :=
  let n := nat_of_ascii c in
  ((65 <=? n) && (n <=? 90) || (97 <=? n) && (n <=? 122) || (48 <=? n) && (n <=? 57)
   || existsb (Ascii.eqb c) (Str.chars "_.-~/"))%nat.

Definition quote (s : string) : string :=
  Str.of_chars
    (flat_map (fun c =>
                 if unreserved c then [c]
                 else let n := nat_of_ascii c in
                      ["%"%char; hex_digit (n / 16); hex_digit (n mod 16)])
              (Str.chars s)).

(** "a" followed by a combining caron (U+030C), and the letter U+01CD. *)
Definition a_caron : string := String "a" (String "204" (String "140" "")).
Definition A_caron : string := String "199" (String "141" "").

(** The metadata MediaWiki returns for the title [a_caron]. *)
Definition caron_query : MW.query_part :=
  {| MW.normalized := Some [ {| MW.fromencoded := Some true;
                                MW.n_from := "a%CC%8C";
                                MW.n_to := A_caron |} ];
     MW.redirects := Some [ {| MW.r_from := A_caron; MW.r_to := "Caron" |} ];
     MW.pages := Some [] |}.

(** Metadata in which a plain entry for ["X"] stands before the encoded
    entry that produces ["X"]. *)
Definition unordered_query : MW.query_part :=
  {| MW.normalized := Some [ {| MW.fromencoded := Some false;
                                MW.n_from := "X"; MW.n_to := "Z" |};
                             {| MW.fromencoded := Some true;
                                MW.n_from := "x%20y"; MW.n_to := "X" |} ];
     MW.redirects := None;
     MW.pages := Some [] |}.

End SampleTitle.

(** Three pages of outgoing links of the page ["A"]. *)
Module SampleLinks.

Definition page_A (links : list string) : MW.page :=
  {| MW.title := "A"; MW.invalid := false; MW.missing := false;
     MW.pageid := Some 1%Z; MW.links := Some links |}.

Definition reply (links : list string) (continue : option (gmap string string))
    : MW.response :=
  {| MW.status_code := 200;
     MW.body := {| MW.error := None;
                   MW.query := Some {| MW.normalized := None;
                                       MW.redirects := None;
                                       MW.pages := Some [page_A links] |};
                   MW.continue := continue |} |}.

(** A continuation token as MediaWiki sends it, and one without the field
    ["continue"]. *)
Definition token (plcontinue : string) : gmap string string :=
  {[ "plcontinue" := plcontinue; "continue" := "||" ]}.

Definition bare_token (plcontinue : string) : gmap string string :=
  {[ "plcontinue" := plcontinue ]}.

Definition three_pages : list MW.response :=
  [reply ["L1"; "L2"] (Some (token "1|0|L3"));
   reply ["L3"] (Some (token "1|0|L4"));
   reply ["L4"] None].

Definition three_pages_bare : list MW.response :=
  [reply ["L1"; "L2"] (Some (bare_token "1|0|L3"));
   reply ["L3"] (Some (bare_token "1|0|L4"));
   reply ["L4"] None].

(** A reply that has a token and no ["query"] part. *)
Definition no_query : MW.response :=
  {| MW.status_code := 200;
     MW.body := {| MW.error := None;
                   MW.query := None;
                   MW.continue := Some (token "1|0|L3") |} |}.

Definition url : string := "https://en.wikipedia.org/w/api.php".

End SampleLinks.

(** * Further functions

    The validation and request functions above are used by the query
    functions of the module.  This part adds the vocabulary for what they
    return and the embedding of three more of them: [m_Search],
    [m_WikidataEntity] and [m_Redirects], which read page properties and
    redirects from the replies of the MediaWiki API. *)

(** ** Vocabulary for the results of the validation functions *)

(** A list of characters with no space at either end, as [str.strip]
    leaves it. *)
Definition trimmed (l : list ascii) : Prop :=
  match l with [] => True | c :: _ => Str.isspace c = false end
  ∧ match rev l with [] => True | c :: _ => Str.isspace c = false end.

(** [q] is the letter [Q] or [P] followed by one or more digits, and
    nothing else. *)
Definition entity_id (q : string) : Prop :=
  ∃ c ds, Str.chars q = c :: ds ∧ (c = "Q"%char ∨ c = "P"%char)
          ∧ ds ≠ [] ∧ forallb Str.isdigit ds = true.


(** A worker that raises on the batch that holds ["Q3"]. *)
Module SampleErrors.

Definition failing : worker nat nat unit :=
  fun x_list c w =>
    if bool_decide ("Q3" ∈ x_list) then (S w, Raise (KeyError "Q3"))
    else Sample.numbering x_list c w.

End SampleErrors.

(** ** Vocabulary for logs *)

(** The number of requests in a log, and the sleeps in it, in order. *)
Definition is_request (e : event) : bool :=
  match e with
  | Request _ _ _ _ => true
  | Sleep _ => false
  end.

Definition n_requests (log : list event) : nat :=
  length (List.filter is_request log).

Definition sleeps (log : list event) : list Z :=
  omap (fun e => match e with Sleep s => Some s | Request _ _ _ _ => None end) log.

(** ** Vocabulary for the rows of [m_PageOutLinks] *)

(** The statuses [m_PageOutLinks] gives. *)
Definition link_statuses : list string := ["invalid"; "missing"; "no pageid"; "OK"].

(** A row whose fields agree: the links are listed exactly when the status
    is ["OK"], and [nlinks] is their number. *)
Definition row_consistent (row : links_row) : Prop :=
  row_status row ∈ link_statuses
  ∧ match row_links row with
    | Some l => row_status row = "OK" ∧ row_nlinks row = length l
    | None => row_status row ≠ "OK" ∧ row_nlinks row = 0%nat
    end.

(** An accumulator with one row per title at most, only for titles asked
    for, each row consistent. *)
Definition rows_consistent (titles : list string) (output : odict links_row) : Prop :=
  NoDup (map fst output)
  ∧ ∀ title row, (title, row) ∈ output → title ∈ titles ∧ row_consistent row.

(** ** Vocabulary for the requests of [w_isValid] *)

(** A reply of the query service that is good and carries CSV. *)
Definition csv_reply (x : WDQS.exchange) : Prop :=
  WDQS.status_code (WDQS.reply x) ≠ 429%Z
  ∧ raise_for_status (WDQS.status_code (WDQS.reply x)) = Return tt
  ∧ ∃ rtype, WDQS.content_type (WDQS.reply x) = Some rtype
             ∧ String.prefix "text/csv" rtype = true.

(** The request [w_isValid] sends for the entities [b]. *)
Definition isValid_request (b : list string) : event :=
  Request POST WDQS.url {[ "query" := isValid_query b ]} (Some "text/csv").

(** ** Queries that read page properties *)

Module MWX.

(** The JSON of the replies to queries with [prop=pageprops] or
    [prop=redirects], restricted to the keys the code reads.  [title] is
    present in every page; [index] is the rank a generator gives its pages;
    [props] is ['pageprops']; [redirects_here] holds the titles [r['title']]
    of the entries of [page['redirects']]. *)
Record pageprops : Type := {
  wikibase_item : option string;
  disambiguation : bool
}.

Record page : Type := {
  title : string;
  index : option Z;
  invalid : bool;
  missing : bool;
  props : option pageprops;
  redirects_here : option (list string)
}.

Record query_part : Type := {
  normalized : option (list MW.norm_entry);
  redirects : option (list MW.redirect);
  pages : option (list page)
}.

Record json : Type := {
  error : option MW.api_error;
  query : option query_part;
  continue : option (gmap string string)
}.

Record response : Type := {
  status_code : Z;
  body : json
}.

(** What [normalizedTitle] reads of [j['query']]. *)
Definition names (q : query_part) : MW.query_part :=
  {| MW.normalized := normalized q;
     MW.redirects := redirects q;
     MW.pages := None |}.

End MWX.

(** [reqMediaWiki] does not look into the pages of a reply: here it is
    written over any kind of reply that has a status and a JSON body with an
    optional ["error"]. *)
Section ReqMediaWikiOn.
Context {R J : Type}.
Variable status_code : R → Z.
Variable body : R → J.
Variable error : J → option MW.api_error.

Fixpoint reqMediaWiki_on_loop (query : gmap string string) (url : string)
    (method : method) (attempts : Z) (nt : nat)
    (script : list R) (log : list event)
    : list R * list event * outcome J :=
  let nt := S nt in
  match method with
  | Method name =>
      (script, log, Raise (ValueError ("Method '" ++ name ++ "' is not supported")))
  | _ =>
      let log := (log ++ [Request method url query None])%list in
      match script with
      | [] => (script, log, Blocked)
      | response :: script =>
          match raise_for_status (status_code response) with
          | Raise e => (script, log, Raise e)
          | Blocked => (script, log, Blocked)
          | Return _ =>
              let j := body response in
              match error j with
              | None => (script, log, Return j)
              | Some err =>
                  if String.eqb (MW.code err) "ratelimited" then
                    if (Z.of_nat nt <=? attempts)%Z then
                      reqMediaWiki_on_loop query url method attempts nt script
                        (log ++ [Sleep (60 * Z.of_nat nt)])%list
                    else
                      (script, log,
                       Raise (NameError (str_of_nat nt
                                         ++ " ratelimited attemps achieved, aborting.")))
                  else
                    (script, log,
                     Raise (NameError ("ERROR: reqMediaWiki: " ++ MW.code err ++ ": "
                                       ++ MW.info err)))
              end
          end
      end
  end.

Definition reqMediaWiki_on (query : gmap string string) (project : string)
    (method : method) (attempts : Z)
    (script : list R) (log : list event)
    : list R * list event * outcome J :=
  if String.eqb (Str.strip project) "" then
    (script, log,
     Raise (ValueError "Parameter 'query' or parameter 'project' or both are invalid"))
  else if match query !! "titles" with
          | Some titles => (MW.MW_LIMIT <? MW.split_count titles)%nat
          | None => false
          end then
    (script, log,
     Raise (ValueError ("The number of articles ("
                        ++ str_of_nat (MW.split_count (default "" (query !! "titles")))
                        ++ ") exceeds the MediaWiki API limit ("
                        ++ str_of_nat MW.MW_LIMIT ++ ")")))
  else
    reqMediaWiki_on_loop query ("https://" ++ project ++ "/w/api.php") method attempts 0
                         script log.

End ReqMediaWikiOn.

(** [reqMediaWiki(query=query, project=project)] on replies with page
    properties. *)
Definition reqMediaWikiX (query : gmap string string) (project : string)
    (script : list MWX.response) (log : list event)
    : list MWX.response * list event * outcome MWX.json :=
  reqMediaWiki_on MWX.status_code MWX.body MWX.error query project GET default_attempts
                  script log.

(** ** m_Search *)

(** [f"{limit}"] for an [int]. *)
Definition str_of_int (z : Z) : string :=
  DecimalString.NilZero.string_of_int (Z.to_int z).

(** A row of the result: one found page. *)
Record search_row : Type := {
  s_index : Z;
  s_title : string;
  s_status : string;
  s_entity : option string
}.

(** The branches on ['pageprops']: the status and the Wikidata entity. *)
Definition pageprops_status (page : MWX.page) : string * option string :=
  match MWX.props page with
  | None => ("no_pageprops", None)
  | Some pp =>
      match MWX.wikibase_item pp with
      | None => ("no_wikibase_item", None)
      | Some item =>
          (if MWX.disambiguation pp then "disambiguation" else "OK", Some item)
      end
  end.

(** The query parameters for [mode]; [limit > 500] is sent as ["max"]. *)
Definition search_query (string mode profile : String.string) (limit : Z)
    : outcome (gmap String.string String.string) :=
  let lim := if (500 <? limit)%Z then "max" else str_of_int limit in
  if String.eqb mode "title" then
    Return (list_to_map
              [("format", "json"); ("formatversion", "2"); ("redirects", "1");
               ("action", "query"); ("generator", "prefixsearch");
               ("gpsnamespace", "0"); ("gpsprofile", profile); ("gpslimit", lim);
               ("prop", "pageprops"); ("ppprop", "wikibase_item|disambiguation");
               ("gpssearch", string)])
  else if String.eqb mode "text" then
    Return (list_to_map
              [("format", "json"); ("formatversion", "2"); ("action", "query");
               ("generator", "search"); ("gsrprop", EmptyString); ("gsrnamespace", "0");
               ("gsrqiprofile", "engine_autoselect"); ("gsrlimit", lim);
               ("prop", "pageprops"); ("ppprop", "wikibase_item|disambiguation");
               ("gsrsearch", string)])
  else Raise (ValueError "Invalid value for parameter 'mode'").

Definition search_row_of (index : Z) (page : MWX.page) : search_row :=
  {| s_index := index;
     s_title := MWX.title page;
     s_status := (pageprops_status page).1;
     s_entity := (pageprops_status page).2 |}.

(** [for page in j['query']['pages']]: the rows appended, and [getlimit]. *)
Fixpoint search_pages (limit : Z) (pages : list MWX.page) (output : list search_row)
    : outcome (list search_row * bool) :=
  match pages with
  | [] => Return (output, false)
  | page :: pages =>
      match MWX.index page with
      | None => Raise (KeyError "index")
      | Some index =>
          let output := (output ++ [search_row_of index page])%list in
          if (limit <=? Z.of_nat (length output))%Z then Return (output, true)
          else search_pages limit pages output
      end
  end.

(** The [while(True)] loop; [fuel] bounds the number of iterations, each
    of which takes at least one reply. *)
Fixpoint search_loop (fuel : nat) (project : string) (query : gmap string string)
    (limit : Z) (output : list search_row)
    (script : list MWX.response) (log : list event)
    : list MWX.response * list event * outcome (list search_row) :=
  match fuel with
  | O => (script, log, Blocked)
  | S fuel =>
      let '(script, log, j) := reqMediaWikiX query project script log in
      match j with
      | Raise e => (script, log, Raise e)
      | Blocked => (script, log, Blocked)
      | Return j =>
          match MWX.query j with
          | None => (script, log, Return output)
          | Some q =>
              match MWX.pages q with
              | None => (script, log, Raise (KeyError "pages"))
              | Some pages =>
                  match search_pages limit pages output with
                  | Raise e => (script, log, Raise e)
                  | Blocked => (script, log, Blocked)
                  | Return (output, getlimit) =>
                      if getlimit then (script, log, Return output)
                      else
                        match MWX.continue j with
                        | Some c =>
                            search_loop fuel project (update query c) limit output
                                        script log
                        | None => (script, log, Return output)
                        end
                  end
              end
          end
      end
  end.

(** [sorted(output, key=lambda x: x['index'])]: the stable sort, written
    as insertion from the right. *)
Fixpoint insert_by_index (x : search_row) (l : list search_row) : list search_row :=
  match l with
  | [] => [x]
  | y :: l' =>
      if (s_index x <=? s_index y)%Z then x :: l else y :: insert_by_index x l'
  end.

Definition sorted_by_index (l : list search_row) : list search_row :=
  fold_right insert_by_index [] l.

(** [m_Search(string, mode, project, profile, limit)]: the data frame as
    the list of its rows, or [None]. *)
Definition m_Search (string mode project profile : String.string) (limit : Z)
    (script : list MWX.response) (log : list event)
    : list MWX.response * list event * outcome (option (list search_row)) :=
  if String.eqb (Str.strip string) "" then
    (script, log, Raise (NameError "The 'string' parameter must be set."))
  else
    match search_query string mode profile limit with
    | Raise e => (script, log, Raise e)
    | Blocked => (script, log, Blocked)
    | Return query =>
        let '(script, log, output) :=
          search_loop (S (length script)) project query limit [] script log in
        (script, log,
         output <- output ;;
         Return (if (length output =? 0)%nat then None
                 else Some (sorted_by_index output)))
    end.

(** Replies for the examples of [m_Search]. *)
Module SampleSearch.

Definition found (index : Z) (title : string) (item : option string) (dis : bool)
    : MWX.page :=
  {| MWX.title := title; MWX.index := Some index;
     MWX.invalid := false; MWX.missing := false;
     MWX.props := Some {| MWX.wikibase_item := item; MWX.disambiguation := dis |};
     MWX.redirects_here := None |}.

Definition reply (pages : list MWX.page) (continue : option (gmap string string))
    : MWX.response :=
  {| MWX.status_code := 200;
     MWX.body := {| MWX.error := None;
                    MWX.query := Some {| MWX.normalized := None;
                                         MWX.redirects := None;
                                         MWX.pages := Some pages |};
                    MWX.continue := continue |} |}.

(** A reply without ["query"]: nothing found. *)
Definition nothing : MWX.response :=
  {| MWX.status_code := 200;
     MWX.body := {| MWX.error := None; MWX.query := None; MWX.continue := None |} |}.

(** Three pages, not in the order of their ranks. *)
Definition three : list MWX.page :=
  [found 2 "Max Planck Society" (Some "Q158085") false;
   found 1 "Max Planck" (Some "Q9021") false;
   found 3 "Max Planck (disambiguation)" (Some "Q225238") true].

End SampleSearch.

(** ** Vocabulary for the rows of [m_Search] *)

(** The statuses [m_Search] gives, and a row whose entity is given exactly
    for the statuses ["OK"] and ["disambiguation"]. *)
Definition search_statuses : list string :=
  ["no_pageprops"; "no_wikibase_item"; "disambiguation"; "OK"].

Definition search_row_consistent (row : search_row) : Prop :=
  s_status row ∈ search_statuses
  ∧ (is_Some (s_entity row) ↔ s_status row = "OK" ∨ s_status row = "disambiguation").

(** Rows in the order of their ranks. *)
Definition by_index (rows : list search_row) : Prop :=
  ∀ i j a b, (i < j)%nat → rows !! i = Some a → rows !! j = Some b →
             (s_index a ≤ s_index b)%Z.

(** The rows of pages that all have their rank. *)
Definition search_rows (pages : list MWX.page) : list search_row :=
  omap (fun page => index ← MWX.index page; Some (search_row_of index page)) pages.

(** A reply with status 200 or the like, without ["error"]. *)
Definition good_reply (r : MWX.response) : Prop :=
  raise_for_status (MWX.status_code r) = Return tt
  ∧ MWX.error (MWX.body r) = None.

(** Sortedness, as: the head is below all of the tail, at every point. *)
Fixpoint ascending (l : list search_row) : Prop :=
  match l with
  | [] => True
  | x :: l' => (∀ y, y ∈ l' → (s_index x ≤ s_index y)%Z) ∧ ascending l'
  end.

(** The rows collected so far are fewer than [limit], or none: the state in
    which the loop of [m_Search] goes on. *)
Definition below (limit : Z) (output : list search_row) : Prop :=
  output = [] ∨ (Z.of_nat (length output) < limit)%Z.

(** ** m_WikidataEntity *)

(** A value [output[title]]. *)
Record entity_row : Type := {
  e_status : string;
  e_normalized : option string;
  e_target : option string;
  e_entity : option string
}.

Definition entity_frame : Type := result unit (string * entity_row).

Section WikidataEntity.

Variable quote : string → string.

(** The status of a page and its Wikidata entity. *)
Definition entity_status (page : MWX.page) : string * option string :=
  if MWX.invalid page then ("invalid", None)
  else if MWX.missing page then ("missing", None)
  else pageprops_status page.

(** [for page in q['pages']: if anorm == page['title']: output[title] = ...] *)
Fixpoint entity_pages (title : string) (normalized target : option string)
    (anorm : string) (pages : list MWX.page) (output : odict entity_row)
    : odict entity_row :=
  match pages with
  | [] => output
  | page :: pages =>
      let output :=
        if String.eqb anorm (MWX.title page) then
          dict_set title
            {| e_status := (entity_status page).1;
               e_normalized := normalized;
               e_target := target;
               e_entity := (entity_status page).2 |}
            output
        else output in
      entity_pages title normalized target anorm pages output
  end.

(** The body of [for title in titles]. *)
Definition entity_title (q : MWX.query_part) (title : string)
    (output : odict entity_row) : outcome (odict entity_row) :=
  let '(normalized, target) := normalizedTitle quote title (MWX.names q) in
  let anorm := resolved quote title (MWX.names q) in
  match MWX.pages q with
  | None => Raise (KeyError "pages")
  | Some pages => Return (entity_pages title normalized target anorm pages output)
  end.

Fixpoint entity_titles (q : MWX.query_part) (titles : list string)
    (output : odict entity_row) : outcome (odict entity_row) :=
  match titles with
  | [] => Return output
  | title :: titles =>
      output <- entity_title q title output ;;
      entity_titles q titles output
  end.

Definition entity_query (titles : list string) : gmap string string :=
  list_to_map
    [("format", "json"); ("formatversion", "2"); ("redirects", "1");
     ("action", "query"); ("prop", "pageprops");
     ("ppprop", "wikibase_item|disambiguation");
     ("titles", String.concat "|" titles)].

(** The [while True] loop; [fuel] as in [links_loop]. *)
Fixpoint entity_loop (fuel : nat) (titles : list string) (project : string)
    (query : gmap string string) (output : odict entity_row)
    (script : list MWX.response) (log : list event)
    : list MWX.response * list event * outcome (option entity_frame) :=
  match fuel with
  | O => (script, log, Blocked)
  | S fuel =>
      let '(script, log, j) := reqMediaWikiX query project script log in
      match j with
      | Raise e => (script, log, Raise e)
      | Blocked => (script, log, Blocked)
      | Return j =>
          match MWX.query j with
          | None => (script, log, Return None)
          | Some q =>
              match entity_titles q titles output with
              | Raise e => (script, log, Raise e)
              | Blocked => (script, log, Blocked)
              | Return output =>
                  match MWX.continue j with
                  | Some c =>
                      entity_loop fuel titles project (update query c) output script log
                  | None => (script, log, Return (Some (Frame output)))
                  end
              end
          end
      end
  end.

(** [m_WikidataEntity] past the chunking test. *)
Definition entity_direct (titles : list string) (project : string)
    (script : list MWX.response) (log : list event)
    : list MWX.response * list event * outcome (option entity_frame) :=
  entity_loop (S (length script)) titles project (entity_query titles) [] script log.


End WikidataEntity.

(** The statuses [m_WikidataEntity] gives, and a row whose entity is given
    exactly for the statuses ["OK"] and ["disambiguation"]. *)
Definition entity_statuses : list string :=
  ["invalid"; "missing"; "no_pageprops"; "no_wikibase_item"; "disambiguation"; "OK"].

Definition entity_row_consistent (row : entity_row) : Prop :=
  e_status row ∈ entity_statuses
  ∧ (is_Some (e_entity row) ↔ e_status row = "OK" ∨ e_status row = "disambiguation").

(** Replies for the examples of [m_WikidataEntity]. *)
Module SampleEntity.

Definition page (title : string) (missing : bool) (item : option string) (dis : bool)
    : MWX.page :=
  {| MWX.title := title; MWX.index := None;
     MWX.invalid := false; MWX.missing := missing;
     MWX.props := if missing then None
                  else Some {| MWX.wikibase_item := item; MWX.disambiguation := dis |};
     MWX.redirects_here := None |}.

(** The reply to the titles ["Max"], ["Cervante"] and ["humanist"]. *)
Definition reply : MWX.response :=
  {| MWX.status_code := 200;
     MWX.body :=
       {| MWX.error := None;
          MWX.query :=
            Some {| MWX.normalized :=
                      Some [ {| MW.fromencoded := Some false;
                                MW.n_from := "humanist"; MW.n_to := "Humanist" |} ];
                    MWX.redirects :=
                      Some [ {| MW.r_from := "Humanist"; MW.r_to := "Humanism" |} ];
                    MWX.pages :=
                      Some [ page "Cervante" true None false;
                             page "Humanism" false (Some "Q46158") false;
                             page "Max" false (Some "Q225238") true ] |};
          MWX.continue := None |} |}.

End SampleEntity.

(** An accumulator of [m_WikidataEntity] with one row per title at most,
    only for titles asked for, each row consistent. *)
Definition entity_rows_consistent (titles : list string) (output : odict entity_row)
    : Prop :=
  NoDup (map fst output)
  ∧ ∀ title row, (title, row) ∈ output → title ∈ titles ∧ entity_row_consistent row.



(** ** m_Redirects *)

(** The [dict] returned: for every title its list of titles, or [None]. *)
Definition redirects_dict : Type := result (option (list string)) unit.

Section Redirects.

Variable quote : string → string.

(** [for page in q['pages']] for one title; [first] is
    ['continue' not in query].  A page that is invalid or missing ends the
    scan of the pages ([break]). *)
Fixpoint redirects_pages (first : bool) (title anorm : string)
    (pages : list MWX.page) (output : gmap string (list string))
    : outcome (gmap string (list string)) :=
  match pages with
  | [] => Return output
  | page :: pages =>
      if String.eqb anorm (MWX.title page) then
        if first && (MWX.invalid page || MWX.missing page) then
          Return (<[title := []]> output)
        else
          let output := if first then <[title := [anorm]]> output else output in
          let redirects := default [] (MWX.redirects_here page) in
          match output !! title with
          | None => Raise (KeyError title)
          | Some l =>
              redirects_pages first title anorm pages
                              (<[title := (l ++ redirects)%list]> output)
          end
      else redirects_pages first title anorm pages output
  end.

(** The body of [for title in titles]. *)
Definition redirects_title (first : bool) (q : MWX.query_part) (title : string)
    (output : gmap string (list string)) : outcome (gmap string (list string)) :=
  let anorm := resolved quote title (MWX.names q) in
  match MWX.pages q with
  | None => Raise (KeyError "pages")
  | Some pages => redirects_pages first title anorm pages output
  end.

Fixpoint redirects_titles (first : bool) (q : MWX.query_part) (titles : list string)
    (output : gmap string (list string)) : outcome (gmap string (list string)) :=
  match titles with
  | [] => Return output
  | title :: titles =>
      output <- redirects_title first q title output ;;
      redirects_titles first q titles output
  end.

Definition redirects_query (titles : list string) : gmap string string :=
  list_to_map
    [("format", "json"); ("formatversion", "2"); ("redirects", "1");
     ("action", "query"); ("prop", "redirects"); ("rdnamespace", "0");
     ("rdprop", "title"); ("rdlimit", "max");
     ("titles", String.concat "|" titles)].

(** [for k,v in output.items(): if len(v) == 0: output[k] = None] *)
Definition none_if_empty (v : list string) : option (list string) :=
  if (length v =? 0)%nat then None else Some v.

(** The [while True] loop and what follows it; [fuel] as in [links_loop]. *)
Fixpoint redirects_loop (fuel : nat) (titles : list string) (project : string)
    (query : gmap string string) (output : gmap string (list string))
    (script : list MWX.response) (log : list event)
    : list MWX.response * list event * outcome (option redirects_dict) :=
  match fuel with
  | O => (script, log, Blocked)
  | S fuel =>
      let '(script, log, j) := reqMediaWikiX query project script log in
      match j with
      | Raise e => (script, log, Raise e)
      | Blocked => (script, log, Blocked)
      | Return j =>
          match MWX.query j with
          | None => (script, log, Return None)
          | Some q =>
              match redirects_titles (negb (bool_decide ("continue" ∈ dom query)))
                                     q titles output with
              | Raise e => (script, log, Raise e)
              | Blocked => (script, log, Blocked)
              | Return output =>
                  match MWX.continue j with
                  | Some c =>
                      redirects_loop fuel titles project (update query c) output
                                     script log
                  | None =>
                      (script, log, Return (Some (Dict (none_if_empty <$> output))))
                  end
              end
          end
      end
  end.

(** [m_Redirects] past the chunking test. *)
Definition redirects_direct (titles : list string) (project : string)
    (script : list MWX.response) (log : list event)
    : list MWX.response * list event * outcome (option redirects_dict) :=
  redirects_loop (S (length script)) titles project (redirects_query titles) ∅
                 script log.



End Redirects.

(** Replies for the examples of [m_Redirects]. *)
Module SampleRedirects.

Definition page (title : string) (missing : bool) (redirects : option (list string))
    : MWX.page :=
  {| MWX.title := title; MWX.index := None;
     MWX.invalid := false; MWX.missing := missing;
     MWX.props := None;
     MWX.redirects_here := redirects |}.

(** The reply to the titles ["Cervante"] and ["humanist"]. *)
Definition reply : MWX.response :=
  {| MWX.status_code := 200;
     MWX.body :=
       {| MWX.error := None;
          MWX.query :=
            Some {| MWX.normalized :=
                      Some [ {| MW.fromencoded := Some false;
                                MW.n_from := "humanist"; MW.n_to := "Humanist" |} ];
                    MWX.redirects :=
                      Some [ {| MW.r_from := "Humanist"; MW.r_to := "Humanism" |} ];
                    MWX.pages :=
                      Some [ page "Cervante" true None;
                             page "Humanism" false
                                  (Some ["Humanist"; "Humanists"]) ] |};
          MWX.continue := None |} |}.

End SampleRedirects.

(** * Properties *)

(** ** Deduplication *)

Section Dedup.
Local Open Scope list_scope.
Implicit Types (l keys : list string) (x y : string).

Lemma dedup_snoc l x : dedup (l ++ [x]) = fromkeys_insert (dedup l) x.
Proof. unfold dedup. by rewrite fold_left_app. Qed.

Lemma elem_of_fromkeys_insert keys (k : string) x :
  x ∈ fromkeys_insert keys k ↔ x ∈ keys ∨ x = k.
Proof.
  unfold fromkeys_insert. case_bool_decide as Hk.
  - split; [by left | intros [? | ->]; done].
  - rewrite elem_of_app, list_elem_of_singleton. done.
Qed.

Lemma NoDup_fromkeys_insert keys (k : string) : NoDup keys → NoDup (fromkeys_insert keys k).
Proof.
  intros Hnd. unfold fromkeys_insert. case_bool_decide as Hk; [done |].
  apply NoDup_app. split_and!; [done | | apply NoDup_singleton].
  intros y Hy ->%list_elem_of_singleton. done.
Qed.

Lemma elem_of_dedup l x : x ∈ dedup l ↔ x ∈ l.
Proof.
  induction l as [| a l IH] using rev_ind.
  - done.
  - rewrite dedup_snoc, elem_of_fromkeys_insert, IH, elem_of_app,
      list_elem_of_singleton. done.
Qed.

Lemma NoDup_dedup l : NoDup (dedup l).
Proof.
  induction l as [| a l IH] using rev_ind.
  - constructor.
  - rewrite dedup_snoc. by apply NoDup_fromkeys_insert.
Qed.

Lemma fold_fromkeys_NoDup l keys :
  NoDup (keys ++ l) → fold_left fromkeys_insert l keys = keys ++ l.
Proof.
  revert keys. induction l as [| a l IH]; intros keys Hnd; simpl.
  - by rewrite app_nil_r.
  - assert (Ha : a ∉ keys).
    { apply NoDup_app in Hnd as (_ & Hdisj & _).
      intros Hin. apply (Hdisj a Hin). left. }
    unfold fromkeys_insert at 2. rewrite bool_decide_eq_false_2 by done.
    rewrite IH; rewrite <- app_assoc; done.
Qed.

Lemma dedup_NoDup l : NoDup l → dedup l = l.
Proof. intros Hnd. unfold dedup. by rewrite fold_fromkeys_NoDup. Qed.

Lemma first_at_app_l l l' x i : first_at l x i → first_at (l ++ l') x i.
Proof.
  intros [Hi Hmin]. split.
  - by apply lookup_app_l_Some.
  - intros k Hk. rewrite lookup_app_l; [by apply Hmin |].
    apply lookup_lt_Some in Hi. lia.
Qed.

Lemma first_at_fresh l x : x ∉ l → first_at (l ++ [x]) x (length l).
Proof.
  intros Hx. split.
  - rewrite lookup_app_r by lia. by rewrite Nat.sub_diag.
  - intros k Hk Hlk. rewrite lookup_app_l in Hlk by done.
    apply Hx. eapply list_elem_of_lookup_2. done.
Qed.

Lemma dedup_first_at l i x :
  dedup l !! i = Some x → ∃ i', first_at l x i'.
Proof.
  revert i x. induction l as [| a l IH] using rev_ind; intros i x Hi.
  - done.
  - rewrite dedup_snoc in Hi. unfold fromkeys_insert in Hi.
    case_bool_decide as Ha.
    + destruct (IH _ _ Hi) as [i' Hi']. exists i'. by apply first_at_app_l.
    + apply lookup_app_Some in Hi as [Hi | [Hlen Hi]].
      * destruct (IH _ _ Hi) as [i' Hi']. exists i'. by apply first_at_app_l.
      * apply list_lookup_singleton_Some in Hi as [_ ->].
        exists (length l). apply first_at_fresh. by rewrite <- elem_of_dedup.
Qed.

Lemma dedup_order l i j x y :
  dedup l !! i = Some x → dedup l !! j = Some y → i < j →
  ∃ i' j', first_at l x i' ∧ first_at l y j' ∧ i' < j'.
Proof.
  revert i j x y. induction l as [| a l IH] using rev_ind; intros i j x y Hi Hj Hij.
  - done.
  - rewrite dedup_snoc in Hi, Hj. unfold fromkeys_insert in Hi, Hj.
    case_bool_decide as Ha.
    + destruct (IH _ _ _ _ Hi Hj Hij) as (i' & j' & Hx & Hy & Hlt).
      exists i', j'. split_and!; [by apply first_at_app_l.. | done].
    + apply lookup_app_Some in Hj as [Hj | [Hlen Hj]].
      * assert (Hi' : dedup l !! i = Some x).
        { apply lookup_app_Some in Hi as [? | [Hlen _]]; [done |].
          apply lookup_lt_Some in Hj. lia. }
        destruct (IH _ _ _ _ Hi' Hj Hij) as (i' & j' & Hx & Hy & Hlt).
        exists i', j'. split_and!; [by apply first_at_app_l.. | done].
      * apply list_lookup_singleton_Some in Hj as [Hj ->].
        assert (Hi' : dedup l !! i = Some x).
        { apply lookup_app_Some in Hi as [? | [Hlen' _]]; [done | lia]. }
        destruct (dedup_first_at _ _ _ Hi') as [i' Hx].
        exists i', (length l). split_and!.
        -- by apply first_at_app_l.
        -- apply first_at_fresh. by rewrite <- elem_of_dedup.
        -- destruct Hx as [Hx _]. by apply lookup_lt_Some in Hx.
Qed.

Lemma length_dedup l : (length (dedup l) ≤ length l)%nat.
Proof.
  induction l as [| a l IH] using rev_ind; [done |].
  rewrite dedup_snoc, length_app. unfold fromkeys_insert.
  case_bool_decide; [| rewrite length_app]; simpl; lia.
Qed.

End Dedup.

Example dedup_keeps_first_occurrences :
  dedup ["b"; "a"; "b"; "c"; "a"] = ["b"; "a"; "c"].
Proof. reflexivity. Qed.

(** C9. The deduplication of a work list ([list(dict.fromkeys(l))], applied
    by [checkEntities] and [checkTitles]) is idempotent, keeps every distinct
    element of the list exactly once, and lists the elements in the order of
    their first occurrence: when [x] stands before [y] in the result, the
    first occurrence of [x] in the input precedes the first occurrence of
    [y]. *)
Theorem dedup_idempotent_first_occurrence (l : list string) :
  dedup (dedup l) = dedup l
  ∧ NoDup (dedup l)
  ∧ (∀ x, x ∈ dedup l ↔ x ∈ l)
  ∧ (∀ i j x y, dedup l !! i = Some x → dedup l !! j = Some y →
       (i < j)%nat ↔
       ∃ i' j', first_at l x i' ∧ first_at l y j' ∧ (i' < j')%nat).
Proof.
  split_and!.
  - apply dedup_NoDup, NoDup_dedup.
  - apply NoDup_dedup.
  - apply elem_of_dedup.
  - intros i j x y Hi Hj. split; [by apply dedup_order |].
    intros (i' & j' & Hx & Hy & Hlt).
    destruct (decide (i < j)%nat) as [| Hge]; [done | exfalso].
    destruct (decide (i = j)) as [-> | Hne].
    + rewrite Hi in Hj. injection Hj as ->.
      destruct Hy as [_ Hmin]. destruct Hx as [Hx _]. by apply (Hmin i').
    + assert (Hji : (j < i)%nat) by lia.
      destruct (dedup_order _ _ _ _ _ Hj Hi Hji) as (j2 & i2 & Hy2 & Hx2 & Hlt2).
      assert (i' = i2).
      { destruct Hx as [Hx Hm], Hx2 as [Hx2 Hm2].
        destruct (Nat.lt_trichotomy i' i2) as [Hc | [Hc | Hc]]; [| done |].
        - by destruct (Hm2 _ Hc). - by destruct (Hm _ Hc). }
      assert (j' = j2).
      { destruct Hy as [Hy Hm], Hy2 as [Hy2 Hm2].
        destruct (Nat.lt_trichotomy j' j2) as [Hc | [Hc | Hc]]; [| done |].
        - by destruct (Hm2 _ Hc). - by destruct (Hm _ Hc). }
      lia.
Qed.

(** ** Validation *)

Section Validation.
Implicit Types (l : list string) (x y q : string).

Lemma elem_of_stripped l x :
  x ∈ stripped l ↔ ∃ y, y ∈ l ∧ Str.blank y = false ∧ x = Str.strip y.
Proof.
  unfold stripped. rewrite list_elem_of_fmap. split.
  - intros (y & -> & Hy). apply list_elem_of_filter in Hy as [Hb Hy]. eauto.
  - intros (y & Hy & Hb & ->). exists y. split; [done |].
    by apply list_elem_of_filter.
Qed.






Lemma length_stripped l : (length (stripped l) ≤ length l)%nat.
Proof. unfold stripped. rewrite length_map. apply length_filter. Qed.

Lemma checkTitles_length l titles :
  checkTitles (Many l) = Return titles → (length titles ≤ length l)%nat.
Proof.
  unfold checkTitles. simpl.
  destruct (length (stripped l) =? 0)%nat; [done |].
  destruct (first_forbidden (stripped l)) as [[t c] |]; [done |].
  intros [= <-]. etrans; [apply length_dedup | apply length_stripped].
Qed.

End Validation.




(** ** doChunks *)

Section DoChunksFacts.
Context {W V Row : Type}.
Local Open Scope list_scope.
Local Open Scope nat_scope.
Implicit Types (f : worker W V Row) (x : list string) (c k m n : nat) (w : W).
Implicit Types (log : list (call V Row)) (output : option (result V Row)).

Lemma slice_length x i j : length (slice x i j) = (j - i) `min` (length x - i).
Proof. unfold slice. by rewrite length_take, length_drop. Qed.

Lemma ceil_div_lt n c k : 1 ≤ c → k < ceil_div n c ↔ k * c < n.
Proof.
  intros Hc. unfold ceil_div. split.
  - intros Hk.
    assert (H1 : c * S k ≤ n + c - 1).
    { etrans; [| apply (Nat.Div0.mul_div_le _ c)].
      apply Nat.mul_le_mono_l. lia. }
    nia.
  - intros Hk. apply Nat.div_le_lower_bound; nia.
Qed.

Lemma ceil_div_range n c : 1 ≤ c → ceil_div n c ≤ n / c + 1.
Proof.
  intros Hc. destruct (decide (ceil_div n c ≤ n / c + 1)) as [| Hn]; [done |].
  assert (Hlt : n / c + 1 < ceil_div n c) by lia.
  apply ceil_div_lt in Hlt; [| done].
  pose proof (Nat.mul_succ_div_gt n c ltac:(lia)). nia.
Qed.

Lemma length_batches x c : length (batches x c) = ceil_div (length x) c.
Proof. unfold batches. by rewrite length_map, length_seq. Qed.

Lemma drop_batches x c k :
  drop k (batches x c)
  = map (fun k => slice x (k * c) ((k + 1) * c)) (seq k (ceil_div (length x) c - k)).
Proof. unfold batches. by rewrite skipn_map, skipn_seq. Qed.

Lemma lookup_batches x c k :
  k < ceil_div (length x) c →
  batches x c !! k = Some (slice x (k * c) ((k + 1) * c)).
Proof.
  intros Hk. unfold batches.
  change (map ?g ?l) with (g <$> l).
  rewrite list_lookup_fmap, lookup_seq_lt by done. done.
Qed.

Lemma batch_nonempty x c k :
  1 ≤ c → k < ceil_div (length x) c → slice x (k * c) ((k + 1) * c) ≠ [].
Proof.
  intros Hc Hk Hnil. apply ceil_div_lt in Hk; [| done].
  apply (f_equal length) in Hnil. rewrite slice_length in Hnil. simpl in Hnil. nia.
Qed.

(** The loop over [k] is the traversal of the batches. *)
Lemma doChunks_loop_over_batches f x c k m output w log :
  1 ≤ c → ceil_div (length x) c ≤ k + m →
  doChunks_loop f x c (seq k m) output w log
  = over_batches f c (k =? 0)%nat (drop k (batches x c)) output w log.
Proof.
  intros Hc. revert k output w log.
  induction m as [| m IH]; intros k output w log Hm.
  - simpl. rewrite drop_ge; [done |]. rewrite length_batches. lia.
  - simpl seq. simpl doChunks_loop.
    destruct (decide (k < ceil_div (length x) c)) as [Hk | Hk].
    + pose proof (batch_nonempty x c k Hc Hk) as Hne.
      rewrite drop_batches.
      replace (ceil_div (length x) c - k) with (S (ceil_div (length x) c - S k)) by lia.
      simpl seq. simpl map. rewrite <- drop_batches.
      replace (k * c + c) with ((k + 1) * c) by lia.
      destruct (slice x (k * c) ((k + 1) * c)) as [| a b] eqn:Hs; [done |].
      simpl length. simpl Nat.eqb. simpl over_batches.
      destruct (f (a :: b) c w) as [w' d].
      destruct d as [[d |] | e |]; [| done | done | done].
      destruct (k =? 0)%nat.
      * rewrite IH by lia. done.
      * destruct output as [o |]; [| done].
        destruct (merge o d); [| done | done].
        rewrite IH by lia. done.
    + rewrite drop_ge by (rewrite length_batches; lia). simpl.
      assert (Hlen : length (slice x (k * c) (k * c + c)) = 0).
      { rewrite slice_length.
        assert (¬ k * c < length x) by (by rewrite <- ceil_div_lt). lia. }
      rewrite Hlen. done.
Qed.

Lemma doChunks_over_batches f x c w :
  1 ≤ c →
  doChunks f x c w = over_batches f c true (batches x c) None w [].
Proof.
  intros Hc. unfold doChunks.
  destruct (c =? 0)%nat eqn:Hc0; [apply Nat.eqb_eq in Hc0; lia |].
  rewrite doChunks_loop_over_batches; [done | done |].
  pose proof (ceil_div_range (length x) c Hc). lia.
Qed.

Lemma batch_length x c b : b ∈ batches x c → length b ≤ c.
Proof.
  unfold batches. change (map ?g ?l) with (g <$> l).
  intros (k & -> & _)%list_elem_of_fmap. rewrite slice_length. lia.
Qed.

(** Workers that agree on the batches give the same run. *)
Lemma over_batches_ext f g c first bs output w log :
  (∀ b w, b ∈ bs → f b c w = g b c w) →
  over_batches f c first bs output w log = over_batches g c first bs output w log.
Proof.
  revert first output w log.
  induction bs as [| b bs IH]; intros first output w log Hfg; [done |].
  simpl. rewrite (Hfg b w) by left.
  assert (Hfg' : ∀ b' w', b' ∈ bs → f b' c w' = g b' c w').
  { intros b' w' Hb'. apply Hfg. by right. }
  destruct (g b c w) as [w' [[d |] | e |]]; [| done | done | done].
  destruct first; [by apply IH |].
  destruct output as [o |]; [| done].
  destruct (merge o d); [by apply IH | done | done].
Qed.

Lemma doChunks_ext f g x c w :
  (∀ b w, length b ≤ c → f b c w = g b c w) →
  doChunks f x c w = doChunks g x c w.
Proof.
  intros Hfg. destruct (decide (c = 0)) as [-> | Hc]; [done |].
  rewrite !doChunks_over_batches by lia.
  apply over_batches_ext. intros b w' Hb. apply Hfg. by apply (batch_length x).
Qed.

Lemma log_of_run_stop b bs (d r : outcome (option (result V Row))) :
  (∃ d', d = Return (Some d')) ∨ r = d →
  r = Return None ∨ (∃ e, r = Raise e) ∨ r = Blocked →
  log_of_run (b :: bs) [(b, d)] r.
Proof.
  intros Hd Hr. split_and!.
  - simpl. by apply prefix_cons, prefix_nil.
  - intros [| i] b0 d0 Hi Hlen; simpl in *; lia.
  - by intros b0 d0 [= <- <-].
  - by right.
Qed.

Lemma log_of_run_step b bs (d' : result V Row) calls r :
  log_of_run bs calls r → log_of_run (b :: bs) ((b, Return (Some d')) :: calls) r.
Proof.
  intros (Hpre & Hmid & Hlast & Hall). split_and!.
  - simpl. by apply prefix_cons.
  - intros [| i] b0 d0 Hi Hlen; simpl in *.
    + injection Hi as <- <-. eauto.
    + apply (Hmid i b0 d0 Hi). lia.
  - intros b0 d0 Hl. destruct calls as [| c0 calls].
    + injection Hl as <- <-. left. eauto.
    + apply (Hlast b0 d0). by rewrite last_cons_cons in Hl.
  - destruct Hall as [<- | Hr]; [by left | by right].
Qed.

Lemma over_batches_log f c first bs output w log :
  ∀ w' log' r, over_batches f c first bs output w log = (w', log', r) →
  ∃ calls, log' = log ++ calls ∧ log_of_run bs calls r.
Proof.
  revert first output w log.
  induction bs as [| b bs IH]; intros first output w log w' log' r Hrun.
  - simpl in Hrun. injection Hrun as <- <- <-.
    exists []. rewrite app_nil_r. split; [done |].
    split_and!; [done | | | by left]; by intros.
  - simpl in Hrun. destruct (f b c w) as [w1 d] eqn:Hf.
    assert (Hrec : ∀ d' o, d = Return (Some d') →
              over_batches f c false bs (Some o) w1 (log ++ [(b, d)]) = (w', log', r) →
              ∃ calls, log' = log ++ calls ∧ log_of_run (b :: bs) calls r).
    { intros d' o -> Hrest. destruct (IH _ _ _ _ _ _ _ Hrest) as (calls & -> & Hlog).
      exists ((b, Return (Some d')) :: calls). split.
      - by rewrite <- app_assoc.
      - by apply log_of_run_step. }
    destruct d as [[d' |] | e |].
    + destruct first; [by apply (Hrec d' d') |].
      destruct output as [o |].
      * destruct (merge o d') as [o' | e |] eqn:Hm; [by apply (Hrec d' o') | |];
          injection Hrun as <- <- <-; eexists; (split; [done |]);
          apply log_of_run_stop; eauto.
      * injection Hrun as <- <- <-. eexists. split; [done |].
        apply log_of_run_stop; eauto.
    + injection Hrun as <- <- <-. eexists. split; [done |].
      apply log_of_run_stop; eauto.
    + injection Hrun as <- <- <-. eexists. split; [done |].
      apply log_of_run_stop; eauto.
    + injection Hrun as <- <- <-. eexists. split; [done |].
      apply log_of_run_stop; eauto.
Qed.

(** *** Merging *)

Lemma lookup_update (o d : gmap string V) (key : string) :
  update o d !! key = match d !! key with Some v => Some v | None => o !! key end.
Proof.
  unfold update. destruct (d !! key) as [v |] eqn:Hd.
  - by apply lookup_union_Some_l.
  - by rewrite lookup_union_r.
Qed.


Lemma merge_other_shape (o d : result V Row) :
  shape_of o ≠ shape_of d → ∃ e, merge o d = Raise e.
Proof.
  destruct o as [om | [om | orows] o1 | orows], d as [dm | [dm | drows] d1 | drows];
    simpl; intros Hs; try done; eauto.
Qed.


(** Frames: the rows of the batches, in batch order. *)
Lemma over_batches_frames f c (rows : list string → list Row) bs :
  (∀ b w, (f b c w).2 = Return (Some (Frame (rows b)))) →
  ∀ acc w log, ∃ w' log',
    over_batches f c false bs (Some (Frame acc)) w log
    = (w', log', Return (Some (Frame (acc ++ concat (map rows bs))))).
Proof.
  intros Hf. induction bs as [| b bs IH]; intros acc w log.
  - simpl. rewrite app_nil_r. eauto.
  - simpl. pose proof (Hf b w) as Hb. destruct (f b c w) as [w1 d]. simpl in Hb.
    subst d. simpl. unfold concat_frames.
    destruct (IH (acc ++ rows b) w1 (log ++ [(b, Return (Some (Frame (rows b))))]))
      as (w' & log' & ->).
    rewrite <- app_assoc. eauto.
Qed.

(** Mappings: the batches' mappings, each written over the earlier ones. *)
Lemma over_batches_dicts f c (dict_of : list string → gmap string V) bs :
  (∀ b w, (f b c w).2 = Return (Some (Dict (dict_of b)))) →
  ∀ acc w log, ∃ w' log',
    over_batches f c false bs (Some (Dict acc)) w log
    = (w', log', Return (Some (Dict (fold_left update (map dict_of bs) acc)))).
Proof.
  intros Hf. induction bs as [| b bs IH]; intros acc w log.
  - simpl. eauto.
  - simpl. pose proof (Hf b w) as Hb. destruct (f b c w) as [w1 d]. simpl in Hb.
    subst d. simpl.
    destruct (IH (update acc (dict_of b)) w1
                 (log ++ [(b, Return (Some (Dict (dict_of b))))]))
      as (w' & log' & ->).
    eauto.
Qed.

Lemma lookup_fold_update (ms : list (gmap string V)) (acc : gmap string V)
    (key : string) (v : V) :
  fold_left update ms acc !! key = Some v
  ↔ (∃ i (d : gmap string V), ms !! i = Some d ∧ d !! key = Some v
            ∧ ∀ j (d' : gmap string V), i < j → ms !! j = Some d' → d' !! key = None)
    ∨ (acc !! key = Some v
       ∧ ∀ j (d' : gmap string V), ms !! j = Some d' → d' !! key = None).
Proof.
  induction ms as [| m ms IH] using rev_ind.
  - simpl. split; [intros H; right; by split | intros [(i & m & Hi & _) | [H _]]; done].
  - rewrite fold_left_app. simpl. rewrite lookup_update.
    destruct (m !! key) as [v' |] eqn:Hm.
    + split.
      * intros [= ->]. left. exists (length ms), m. split_and!.
        -- by rewrite lookup_app_r, Nat.sub_diag by lia.
        -- done.
        -- intros j m' Hj Hm'. apply lookup_lt_Some in Hm'.
           rewrite length_app in Hm'. simpl in Hm'. lia.
      * intros [(i & m0 & Hi & Hv & Hlater) | [_ Hnone]].
        -- destruct (decide (i = length ms)) as [-> | Hne].
           ++ rewrite lookup_app_r, Nat.sub_diag in Hi by lia. simpl in Hi. congruence.
           ++ assert (Hlt : i < length ms).
              { apply lookup_lt_Some in Hi. rewrite length_app in Hi. simpl in Hi. lia. }
              specialize (Hlater (length ms) m Hlt).
              rewrite lookup_app_r, Nat.sub_diag in Hlater by lia.
              specialize (Hlater eq_refl). congruence.
        -- specialize (Hnone (length ms) m).
           rewrite lookup_app_r, Nat.sub_diag in Hnone by lia.
           specialize (Hnone eq_refl). congruence.
    + rewrite IH. split.
      * intros [(i & m0 & Hi & Hv & Hlater) | [Hacc Hnone]].
        -- left. exists i, m0. split_and!; [by apply lookup_app_l_Some | done |].
           intros j m' Hj Hm'. apply lookup_app_Some in Hm' as [Hm' | [_ Hm']].
           ++ by apply (Hlater j).
           ++ apply list_lookup_singleton_Some in Hm' as [_ <-]. done.
        -- right. split; [done |]. intros j m' Hm'.
           apply lookup_app_Some in Hm' as [Hm' | [_ Hm']].
           ++ by apply (Hnone j).
           ++ apply list_lookup_singleton_Some in Hm' as [_ <-]. done.
      * intros [(i & m0 & Hi & Hv & Hlater) | [Hacc Hnone]].
        -- left. apply lookup_app_Some in Hi as [Hi | [_ Hi]].
           ++ exists i, m0. split_and!; [done | done |].
              intros j m' Hj Hm'. apply (Hlater j); [done |]. by apply lookup_app_l_Some.
           ++ apply list_lookup_singleton_Some in Hi as [_ <-]. congruence.
        -- right. split; [done |]. intros j m' Hm'. apply (Hnone j).
           by apply lookup_app_l_Some.
Qed.

End DoChunksFacts.



(** The scenario of the specification: three identifiers and chunk size 2
    give two invocations, on [["Q1"; "Q2"]] and [["Q3"]], and an aggregate
    keyed by the three identifiers. *)
Example doChunks_three_ids_chunk_two :
  ∃ w' log m,
    doChunks Sample.numbering ["Q1"; "Q2"; "Q3"] 2 0%nat = (w', log, Return (Some (Dict m)))
    ∧ map fst log = [["Q1"; "Q2"]; ["Q3"]]
    ∧ w' = 2%nat
    ∧ m !! "Q1" = Some 1%nat ∧ m !! "Q2" = Some 1%nat ∧ m !! "Q3" = Some 2%nat.
Proof. eexists _, _, _. split; [reflexivity |]. split_and!; reflexivity. Qed.

(** The empty work list: no invocation, and [output] is unbound at the
    [return]. *)
Example doChunks_empty_list :
  doChunks Sample.numbering [] 2 0%nat = (0%nat, [], Raise (UnboundLocalError "output")).
Proof. reflexivity. Qed.

(** C5. When a worker invocation returns [None], [doChunks] returns [None]
    at once: that invocation is the last in the log, so the worker is
    invoked on no further batch; the invocations before it are those of the
    preceding batches, each of which had returned a result, and nothing of
    what they returned is in the outcome. *)
Theorem doChunks_returns_None_on_first_None {W V Row : Type}
    (f : worker W V Row) (x : list string) (c : nat) (w : W) :
  ∀ w' log r, doChunks f x c w = (w', log, r) →
  ∀ i b, log !! i = Some (b, Return None) →
    r = Return None
    ∧ length log = S i
    ∧ map fst log = take (S i) (batches x c)
    ∧ (∀ j, (j < i)%nat → ∃ b' d', log !! j = Some (b', Return (Some d'))).
Proof.
  intros w' log r Hrun i b Hi.
  destruct (decide (c = 0)) as [-> | Hc].
  { unfold doChunks in Hrun. simpl in Hrun. injection Hrun as <- <- <-. done. }
  rewrite doChunks_over_batches in Hrun by lia.
  destruct (over_batches_log _ _ _ _ _ _ _ _ _ _ Hrun)
    as (calls & Hlog & Hpre & Hmid & Hlast & _).
  simpl in Hlog. subst calls.
  assert (Hlen : length log = S i).
  { pose proof (lookup_lt_Some _ _ _ Hi) as Hlt.
    destruct (decide (S i < length log)%nat) as [Hlt' | Hge];
      [| unfold call in *; lia].
    destruct (Hmid _ _ _ Hi Hlt') as [d' Hd']. done. }
  split_and!.
  - assert (Hl : last log = Some (b, Return None)).
    { rewrite last_lookup, Hlen. done. }
    destruct (Hlast _ _ Hl) as [[d' Hd'] | ->]; done.
  - done.
  - destruct Hpre as [rest Hrest]. rewrite Hrest.
    rewrite take_app_length'; [done |]. by rewrite length_map.
  - intros j Hj.
    destruct (lookup_lt_is_Some_2 log j) as [[b' d] Hjd]; [lia |].
    destruct (Hmid _ _ _ Hjd) as [d' ->]; [lia |]. eauto.
Qed.

Lemma doChunks_returns_None_witness :
  doChunks Sample.refusing ["Q1"; "Q2"; "Q3"; "Q4"; "Q5"] 2 0%nat
  = (2%nat,
     [(["Q1"; "Q2"], Return (Some (Dict {[ "Q1" := 1%nat; "Q2" := 1%nat ]})));
      (["Q3"; "Q4"], Return None)],
     Return None)
  ∧ Return (A := option (result nat unit)) None = Return None
  ∧ length [(["Q1"; "Q2"], Return (Some (Dict {[ "Q1" := 1%nat; "Q2" := 1%nat ]})));
            (["Q3"; "Q4"], Return (A := option (result nat unit)) None)] = 2%nat
  ∧ map fst [(["Q1"; "Q2"], Return (Some (Dict {[ "Q1" := 1%nat; "Q2" := 1%nat ]})));
             (["Q3"; "Q4"], Return (A := option (result nat unit)) None)]
    = take 2 (batches ["Q1"; "Q2"; "Q3"; "Q4"; "Q5"] 2)
  ∧ (∀ j, (j < 1)%nat → ∃ b' d',
       [(["Q1"; "Q2"], Return (Some (Dict {[ "Q1" := 1%nat; "Q2" := 1%nat ]})));
        (["Q3"; "Q4"], Return (A := option (result nat unit)) None)] !! j
       = Some (b', Return (Some d'))).
Proof.
  assert (Hrun : doChunks Sample.refusing ["Q1"; "Q2"; "Q3"; "Q4"; "Q5"] 2 0%nat
                 = (2%nat,
                    [(["Q1"; "Q2"],
                      Return (Some (Dict {[ "Q1" := 1%nat; "Q2" := 1%nat ]})));
                     (["Q3"; "Q4"], Return None)],
                    Return None)) by reflexivity.
  split; [exact Hrun |].
  exact (doChunks_returns_None_on_first_None _ _ _ _ _ _ _ Hrun 1%nat ["Q3"; "Q4"]
           eq_refl).
Defined.

(** C6. [doChunks] merges the result of each later batch into the aggregate
    by shape.  Mappings: union on keys, the later batch's value winning.
    Data frames: the rows of the later batch are appended.  Tuples: the
    second components (mappings) are united in the same way, and the first
    components are united or appended according to whether they are
    mappings or data frames.  Over a whole run, a worker that returns
    mappings yields the mapping in which every key has the value of the last
    batch that holds it, and a worker that returns data frames yields the
    rows of all batches in batch order. *)
Theorem doChunks_merges_by_shape {W V Row : Type} :
  (∀ o d : gmap string V,
     ∃ m, merge (Row := Row) (Dict o) (Dict d) = Return (Dict m)
          ∧ ∀ key, m !! key = match d !! key with Some v => Some v | None => o !! key end)
  ∧ (∀ o d : list Row,
       merge (V := V) (Frame o) (Frame d) = Return (Frame (o ++ d)%list))
  ∧ (∀ (o0 d0 o1 d1 : gmap string V),
       ∃ m0 m1,
         merge (Row := Row) (Tuple (PDict o0) o1) (Tuple (PDict d0) d1)
         = Return (Tuple (PDict m0) m1)
         ∧ (∀ key, m0 !! key = match d0 !! key with Some v => Some v | None => o0 !! key end)
         ∧ (∀ key, m1 !! key = match d1 !! key with Some v => Some v | None => o1 !! key end))
  ∧ (∀ (o0 d0 : list Row) (o1 d1 : gmap string V),
       ∃ m1,
         merge (Tuple (PFrame o0) o1) (Tuple (PFrame d0) d1)
         = Return (Tuple (PFrame (o0 ++ d0)%list) m1)
         ∧ (∀ key, m1 !! key = match d1 !! key with Some v => Some v | None => o1 !! key end))
  ∧ (∀ (f : worker W V Row) (x : list string) (c : nat) (w : W)
       (dict_of : list string → gmap string V),
       (1 ≤ c)%nat → x ≠ [] →
       (∀ b w, (f b c w).2 = Return (Some (Dict (dict_of b)))) →
       ∃ w' log m,
         doChunks f x c w = (w', log, Return (Some (Dict m)))
         ∧ ∀ key v,
             m !! key = Some v ↔
             ∃ i b, batches x c !! i = Some b ∧ dict_of b !! key = Some v
                    ∧ ∀ j b', (i < j)%nat → batches x c !! j = Some b' →
                              dict_of b' !! key = None)
  ∧ (∀ (f : worker W V Row) (x : list string) (c : nat) (w : W)
       (rows : list string → list Row),
       (1 ≤ c)%nat → x ≠ [] →
       (∀ b w, (f b c w).2 = Return (Some (Frame (rows b)))) →
       ∃ w' log,
         doChunks f x c w
         = (w', log, Return (Some (Frame (concat (map rows (batches x c))))))).
Proof.
  assert (Hbs : ∀ (x : list string) c, (1 ≤ c)%nat → x ≠ [] →
            ∃ b bs, batches x c = b :: bs).
  { intros x c Hc Hx. destruct (batches x c) as [| b bs] eqn:Hb; [| by eauto].
    apply (f_equal length) in Hb. rewrite length_batches in Hb. simpl in Hb.
    assert (Hlt : (0 < ceil_div (length x) c)%nat).
    { apply ceil_div_lt; [done |]. destruct x; [done | simpl; lia]. }
    lia. }
  split_and!.
  - intros o d. eexists. split; [done |]. intros key. apply lookup_update.
  - done.
  - intros o0 d0 o1 d1. eexists _, _. split; [done |].
    split; intros key; apply lookup_update.
  - intros o0 d0 o1 d1. eexists. split; [done |]. intros key. apply lookup_update.
  - intros f x c w dict_of Hc Hx Hf.
    assert (Hrun : ∃ w' log,
              doChunks f x c w
              = (w', log,
                 Return (Some (Dict (fold_left update (dict_of <$> batches x c) ∅))))).
    { destruct (Hbs x c Hc Hx) as (b & bs & Hb).
      rewrite doChunks_over_batches by done. rewrite Hb. simpl.
      pose proof (Hf b w) as Hfb. destruct (f b c w) as [w1 d]. simpl in Hfb. subst d.
      destruct (over_batches_dicts f c dict_of bs Hf (dict_of b) w1
                  [(b, Return (Some (Dict (dict_of b))))]) as (w' & log' & ->).
      unfold update at 3. rewrite (right_id_L ∅ (∪)). eauto. }
    destruct Hrun as (w' & log & ->). eexists _, _, _. split; [done |].
    intros key v. rewrite lookup_fold_update. split.
    + intros [(i & d & Hi & Hd & Hlater) | [Hacc _]]; [| done].
      apply list_lookup_fmap_Some in Hi as (bi & -> & Hbi).
      exists i, bi. split_and!; [done | done |].
      intros j b' Hj Hb'. apply (Hlater j); [done |].
      rewrite list_lookup_fmap, Hb'. done.
    + intros (i & bi & Hbi & Hd & Hlater). left.
      exists i, (dict_of bi). split_and!.
      * rewrite list_lookup_fmap, Hbi. done.
      * done.
      * intros j d' Hj Hd'.
        apply list_lookup_fmap_Some in Hd' as (bj & -> & Hbj).
        by apply (Hlater j).
  - intros f x c w rows Hc Hx Hf.
    destruct (Hbs x c Hc Hx) as (b & bs & Hb).
    rewrite doChunks_over_batches by done. rewrite Hb. simpl.
    pose proof (Hf b w) as Hfb. destruct (f b c w) as [w1 d]. simpl in Hfb. subst d.
    destruct (over_batches_frames f c rows bs Hf (rows b) w1
                [(b, Return (Some (Frame (rows b))))]) as (w' & log' & ->).
    eauto.
Qed.

Lemma doChunks_merges_witness :
  ∃ w' log,
    doChunks Sample.listing ["Q1"; "Q2"; "Q3"] 2 0%nat
    = (w', log,
       Return (Some (Frame (concat (map (fun b => b) (batches ["Q1"; "Q2"; "Q3"] 2)))))).
Proof.
  apply (proj2 (proj2 (proj2 (proj2 (proj2
           (doChunks_merges_by_shape (W := nat) (V := unit) (Row := string))))))
           Sample.listing ["Q1"; "Q2"; "Q3"] 2 0%nat (fun b => b)).
  - lia.
  - done.
  - done.
Defined.

(** ** Strings *)

Lemma append_assoc (a b c : string) : (a ++ b) ++ c = a ++ b ++ c.
Proof.
  induction a as [| ch a IH]; [done |].
  change (String ch ((a ++ b) ++ c) = String ch (a ++ b ++ c)). by f_equal.
Qed.

(** ** reqWDQS *)

Section ReqWDQSFacts.
Import WDQS.
Variable http2time : string → option Z.
Implicit Types (x : exchange) (script rest : list exchange) (log : list event).

Lemma wdqs_format_of_cases format wf :
  wdqs_format_of format = Return wf →
  (format = "json" ∧ wf = "application/sparql-results+json")
  ∨ (format = "xml" ∧ wf = "application/sparql-results+xml")
  ∨ (format = "csv" ∧ wf = "text/csv").
Proof.
  unfold wdqs_format_of.
  destruct (String.eqb format "json") eqn:Hj.
  { apply String.eqb_eq in Hj. intros [= <-]. by left. }
  destruct (String.eqb format "xml") eqn:Hx.
  { apply String.eqb_eq in Hx. intros [= <-]. right. by left. }
  destruct (String.eqb format "csv") eqn:Hc.
  { apply String.eqb_eq in Hc. intros [= <-]. right. by right. }
  done.
Qed.

Lemma decode_spec format wf (response : response) rtype :
  wdqs_format_of format = Return wf →
  content_type response = Some rtype →
  decode format response
  = if String.prefix wf rtype then Return (represent format (text response))
    else Raise (ValueError ("reqWDQS() format '" ++ format ++ "' or response type '"
                            ++ rtype ++ "' is incorrect")).
Proof.
  intros Hwf Hct. unfold decode. rewrite Hct.
  destruct (wdqs_format_of_cases _ _ Hwf) as [[-> ->] | [[-> ->] | [-> ->]]];
    simpl; by destruct (String.prefix _ rtype).
Qed.

(** A reply that is not a 429 ends the loop. *)
Lemma reqWDQS_loop_final q (m : method) format wf x rest log :
  (m = GET ∨ m = POST) →
  status_code (reply x) ≠ 429%Z →
  reqWDQS_loop http2time q m format wf (x :: rest) log
  = (rest, (log ++ [Request m url {[ "query" := q ]} (Some wf)])%list,
     _ <- raise_for_status (status_code (reply x)) ;; decode format (reply x)).
Proof.
  intros [-> | ->] Hs; simpl;
    (destruct (Z.eqb_spec (status_code (reply x)) 429); [done |]); done.
Qed.

(** A 429 reply whose wait is between 0 and 600 seconds: the code sleeps
    that long and sends the same request again. *)
Lemma reqWDQS_loop_retry q (m : method) format wf x rest log t s :
  (m = GET ∨ m = POST) →
  status_code (reply x) = 429%Z →
  retry_after (reply x) = Some t →
  retry_wait http2time t (clock x) = Return s →
  (0 ≤ s ≤ 600)%Z →
  reqWDQS_loop http2time q m format wf (x :: rest) log
  = reqWDQS_loop http2time q m format wf rest
      (log ++ [Request m url {[ "query" := q ]} (Some wf); Sleep s])%list.
Proof.
  intros Hm Hs Ht Hw Hrange.
  assert (H1 : (600 <? s)%Z = false) by (apply Z.ltb_ge; lia).
  assert (H2 : (s <? 0)%Z = false) by (apply Z.ltb_ge; lia).
  destruct Hm as [-> | ->]; simpl; rewrite Hs, Ht, Hw, H1, H2; simpl;
    by rewrite <- app_assoc.
Qed.

(** A 429 reply whose wait exceeds 600 seconds: the code raises, and does
    not sleep. *)
Lemma reqWDQS_loop_long_wait q (m : method) format wf x rest log t s :
  (m = GET ∨ m = POST) →
  status_code (reply x) = 429%Z →
  retry_after (reply x) = Some t →
  retry_wait http2time t (clock x) = Return s →
  (600 < s)%Z →
  ∃ e, reqWDQS_loop http2time q m format wf (x :: rest) log
       = (rest, (log ++ [Request m url {[ "query" := q ]} (Some wf)])%list, Raise e).
Proof.
  intros Hm Hs Ht Hw Hrange.
  assert (H1 : (600 <? s)%Z = true) by (apply Z.ltb_lt; lia).
  destruct Hm as [-> | ->]; simpl; rewrite Hs, Ht, Hw, H1; eauto.
Qed.

(** A 429 reply whose wait is negative: [sleep] raises, nothing is retried. *)
Lemma reqWDQS_loop_negative_wait q (m : method) format wf x rest log t s :
  (m = GET ∨ m = POST) →
  status_code (reply x) = 429%Z →
  retry_after (reply x) = Some t →
  retry_wait http2time t (clock x) = Return s →
  (s < 0)%Z →
  reqWDQS_loop http2time q m format wf (x :: rest) log
  = (rest, (log ++ [Request m url {[ "query" := q ]} (Some wf)])%list,
     Raise (ValueError "sleep length must be non-negative")).
Proof.
  intros Hm Hs Ht Hw Hrange.
  assert (H1 : (600 <? s)%Z = false) by (apply Z.ltb_ge; lia).
  assert (H2 : (s <? 0)%Z = true) by (apply Z.ltb_lt; lia).
  destruct Hm as [-> | ->]; simpl; rewrite Hs, Ht, Hw, H1, H2; done.
Qed.

(** Any number of 429 replies, each with a wait between 0 and 600 seconds,
    is retried: there is no bound on the number of retries. *)
Lemma reqWDQS_loop_retries q (m : method) format wf (xs : list (exchange * Z)) rest log :
  (m = GET ∨ m = POST) →
  Forall (fun '(x, s) =>
            status_code (reply x) = 429%Z
            ∧ (∃ t, retry_after (reply x) = Some t
                    ∧ retry_wait http2time t (clock x) = Return s)
            ∧ (0 ≤ s ≤ 600)%Z) xs →
  reqWDQS_loop http2time q m format wf (map fst xs ++ rest)%list log
  = reqWDQS_loop http2time q m format wf rest
      (log ++ flat_map (fun '(x, s) =>
                          [Request m url {[ "query" := q ]} (Some wf); Sleep s]) xs)%list.
Proof.
  intros Hm Hxs. revert log.
  induction Hxs as [| [x s] xs (Hs & (t & Ht & Hw) & Hr) _ IH]; intros log.
  - simpl. by rewrite app_nil_r.
  - simpl map. simpl app.
    rewrite (reqWDQS_loop_retry q m format wf x _ log t s) by done.
    rewrite IH. simpl flat_map. by rewrite <- app_assoc.
Qed.

End ReqWDQSFacts.

(** C8. On a reply with a 2xx status whose [Content-Type] does not start
    with the media type of the format asked for (json, xml or csv),
    [reqWDQS] raises a [ValueError] whose message contains both the format
    and the content type received; when it does, the body is returned in the
    representation asked for.  One request has been sent in both cases. *)
Theorem reqWDQS_checks_content_type (http2time : string → option Z)
    (q : string) (m : method) (format wf rtype : string)
    (x : WDQS.exchange) (rest : list WDQS.exchange) (log : list event) :
  (m = GET ∨ m = POST) →
  wdqs_format_of format = Return wf →
  (200 ≤ WDQS.status_code (WDQS.reply x) < 300)%Z →
  WDQS.content_type (WDQS.reply x) = Some rtype →
  (String.prefix wf rtype = true →
     reqWDQS http2time q m format (x :: rest) log
     = (rest, (log ++ [Request m WDQS.url {[ "query" := q ]} (Some wf)])%list,
        Return (represent format (WDQS.text (WDQS.reply x)))))
  ∧ (String.prefix wf rtype = false →
       ∃ msg,
         reqWDQS http2time q m format (x :: rest) log
         = (rest, (log ++ [Request m WDQS.url {[ "query" := q ]} (Some wf)])%list,
            Raise (ValueError msg))
         ∧ Str.occurs_in format msg ∧ Str.occurs_in rtype msg)
  ∧ (format = "json" ∧ represent format = WDQS.Json
     ∨ format = "xml" ∧ represent format = WDQS.Text
     ∨ format = "csv" ∧ represent format = WDQS.Csv).
Proof.
  intros Hm Hwf Hs Hct.
  assert (Hrun : reqWDQS http2time q m format (x :: rest) log
                 = (rest, (log ++ [Request m WDQS.url {[ "query" := q ]} (Some wf)])%list,
                    if String.prefix wf rtype
                    then Return (represent format (WDQS.text (WDQS.reply x)))
                    else Raise (ValueError
                                  ("reqWDQS() format '" ++ format
                                   ++ "' or response type '" ++ rtype
                                   ++ "' is incorrect")))).
  { unfold reqWDQS. rewrite Hwf. rewrite reqWDQS_loop_final by (done || lia).
    unfold raise_for_status.
    replace ((400 <=? _) && _)%Z with false
      by (symmetry; apply andb_false_iff; left; apply Z.leb_gt; lia).
    simpl. by rewrite (decode_spec _ _ _ _ Hwf Hct). }
  split_and!.
  - intros Hp. by rewrite Hrun, Hp.
  - intros Hp. rewrite Hrun, Hp. eexists. split; [done |].
    split.
    + by exists "reqWDQS() format '", ("' or response type '" ++ rtype ++ "' is incorrect").
    + exists ("reqWDQS() format '" ++ format ++ "' or response type '"),
        "' is incorrect".
      by rewrite !append_assoc.
  - destruct (wdqs_format_of_cases _ _ Hwf) as [[-> ->] | [[-> ->] | [-> ->]]]; eauto.
Qed.

Lemma reqWDQS_checks_content_type_witness :
  reqWDQS SampleWDQS.http2time "SELECT ?x WHERE {}" GET "csv"
          [SampleWDQS.ok "text/csv; charset=utf-8" "x"] []
  = ([], [Request GET WDQS.url {[ "query" := "SELECT ?x WHERE {}" ]} (Some "text/csv")],
     Return (WDQS.Csv "x")).
Proof.
  apply (proj1 (reqWDQS_checks_content_type SampleWDQS.http2time "SELECT ?x WHERE {}"
                  GET "csv" "text/csv" "text/csv; charset=utf-8"
                  (SampleWDQS.ok "text/csv; charset=utf-8" "x") [] []
                  (or_introl eq_refl) eq_refl ltac:(simpl; lia) eq_refl)).
  reflexivity.
Defined.

Example reqWDQS_html_for_csv :
  ∃ msg,
    reqWDQS SampleWDQS.http2time "SELECT ?x WHERE {}" GET "csv"
            [SampleWDQS.ok "text/html" "<html>"] []
    = ([], [Request GET WDQS.url {[ "query" := "SELECT ?x WHERE {}" ]} (Some "text/csv")],
       Raise (ValueError msg))
    ∧ msg = "reqWDQS() format 'csv' or response type 'text/html' is incorrect".
Proof. eexists. split; reflexivity. Qed.

(** C4 (the code at two inputs).  A 429 reply whose [Retry-After] is an HTTP
    date five seconds in the past gives a negative wait: [sleep] raises a
    [ValueError], and the request is not sent again although a good reply
    was to follow.  A 429 reply whose [Retry-After] is ["700"] reaches
    [raise("ERROR: ...")], which raises a [TypeError], a [str] not being an
    exception.  A [Retry-After] of ["120"] is slept and retried. *)
Theorem reqWDQS_retry_after_past_date_and_long_wait :
  reqWDQS SampleWDQS.http2time "SELECT ?x WHERE {}" GET "json"
          [SampleWDQS.too_many "Wed, 21 Oct 2015 07:28:00 GMT" 1445412485;
           SampleWDQS.ok "application/sparql-results+json" "{}"] []
  = ([SampleWDQS.ok "application/sparql-results+json" "{}"],
     [Request GET WDQS.url {[ "query" := "SELECT ?x WHERE {}" ]}
              (Some "application/sparql-results+json")],
     Raise (ValueError "sleep length must be non-negative"))
  ∧ reqWDQS SampleWDQS.http2time "SELECT ?x WHERE {}" GET "json"
            [SampleWDQS.too_many "700" 0;
             SampleWDQS.ok "application/sparql-results+json" "{}"] []
    = ([SampleWDQS.ok "application/sparql-results+json" "{}"],
       [Request GET WDQS.url {[ "query" := "SELECT ?x WHERE {}" ]}
                (Some "application/sparql-results+json")],
       Raise (TypeError "exceptions must derive from BaseException"))
  ∧ reqWDQS SampleWDQS.http2time "SELECT ?x WHERE {}" GET "json"
            [SampleWDQS.too_many "120" 0;
             SampleWDQS.ok "application/sparql-results+json" "{}"] []
    = ([],
       [Request GET WDQS.url {[ "query" := "SELECT ?x WHERE {}" ]}
                (Some "application/sparql-results+json");
        Sleep 120;
        Request GET WDQS.url {[ "query" := "SELECT ?x WHERE {}" ]}
                (Some "application/sparql-results+json")],
       Return (WDQS.Json "{}")).
Proof. split_and!; reflexivity. Qed.

(** The wait computed from [Retry-After]: an integer is a number of
    seconds, a date is the time left until it. *)
Example retry_wait_integer_and_date :
  retry_wait SampleWDQS.http2time "120" 1445412360 = Return 120%Z
  ∧ retry_wait SampleWDQS.http2time "Wed, 21 Oct 2015 07:28:00 GMT" 1445412360
    = Return 120%Z.
Proof. split; reflexivity. Qed.

(** ** reqMediaWiki *)

Section ReqMediaWikiFacts.
Implicit Types (query : gmap string string) (url : string) (m : method).
Implicit Types (r : MW.response) (rl rest : list MW.response) (log : list event).

Lemma retries_S m url query k :
  retries m url query (S k)
  = (retries m url query k
     ++ [Request m url query None; Sleep (60 * Z.of_nat (S k))])%list.
Proof.
  unfold retries. by rewrite seq_S, flat_map_app.
Qed.

Lemma reqMediaWiki_loop_limited query url m attempts nt r rest log :
  (m = GET ∨ m = POST) → ratelimited r → (Z.of_nat (S nt) ≤ attempts)%Z →
  reqMediaWiki_loop query url m attempts nt (r :: rest) log
  = reqMediaWiki_loop query url m attempts (S nt) rest
      (log ++ [Request m url query None; Sleep (60 * Z.of_nat (S nt))])%list.
Proof.
  intros Hm (Hst & err & Herr & Hcode) Hle.
  assert (Hleb : (Z.of_nat (S nt) <=? attempts)%Z = true) by (apply Z.leb_le; lia).
  destruct Hm as [-> | ->]; cbn [reqMediaWiki_loop];
    rewrite Hst, Herr, Hcode, Hleb; simpl; by rewrite <- app_assoc.
Qed.

Lemma reqMediaWiki_loop_retries query url m attempts rl :
  (m = GET ∨ m = POST) → Forall ratelimited rl →
  ∀ nt rest log,
    (rl = [] ∨ Z.of_nat (nt + length rl) ≤ attempts)%Z →
    reqMediaWiki_loop query url m attempts nt (rl ++ rest)%list log
    = reqMediaWiki_loop query url m attempts (nt + length rl) rest
        (log ++ flat_map (fun n => [Request m url query None; Sleep (60 * Z.of_nat n)])
                         (seq (S nt) (length rl)))%list.
Proof.
  intros Hm Hrl. induction Hrl as [| r rl Hr _ IH]; intros nt rest log Hle.
  - simpl. by rewrite Nat.add_0_r, app_nil_r.
  - destruct Hle as [| Hle]; [done |]. simpl length in *.
    simpl app. rewrite reqMediaWiki_loop_limited by (done || lia).
    rewrite IH by (right; lia).
    replace (S nt + length rl)%nat with (nt + S (length rl))%nat by lia.
    simpl seq. simpl flat_map. by rewrite <- app_assoc.
Qed.

Lemma reqMediaWiki_loop_last query url m attempts nt r rest log :
  (m = GET ∨ m = POST) → raise_for_status (MW.status_code r) = Return tt →
  reqMediaWiki_loop query url m attempts nt (r :: rest) log
  = match MW.error (MW.body r) with
    | None => (rest, (log ++ [Request m url query None])%list, Return (MW.body r))
    | Some err =>
        if String.eqb (MW.code err) "ratelimited" then
          if (Z.of_nat (S nt) <=? attempts)%Z then
            reqMediaWiki_loop query url m attempts (S nt) rest
              (log ++ [Request m url query None; Sleep (60 * Z.of_nat (S nt))])%list
          else
            (rest, (log ++ [Request m url query None])%list,
             Raise (NameError (str_of_nat (S nt)
                               ++ " ratelimited attemps achieved, aborting.")))
        else
          (rest, (log ++ [Request m url query None])%list,
           Raise (NameError ("ERROR: reqMediaWiki: " ++ MW.code err ++ ": "
                             ++ MW.info err)))
    end.
Proof.
  intros Hm Hst.
  destruct Hm as [-> | ->]; cbn [reqMediaWiki_loop]; rewrite Hst;
    destruct (MW.error (MW.body r)) as [err |]; [| done | | done];
    destruct (String.eqb (MW.code err) "ratelimited"); [| done | | done];
    destruct (Z.of_nat (S nt) <=? attempts)%Z; [| done | | done];
    by rewrite <- app_assoc.
Qed.

(** After the rate-limited replies [rl] the loop is at its
    [(length rl + 1)]-th request. *)
Lemma reqMediaWiki_after_retries query project m attempts rl r rest log :
  (m = GET ∨ m = POST) →
  String.eqb (Str.strip project) "" = false →
  sendable query →
  Forall ratelimited rl →
  (rl = [] ∨ Z.of_nat (length rl) ≤ attempts)%Z →
  reqMediaWiki query project m attempts (rl ++ r :: rest)%list log
  = reqMediaWiki_loop query ("https://" ++ project ++ "/w/api.php") m attempts
      (length rl) (r :: rest)
      (log ++ retries m ("https://" ++ project ++ "/w/api.php") query (length rl))%list.
Proof.
  intros Hm Hproj Htitles Hrl Hle.
  unfold reqMediaWiki. rewrite Hproj.
  assert (Hlim : match query !! "titles" with
                 | Some titles => (MW.MW_LIMIT <? MW.split_count titles)%nat
                 | None => false
                 end = false).
  { destruct (query !! "titles") as [titles |] eqn:Ht; [| done].
    apply Nat.ltb_ge. by apply Htitles. }
  rewrite Hlim.
  assert (Hle' : (rl = [] ∨ Z.of_nat (0 + length rl) ≤ attempts)%Z)
    by (destruct Hle; [by left | right; simpl; lia]).
  by rewrite (reqMediaWiki_loop_retries query _ m attempts rl Hm Hrl 0 _ log Hle').
Qed.

(** A call that returns has taken at least one reply. *)
Lemma reqMediaWiki_loop_takes_reply query url m attempts rest :
  ∀ nt log rest' log' j,
    reqMediaWiki_loop query url m attempts nt rest log = (rest', log', Return j) →
    (length rest' < length rest)%nat.
Proof.
  induction rest as [| r rest IH]; intros nt log rest' log' j Hrun.
  - destruct m; simpl in Hrun; done.
  - destruct m; cbn [reqMediaWiki_loop] in Hrun; [| | done];
      (destruct (raise_for_status (MW.status_code r)); [| done | done]);
      (destruct (MW.error (MW.body r)) as [err |];
       [| injection Hrun as <- _ _; simpl; lia]);
      (destruct (String.eqb (MW.code err) "ratelimited"); [| done]);
      (destruct (Z.of_nat (S nt) <=? attempts)%Z; [| done]);
      apply IH in Hrun; simpl; lia.
Qed.

Lemma reqMediaWiki_takes_reply query project m attempts rest log rest' log' j :
  reqMediaWiki query project m attempts rest log = (rest', log', Return j) →
  (length rest' < length rest)%nat.
Proof.
  unfold reqMediaWiki. destruct (String.eqb (Str.strip project) ""); [done |].
  destruct (match query !! "titles" with
            | Some titles => (MW.MW_LIMIT <? MW.split_count titles)%nat
            | None => false
            end); [done |].
  apply reqMediaWiki_loop_takes_reply.
Qed.

End ReqMediaWikiFacts.

(** C10. [reqMediaWiki] retries a request only on the JSON error code
    ["ratelimited"], and at most [attempts] times: after [k <= attempts]
    rate-limited replies the log holds [k] retries, the [n]-th one preceded
    by a sleep of [60*n] seconds, and the next reply decides the outcome.  A
    reply without error is returned.  One more rate-limited reply when [k]
    retries exhaust [attempts] raises a [NameError] and is not followed by a
    sleep or a request.  Any other error code raises a [NameError] at once. *)
Theorem reqMediaWiki_retries_ratelimited_at_most_attempts
    (query : gmap string string) (project : string) (m : method) (attempts : Z)
    (rl : list MW.response) (r : MW.response) (rest : list MW.response)
    (log : list event) :
  (m = GET ∨ m = POST) →
  String.eqb (Str.strip project) "" = false →
  sendable query →
  Forall ratelimited rl →
  (rl = [] ∨ Z.of_nat (length rl) ≤ attempts)%Z →
  raise_for_status (MW.status_code r) = Return tt →
  let url := "https://" ++ project ++ "/w/api.php" in
  let log' := (log ++ retries m url query (length rl)
                   ++ [Request m url query None])%list in
  (MW.error (MW.body r) = None →
     reqMediaWiki query project m attempts (rl ++ r :: rest)%list log
     = (rest, log', Return (MW.body r)))
  ∧ (∀ err, MW.error (MW.body r) = Some err → MW.code err = "ratelimited" →
       (attempts < Z.of_nat (S (length rl)))%Z →
       reqMediaWiki query project m attempts (rl ++ r :: rest)%list log
       = (rest, log',
          Raise (NameError (str_of_nat (S (length rl))
                            ++ " ratelimited attemps achieved, aborting."))))
  ∧ (∀ err, MW.error (MW.body r) = Some err → MW.code err ≠ "ratelimited" →
       reqMediaWiki query project m attempts (rl ++ r :: rest)%list log
       = (rest, log',
          Raise (NameError ("ERROR: reqMediaWiki: " ++ MW.code err ++ ": "
                            ++ MW.info err)))).
Proof.
  intros Hm Hproj Htitles Hrl Hle Hst url log'.
  pose proof (reqMediaWiki_after_retries query project m attempts rl r rest log
                Hm Hproj Htitles Hrl Hle) as Hrun.
  fold url in Hrun.
  rewrite Hrun, reqMediaWiki_loop_last by done.
  subst log'. rewrite app_assoc.
  split_and!.
  - by intros ->.
  - intros err -> Hcode Hgt. rewrite Hcode. simpl String.eqb.
    assert (Hleb : (Z.of_nat (S (length rl)) <=? attempts)%Z = false)
      by (apply Z.leb_gt; lia).
    by rewrite Hleb.
  - intros err -> Hcode.
    destruct (String.eqb_spec (MW.code err) "ratelimited"); done.
Qed.

Lemma reqMediaWiki_retries_witness :
  reqMediaWiki (links_query ["Max Planck"]) "en.wikipedia.org" GET default_attempts
               [SampleMW.limited; SampleMW.limited; SampleMW.limited;
                SampleMW.empty_page] []
  = ([SampleMW.empty_page],
     [Request GET "https://en.wikipedia.org/w/api.php" (links_query ["Max Planck"]) None;
      Sleep 60;
      Request GET "https://en.wikipedia.org/w/api.php" (links_query ["Max Planck"]) None;
      Sleep 120;
      Request GET "https://en.wikipedia.org/w/api.php" (links_query ["Max Planck"]) None],
     Raise (NameError "3 ratelimited attemps achieved, aborting.")).
Proof.
  pose proof (reqMediaWiki_retries_ratelimited_at_most_attempts
                (links_query ["Max Planck"]) "en.wikipedia.org" GET default_attempts
                [SampleMW.limited; SampleMW.limited] SampleMW.limited
                [SampleMW.empty_page] []) as H.
  apply H with (err := {| MW.code := "ratelimited";
                          MW.info := "You've exceeded your rate limit." |}).
  - by left.
  - reflexivity.
  - intros titles Ht. vm_compute in Ht. injection Ht as <-. vm_compute. lia.
  - repeat constructor; eexists; split; reflexivity.
  - right. vm_compute. discriminate.
  - reflexivity.
  - reflexivity.
  - reflexivity.
  - reflexivity.
Defined.

(** ** normalizedTitle *)

Section NormalizedTitleFacts.
Variable quote : string → string.
Implicit Types (nn : MW.norm_entry) (cur title : string).

Lemma redirect_loop_Some anorm (rs : list MW.redirect) t :
  redirect_loop anorm rs = Some t
  ↔ ∃ l1 e l2, rs = (l1 ++ e :: l2)%list ∧ MW.r_from e = anorm ∧ MW.r_to e = t
               ∧ Forall (fun e' => MW.r_from e' ≠ anorm) l1.
Proof.
  induction rs as [| e rs IH]; simpl.
  - split; [done |]. intros (l1 & e & l2 & Hl & _). by destruct l1.
  - destruct (String.eqb_spec (MW.r_from e) anorm) as [He | He].
    + split.
      * intros [= <-]. by exists [], e, rs.
      * intros (l1 & e' & l2 & Hl & Hfrom & Hto & Hall).
        destruct l1 as [| e0 l1]; simpl in Hl; injection Hl as -> ->; [by rewrite Hto |].
        by apply Forall_cons_1 in Hall as [Hne _].
    + rewrite IH. split.
      * intros (l1 & e' & l2 & -> & Hfrom & Hto & Hall).
        exists (e :: l1), e', l2. split_and!; [done | done | done |].
        by apply Forall_cons.
      * intros (l1 & e' & l2 & Hl & Hfrom & Hto & Hall).
        destruct l1 as [| e0 l1]; simpl in Hl; injection Hl as -> ->; [done |].
        apply Forall_cons_1 in Hall as [_ Hall]. by exists l1, e', l2.
Qed.


End NormalizedTitleFacts.


(** The example of the documentation of [m_WikidataEntity]: "a" with a
    combining caron is normalized through its encoded entry and redirected
    to ["Caron"]. *)
Example normalizedTitle_caron :
  SampleTitle.quote SampleTitle.a_caron = "a%CC%8C"
  ∧ normalizedTitle SampleTitle.quote SampleTitle.a_caron SampleTitle.caron_query
    = (Some SampleTitle.A_caron, Some "Caron")
  ∧ resolved SampleTitle.quote SampleTitle.a_caron SampleTitle.caron_query = "Caron".
Proof. split_and!; reflexivity. Qed.

(** The scan is a single pass: an entry that comes before the one that
    rewrites the value is not looked at again. *)
Example normalizedTitle_single_pass :
  normalizedTitle SampleTitle.quote "x y" SampleTitle.unordered_query = (Some "X", None).
Proof. reflexivity. Qed.

(** ** Ordered dictionaries *)

Section ODictFacts.
Context {A : Type}.
Implicit Types (d : odict A) (k : string) (v : A).

Lemma dict_get_set_eq k v d : dict_get k (dict_set k v d) = Some v.
Proof.
  induction d as [| [k' v'] d IH]; simpl.
  - by rewrite String.eqb_refl.
  - destruct (String.eqb_spec k k') as [-> | Hne]; simpl.
    + by rewrite String.eqb_refl.
    + destruct (String.eqb_spec k k'); done.
Qed.

Lemma dict_get_set_ne k k' v d :
  k ≠ k' → dict_get k' (dict_set k v d) = dict_get k' d.
Proof.
  intros Hne. induction d as [| [k0 v0] d IH]; simpl.
  - destruct (String.eqb_spec k' k); [congruence | done].
  - destruct (String.eqb_spec k k0) as [-> | Hne0]; simpl.
    + destruct (String.eqb_spec k' k0); [congruence | done].
    + destruct (String.eqb_spec k' k0); done.
Qed.

End ODictFacts.

(** ** The continuation loop of m_PageOutLinks *)

Section PageOutLinksFacts.
Variable quote : string → string.
Implicit Types (title : string) (q : MW.query_part) (page : MW.page).
Implicit Types (output : odict links_row) (row : links_row).
Local Open Scope list_scope.

Lemma absorb_pages_hits first title normalized target anorm (pages : list MW.page) output :
  absorb_pages first title normalized target anorm pages output
  = absorb_hits first title normalized target
      (List.filter (fun page => String.eqb anorm (MW.title page)) pages) output.
Proof.
  revert output. induction pages as [| page pages IH]; intros output; [done |].
  simpl. destruct (String.eqb anorm (MW.title page)); simpl.
  - destruct (absorb_page first title normalized target page output); simpl; done.
  - apply IH.
Qed.

Lemma absorb_title_hits first q title output (pages : list MW.page) :
  MW.pages q = Some pages →
  absorb_title quote first q title output
  = absorb_hits first title (normalizedTitle quote title q).1
      (normalizedTitle quote title q).2 (hits quote title q) output.
Proof.
  intros Hp. unfold absorb_title, hits, pages_of. rewrite Hp. simpl.
  destruct (normalizedTitle quote title q) as [n t] eqn:Hn. simpl.
  apply absorb_pages_hits.
Qed.

(** Pages without links leave the accumulator as it is. *)
Lemma absorb_hits_no_links title normalized target (hs : list MW.page) output :
  (∀ page, page ∈ hs → MW.links page = None) →
  absorb_hits false title normalized target hs output = Return output.
Proof.
  induction hs as [| page hs IH]; intros Hno; [done |].
  simpl. unfold absorb_page. rewrite (Hno page) by left. simpl.
  apply IH. intros p Hp. apply Hno. by right.
Qed.

(** On a later page the links of the pages are appended to the row. *)
Lemma absorb_hits_later title normalized target (hs : list MW.page) :
  ∀ output row old,
    dict_get title output = Some row → row_links row = Some old →
    ∃ output',
      absorb_hits false title normalized target hs output = Return output'
      ∧ dict_get title output'
        = Some (extended row old
                  (concat (map (fun page => default [] (MW.links page)) hs)))
      ∧ ∀ k, k ≠ title → dict_get k output' = dict_get k output.
Proof.
  induction hs as [| page hs IH]; intros output row old Hrow Hold.
  - exists output. split_and!; [done | | done].
    rewrite Hrow. unfold extended. simpl. rewrite Nat.add_0_r, app_nil_r.
    destruct row. simpl in *. by rewrite Hold.
  - simpl. unfold absorb_page at 1.
    destruct (MW.links page) as [ls |] eqn:Hls; simpl.
    + rewrite Hrow, Hold. simpl.
      destruct (IH (dict_set title (extended row old ls) output)
                   (extended row old ls) (old ++ ls))
        as (output' & Hrun & Hget & Hframe).
      { apply dict_get_set_eq. }
      { done. }
      exists output'. split_and!; [done | |].
      * rewrite Hget. unfold extended. simpl.
        rewrite length_app, Nat.add_assoc, <- app_assoc. done.
      * intros k Hk. rewrite Hframe by done. by apply dict_get_set_ne.
    + destruct (IH output row old Hrow Hold) as (output' & Hrun & Hget & Hframe).
      exists output'. split_and!; done.
Qed.

Lemma hits_links_cases title q :
  lists_links quote title q
  ∨ (∀ page, page ∈ hits quote title q → MW.links page = None).
Proof.
  unfold lists_links. induction (hits quote title q) as [| page hs IH].
  - right. intros page Hp. by apply elem_of_nil in Hp.
  - destruct (MW.links page) as [ls |] eqn:Hls.
    + left. exists page. split; [left | by rewrite Hls].
    + destruct IH as [(p & Hp & Hl) | Hno].
      * left. exists p. split; [by right | done].
      * right. intros p Hp. apply elem_of_cons in Hp as [-> | Hp]; [done | by apply Hno].
Qed.

Lemma links_of_no_links title q :
  (∀ page, page ∈ hits quote title q → MW.links page = None) →
  links_of quote title q = [].
Proof.
  unfold links_of. induction (hits quote title q) as [| page hs IH]; intros Hno; [done |].
  simpl. rewrite (Hno page) by left. simpl. apply IH.
  intros p Hp. apply Hno. by right.
Qed.

(** The rows of the titles are independent: if each title, absorbed into an
    accumulator that holds for it what [output] holds, gets the row [F
    title] and leaves the other rows alone, then absorbing all titles gives
    every title its row. *)
Lemma absorb_pointwise first q (titles : list string) output
    (F : string → option links_row) :
  NoDup titles →
  (∀ title output0, title ∈ titles →
     dict_get title output0 = dict_get title output →
     ∃ output1,
       absorb_title quote first q title output0 = Return output1
       ∧ dict_get title output1 = F title
       ∧ ∀ k, k ≠ title → dict_get k output1 = dict_get k output0) →
  ∃ output',
    absorb quote first q titles output = Return output'
    ∧ (∀ title, title ∈ titles → dict_get title output' = F title)
    ∧ (∀ k, k ∉ titles → dict_get k output' = dict_get k output).
Proof.
  intros Hnd. revert output.
  induction Hnd as [| title titles Hnotin Hnd IH]; intros output Hstep.
  - exists output. split_and!; [done | | done].
    intros title Ht. by apply elem_of_nil in Ht.
  - simpl.
    destruct (Hstep title output) as (output1 & -> & Hget & Hframe); [left | done |].
    simpl.
    destruct (IH output1) as (output' & Hrun & Hin & Hout).
    { intros t output0 Ht Hsame. apply Hstep; [by right |].
      rewrite Hsame. apply Hframe. intros ->. done. }
    exists output'. split_and!; [done | |].
    + intros t Ht. apply elem_of_cons in Ht as [-> | Ht].
      * rewrite Hout by done. done.
      * by apply Hin.
    + intros k Hk. apply not_elem_of_cons in Hk as [Hne Hk].
      rewrite Hout by done. by apply Hframe.
Qed.

(** The first page. *)
Lemma absorb_title_first q1 (qs : list MW.query_part) (titles : list string)
    title output :
  regular quote titles q1 qs → title ∈ titles →
  dict_get title output = None →
  ∃ output1,
    absorb_title quote true q1 title output = Return output1
    ∧ dict_get title output1 = union_row quote title q1 []
    ∧ ∀ k, k ≠ title → dict_get k output1 = dict_get k output.
Proof.
  intros (Hpages & Hone & Hok) Ht Hnone.
  destruct (Hpages q1) as [pages Hp]; [left |].
  rewrite (absorb_title_hits _ _ _ _ _ Hp).
  unfold union_row, links_of. simpl concat.
  specialize (Hone title Ht).
  destruct (hits quote title q1) as [| page [| page' hs]] eqn:Hhits;
    [| | simpl in Hone; lia].
  - exists output. simpl. done.
  - simpl. unfold absorb_page.
    destruct (MW.links page) as [ls |] eqn:Hls.
    + destruct (Hok title q1 Ht) as (p & Hp1 & Hstatus); [left | |].
      { exists page. rewrite Hhits. split; [left | by rewrite Hls]. }
      rewrite Hhits in Hp1. injection Hp1 as <-.
      rewrite dict_get_set_eq, Hstatus. simpl.
      eexists. split; [done |]. split.
      * rewrite dict_get_set_eq. rewrite !app_nil_r. done.
      * intros k Hk. rewrite !dict_get_set_ne by done. done.
    + eexists. split; [done |]. split.
      * rewrite dict_get_set_eq. simpl. done.
      * intros k Hk. by rewrite dict_get_set_ne.
Qed.

(** A later page. *)
Lemma absorb_title_later q1 (done_ : list MW.query_part) q (titles : list string)
    title output :
  regular quote titles q1 (done_ ++ [q]) → title ∈ titles →
  dict_get title output = union_row quote title q1 done_ →
  ∃ output1,
    absorb_title quote false q title output = Return output1
    ∧ dict_get title output1 = union_row quote title q1 (done_ ++ [q])
    ∧ ∀ k, k ≠ title → dict_get k output1 = dict_get k output.
Proof.
  intros (Hpages & Hone & Hok) Ht Hrow.
  destruct (Hpages q) as [pages Hp].
  { right. apply elem_of_app. right. left. }
  rewrite (absorb_title_hits _ _ _ _ _ Hp).
  assert (Hall : concat (map (links_of quote title) (q1 :: done_ ++ [q]))
                 = concat (map (links_of quote title) (q1 :: done_))
                   ++ links_of quote title q).
  { rewrite app_comm_cons, map_app, concat_app. simpl. by rewrite app_nil_r. }
  destruct (hits_links_cases title q) as [Hl | Hno].
  - destruct (Hok title q Ht) as (p & Hp1 & Hstatus); [| done |].
    { right. apply elem_of_app. right. left. }
    unfold union_row in Hrow |- *. rewrite Hp1 in Hrow |- *.
    rewrite Hstatus in Hrow |- *. simpl String.eqb in Hrow |- *. cbv iota in Hrow |- *.
    destruct (absorb_hits_later title (normalizedTitle quote title q).1
                (normalizedTitle quote title q).2 (hits quote title q)
                output _ _ Hrow eq_refl) as (output1 & Hrun & Hget & Hframe).
    exists output1. split_and!; [done | | done].
    rewrite Hget. unfold extended. simpl row_status. simpl row_normalized.
    simpl row_target. simpl row_nlinks. fold (links_of quote title q).
    rewrite Hall. simpl. rewrite !length_app. done.
  - rewrite absorb_hits_no_links by done.
    exists output. split_and!; [done | | done].
    rewrite Hrow. unfold union_row. rewrite Hall.
    rewrite (links_of_no_links _ _ Hno), app_nil_r. done.
Qed.

(** The accumulator after all pages holds, for every title, the union of
    its records. *)
Lemma absorb_seq_later q1 (titles : list string) :
  NoDup titles →
  ∀ (qs done_ : list MW.query_part) output,
    regular quote titles q1 (done_ ++ qs) →
    (∀ title, title ∈ titles → dict_get title output = union_row quote title q1 done_) →
    ∃ output',
      absorb_seq quote false qs titles output = Return output'
      ∧ (∀ title, title ∈ titles →
           dict_get title output' = union_row quote title q1 (done_ ++ qs))
      ∧ (∀ k, k ∉ titles → dict_get k output' = dict_get k output).
Proof.
  intros Hnd qs. induction qs as [| q qs IH]; intros done_ output Hreg Hinv.
  - exists output. rewrite app_nil_r. done.
  - simpl.
    assert (Hreg1 : regular quote titles q1 (done_ ++ [q])).
    { destruct Hreg as (Hp & Hone & Hok). split_and!; [| done |].
      - intros q' Hq'. apply Hp. rewrite (cons_middle q done_ qs), app_assoc.
        rewrite app_comm_cons. apply elem_of_app. by left.
      - intros t q' Ht Hq'. apply Hok; [done |].
        rewrite (cons_middle q done_ qs), app_assoc.
        rewrite app_comm_cons. apply elem_of_app. by left. }
    destruct (absorb_pointwise false q titles output
                (fun t => union_row quote t q1 (done_ ++ [q])) Hnd)
      as (output1 & -> & Hin & Hout).
    { intros t output0 Ht Hsame. apply (absorb_title_later q1 done_ q titles); [done.. |].
      rewrite Hsame. by apply Hinv. }
    simpl.
    destruct (IH (done_ ++ [q]) output1) as (output' & Hrun & Hin' & Hout').
    { by rewrite <- app_assoc. }
    { done. }
    exists output'. rewrite <- app_assoc in Hin'. split_and!; [done | done |].
    intros k Hk. rewrite Hout' by done. by apply Hout.
Qed.

Lemma absorb_seq_union q1 (qs : list MW.query_part) (titles : list string) :
  NoDup titles → regular quote titles q1 qs →
  ∃ output,
    absorb_seq quote true (q1 :: qs) titles [] = Return output
    ∧ (∀ title, title ∈ titles → dict_get title output = union_row quote title q1 qs)
    ∧ (∀ k, k ∉ titles → dict_get k output = None).
Proof.
  intros Hnd Hreg. simpl.
  destruct (absorb_pointwise true q1 titles []
              (fun t => union_row quote t q1 []) Hnd)
    as (output1 & -> & Hin & Hout).
  { intros t output0 Ht Hsame. by apply (absorb_title_first q1 qs titles). }
  simpl.
  destruct (absorb_seq_later q1 titles Hnd qs [] output1) as (output' & Hrun & Hin' & Hout');
    [done | done |].
  exists output'. split_and!; [done | done |].
  intros k Hk. rewrite Hout' by done. by rewrite Hout.
Qed.

(** *** The loop *)

Lemma reqMediaWiki_page (query : gmap string string) project attempts
    (r : MW.response) q (rest : list MW.response) (log : list event) :
  String.eqb (Str.strip project) "" = false →
  sendable query → raise_for_status (MW.status_code r) = Return tt →
  MW.error (MW.body r) = None →
  reqMediaWiki query project GET attempts (r :: rest) log
  = (rest, log ++ [Request GET ("https://" ++ project ++ "/w/api.php") query None],
     Return (MW.body r)).
Proof.
  intros Hproj Hsend Hst Herr.
  pose proof (reqMediaWiki_after_retries query project GET attempts [] r rest log)
    as Hrun.
  change ([] ++ r :: rest) with (r :: rest) in Hrun.
  rewrite Hrun; [| by left | done | done | done | by left].
  rewrite reqMediaWiki_loop_last; [| by left | done].
  rewrite Herr. unfold retries. simpl. by rewrite app_nil_r.
Qed.

Lemma links_query_first (titles : list string) :
  bool_decide ("continue" ∈ dom (links_query titles)) = false.
Proof.
  apply bool_decide_eq_false. apply not_elem_of_dom. reflexivity.
Qed.

Lemma update_has_continue (query c : gmap string string) :
  "continue" ∈ dom c → bool_decide ("continue" ∈ dom (update query c)) = true.
Proof.
  intros Hc. apply bool_decide_eq_true. unfold update. rewrite dom_union. set_solver.
Qed.

(** A reply without a ["query"] part ends the loop with [None]. *)
Lemma links_loop_no_query fuel (titles : list string) project
    (query : gmap string string) output (r : MW.response) rest log :
  String.eqb (Str.strip project) "" = false →
  sendable query → raise_for_status (MW.status_code r) = Return tt →
  MW.error (MW.body r) = None → MW.query (MW.body r) = None →
  links_loop quote (S fuel) titles project query output (r :: rest) log
  = (rest, log ++ requests project query [r], Return None).
Proof.
  intros Hproj Hsend Hst Herr Hq. cbn [links_loop].
  rewrite (reqMediaWiki_page _ _ _ r {| MW.normalized := None; MW.redirects := None;
                                       MW.pages := None |}) by done.
  by rewrite Hq.
Qed.

(** A page without a token ends the loop with the accumulator. *)
Lemma links_loop_last fuel (titles : list string) project
    (query : gmap string string) output o (r : MW.response) q rest log :
  String.eqb (Str.strip project) "" = false →
  sendable query → is_page r q → MW.continue (MW.body r) = None →
  absorb quote (negb (bool_decide ("continue" ∈ dom query))) q titles output = Return o →
  links_loop quote (S fuel) titles project query output (r :: rest) log
  = (rest, log ++ requests project query [r], Return (Some (Frame o))).
Proof.
  intros Hproj Hsend (Hst & Herr & Hq) Hc Habs. cbn [links_loop].
  rewrite (reqMediaWiki_page _ _ _ r q) by done.
  by rewrite Hq, Habs, Hc.
Qed.

(** Pages with tokens: one request each, the token merged into the
    parameters of the next. *)
Lemma links_loop_continuing (titles : list string) project (rs : list MW.response) :
  String.eqb (Str.strip project) "" = false →
  ∀ fuel (query : gmap string string) output o rest log,
    continuing query rs →
    absorb_seq quote (negb (bool_decide ("continue" ∈ dom query))) (parts rs)
               titles output = Return o →
    links_loop quote (length rs + fuel) titles project query output (rs ++ rest) log
    = links_loop quote fuel titles project (after query rs) o rest
        (log ++ requests project query rs)
    ∧ (rs ≠ [] → bool_decide ("continue" ∈ dom (after query rs)) = true).
Proof.
  intros Hproj. induction rs as [| r rs IH]; intros fuel query output o rest log Hcont Habs.
  - simpl in *. injection Habs as <-. unfold requests. simpl. by rewrite app_nil_r.
  - destruct Hcont as (Hsend & (q & Hst & Herr & Hq) & c & Hc & Hdom & Hcont).
    unfold parts in Habs. simpl in Habs. rewrite Hq in Habs. simpl in Habs.
    fold (parts rs) in Habs.
    destruct (absorb quote _ q titles output) as [o1 | |] eqn:Ho1; [| done | done].
    simpl in Habs.
    pose proof (update_has_continue query c Hdom) as Hnext.
    destruct (IH fuel (update query c) o1 o rest
                 (log ++ [Request GET ("https://" ++ project ++ "/w/api.php") query None]))
      as [Hloop Hdom'].
    { done. }
    { by rewrite Hnext. }
    split.
    + simpl length. simpl app. cbn [Nat.add links_loop].
      rewrite (reqMediaWiki_page _ _ _ r q) by done.
      rewrite Hq, Ho1, Hc. rewrite Hloop. simpl after. rewrite Hc.
      unfold requests. simpl queries. rewrite Hc. simpl map.
      by rewrite <- app_assoc.
    + intros _. simpl after. rewrite Hc. destruct rs as [| r' rs']; [done |].
      by apply Hdom'.
Qed.

Lemma queries_app (query : gmap string string) (rs rs' : list MW.response) :
  queries query (rs ++ rs') = queries query rs ++ queries (after query rs) rs'.
Proof.
  revert query. induction rs as [| r rs IH]; intros query; [done |].
  simpl. by rewrite IH.
Qed.

Lemma length_queries (query : gmap string string) (rs : list MW.response) :
  length (queries query rs) = length rs.
Proof. revert query. induction rs as [| r rs IH]; intros query; simpl; [done | by rewrite IH]. Qed.

(** The parameters of each request are those of the request before it with
    the fields of the token written over them. *)
Lemma queries_chain (query : gmap string string) (rs : list MW.response) :
  ∀ i (qi : gmap string string) (ri : MW.response) c,
    queries query rs !! i = Some qi → rs !! i = Some ri →
    MW.continue (MW.body ri) = Some c → S i < length rs →
    queries query rs !! S i = Some (update qi c).
Proof.
  revert query. induction rs as [| r rs IH]; intros query i qi ri c Hqi Hri Hc Hlen.
  - done.
  - destruct i as [| i]; simpl in *.
    + injection Hqi as <-. injection Hri as <-. rewrite Hc.
      destruct rs as [| r' rs']; simpl in *; [lia | done].
    + apply (IH _ i qi ri c); [done | done | done | lia].
Qed.

Lemma absorb_seq_snoc first (l : list MW.query_part) q (titles : list string) output :
  absorb_seq quote first (l ++ [q]) titles output
  = (o <- absorb_seq quote first l titles output ;;
     absorb quote (match l with [] => first | _ => false end) q titles o).
Proof.
  revert first output. induction l as [| a l IH]; intros first output; simpl.
  - by destruct (absorb quote first q titles output).
  - destruct (absorb quote first a titles output) as [o1 | |]; simpl; [| done | done].
    rewrite IH. by destruct l.
Qed.

Lemma parts_continuing (query : gmap string string) (rs : list MW.response) :
  continuing query rs → length (parts rs) = length rs.
Proof.
  revert query. induction rs as [| r rs IH]; intros query Hc; [done |].
  destruct Hc as (_ & (q & _ & _ & Hq) & c & _ & _ & Hc).
  unfold parts. simpl. rewrite Hq. simpl. f_equal. by apply (IH (update query c)).
Qed.

Lemma parts_snoc (rs : list MW.response) (r : MW.response) q :
  MW.query (MW.body r) = Some q → parts (rs ++ [r]) = parts rs ++ [q].
Proof. intros Hq. unfold parts. rewrite omap_app. simpl. by rewrite Hq. Qed.

(** The bound on the iterations plays no part: every iteration takes a
    reply, so any bound above the number of replies gives the same run. *)
Lemma links_loop_fuel (titles : list string) project :
  ∀ fuel1 fuel2 (query : gmap string string) output (script : list MW.response) log,
    (length script < fuel1)%nat → (length script < fuel2)%nat →
    links_loop quote fuel1 titles project query output script log
    = links_loop quote fuel2 titles project query output script log.
Proof.
  induction fuel1 as [| fuel1 IH]; intros fuel2 query output script log H1 H2; [lia |].
  destruct fuel2 as [| fuel2]; [lia |].
  cbn [links_loop].
  destruct (reqMediaWiki query project GET default_attempts script log)
    as [[script' log'] [j | e |]] eqn:Hreq; [| done | done].
  apply reqMediaWiki_takes_reply in Hreq.
  destruct (MW.query j) as [q |]; [| done].
  destruct (absorb quote _ q titles output) as [o | |]; [| done | done].
  destruct (MW.continue j) as [c |]; [| done].
  apply IH; lia.
Qed.

(** The depth of recursion plays no part beyond one level: the batches
    [doChunks] passes are no longer than [chunksize], so the worker's own
    call goes to the loop without chunking again. *)
Lemma m_PageOutLinks_batch depth (b : list string) project chunksize
    (script : list MW.response) (log : list event) :
  (length b ≤ chunksize)%nat →
  m_PageOutLinks quote depth (Many b) project chunksize script log
  = match checkTitles (Many b) with
    | Return titles => links_direct quote titles project script log
    | Raise e => (script, log, Raise e)
    | Blocked => (script, log, Blocked)
    end.
Proof.
  intros Hb.
  assert (Hdirect : ∀ titles, checkTitles (Many b) = Return titles →
            (chunksize <? length titles)%nat = false).
  { intros titles Ht. apply checkTitles_length in Ht. apply Nat.ltb_ge. lia. }
  destruct depth; simpl; destruct (checkTitles (Many b)) as [titles | e |] eqn:Hck;
    try done; by rewrite (Hdirect titles eq_refl).
Qed.

Lemma m_PageOutLinks_depth depth1 depth2 (titles : strs) project chunksize
    (script : list MW.response) (log : list event) :
  m_PageOutLinks quote (S depth1) titles project chunksize script log
  = m_PageOutLinks quote (S depth2) titles project chunksize script log.
Proof.
  simpl. destruct (checkTitles titles) as [ts | e |]; [| done | done].
  destruct (chunksize <? length ts)%nat; [| done].
  erewrite doChunks_ext; [reflexivity |].
  intros b w Hb. cbv beta. by rewrite !m_PageOutLinks_batch.
Qed.

End PageOutLinksFacts.

(** C2 (as the code has it).  The loop sends one request per reply; the
    parameters of each request are those of the one before with the fields
    of the token written over them.  It stops at the first page that has no
    token, returning the accumulator, and also at a reply that has no
    ["query"] part, returning [None].  When every page before the last has
    a token with a field ["continue"] (which is how the code tells a later
    page from the first) and the pages are regular, [n] pages give exactly
    [n] requests and an accumulator that holds, for every title, the union
    of its records: the status and names of the first page and the links of
    all pages in order. *)
Theorem links_loop_one_request_per_page (quote : string → string)
    (titles : list string) (project : string)
    (rs : list MW.response) (r : MW.response) (rest : list MW.response)
    (log : list event) :
  String.eqb (Str.strip project) "" = false →
  continuing (links_query titles) rs →
  sendable (after (links_query titles) rs) →
  raise_for_status (MW.status_code r) = Return tt →
  MW.error (MW.body r) = None →
  let sent := requests project (links_query titles) (rs ++ [r]) in
  length sent = S (length rs)
  ∧ (∀ i (qi : gmap string string) (ri : MW.response) c,
       queries (links_query titles) (rs ++ [r]) !! i = Some qi →
       (rs ++ [r])%list !! i = Some ri →
       MW.continue (MW.body ri) = Some c → (i < length rs)%nat →
       queries (links_query titles) (rs ++ [r]) !! S i = Some (update qi c)
       ∧ ∀ key, update qi c !! key
                = match c !! key with Some v => Some v | None => qi !! key end)
  ∧ (∀ q q1 qs,
       MW.query (MW.body r) = Some q → MW.continue (MW.body r) = None →
       parts (rs ++ [r]) = q1 :: qs →
       NoDup titles → regular quote titles q1 qs →
       ∃ output,
         links_direct quote titles project (rs ++ r :: rest) log
         = (rest, (log ++ sent)%list, Return (Some (Frame output)))
         ∧ (∀ title, title ∈ titles →
              dict_get title output = union_row quote title q1 qs)
         ∧ (∀ k, k ∉ titles → dict_get k output = None))
  ∧ (∀ o,
       MW.query (MW.body r) = None →
       absorb_seq quote true (parts rs) titles [] = Return o →
       links_direct quote titles project (rs ++ r :: rest) log
       = (rest, (log ++ sent)%list, Return None)).
Proof.
  intros Hproj Hcont Hsend Hst Herr sent.
  assert (Hsent : sent = (requests project (links_query titles) rs
                          ++ requests project (after (links_query titles) rs) [r])%list).
  { subst sent. unfold requests. by rewrite queries_app, map_app. }
  assert (Hfuel : S (length (rs ++ r :: rest))
                  = (length rs + S (S (length rest)))%nat).
  { rewrite length_app. simpl. lia. }
  assert (Hfirst : ∀ o, absorb_seq quote true (parts rs) titles [] = Return o →
            links_direct quote titles project (rs ++ r :: rest) log
            = links_loop quote (S (S (length rest))) titles project
                (after (links_query titles) rs) o (r :: rest)
                (log ++ requests project (links_query titles) rs)%list
            ∧ (rs ≠ [] →
               bool_decide ("continue" ∈ dom (after (links_query titles) rs)) = true)).
  { intros o Ho. unfold links_direct. rewrite Hfuel.
    apply links_loop_continuing; [done | done |].
    by rewrite links_query_first. }
  split_and!.
  - subst sent. unfold requests. rewrite length_map, length_queries, length_app.
    simpl. lia.
  - intros i qi ri c Hqi Hri Hc Hi. split.
    + apply (queries_chain _ _ i qi ri c); [done | done | done |].
      rewrite length_app. simpl. lia.
    + intros key. apply lookup_update.
  - intros q q1 qs Hq Hc Hparts Hnd Hreg.
    destruct (absorb_seq_union quote q1 qs titles Hnd Hreg) as (output & Habs & Hin & Hout).
    rewrite <- Hparts, (parts_snoc _ _ _ Hq), absorb_seq_snoc in Habs.
    destruct (absorb_seq quote true (parts rs) titles []) as [o | |] eqn:Ho;
      [| done | done].
    simpl in Habs.
    destruct (Hfirst o eq_refl) as [Hrun Hdom].
    exists output. split_and!; [| done | done].
    rewrite Hrun.
    rewrite (links_loop_last quote _ titles project _ o output r q); try done.
    + by rewrite Hsent, app_assoc.
    + destruct rs as [| r0 rs0].
      * simpl in *. by rewrite links_query_first.
      * rewrite Hdom by done. simpl.
        rewrite <- Habs. f_equal.
        pose proof (parts_continuing _ _ Hcont) as Hlen.
        destruct (parts (r0 :: rs0)); [done | done].
  - intros o Hq Ho.
    destruct (Hfirst o Ho) as [Hrun _]. rewrite Hrun.
    rewrite links_loop_no_query by done.
    by rewrite Hsent, app_assoc.
Qed.

(** C2 as stated does not hold.  Three pages, the first two with a token,
    give three requests, but when the tokens have no field ["continue"] the
    record of the title is started afresh on every page and the accumulator
    holds the links of the last page only; and a reply that has a token but
    no ["query"] part stops the loop, with [None], although it has a
    token. *)
Lemma three_pages_bare_tokens_lose_records :
  links_direct SampleTitle.quote ["A"] "en.wikipedia.org" SampleLinks.three_pages_bare []
  = ([],
     requests "en.wikipedia.org" (links_query ["A"]) SampleLinks.three_pages_bare,
     Return (Some (Frame [("A", {| row_status := "OK";
                                   row_normalized := None;
                                   row_target := None;
                                   row_nlinks := 1;
                                   row_links := Some ["L4"] |})])))
  ∧ length (requests "en.wikipedia.org" (links_query ["A"]) SampleLinks.three_pages_bare)
    = 3%nat
  ∧ concat (map (links_of SampleTitle.quote "A") (parts SampleLinks.three_pages_bare))
    = ["L1"; "L2"; "L3"; "L4"]
  ∧ links_direct SampleTitle.quote ["A"] "en.wikipedia.org"
                 (SampleLinks.no_query :: SampleLinks.three_pages) []
    = (SampleLinks.three_pages,
       [Request GET SampleLinks.url (links_query ["A"]) None],
       Return None)
  ∧ is_Some (MW.continue (MW.body SampleLinks.no_query)).
Proof. split_and!; [reflexivity.. | by eexists]. Qed.

Lemma links_loop_three_pages_witness :
  ∃ output,
    links_direct SampleTitle.quote ["A"] "en.wikipedia.org" SampleLinks.three_pages []
    = ([],
       requests "en.wikipedia.org" (links_query ["A"]) SampleLinks.three_pages,
       Return (Some (Frame output)))
    ∧ (∀ title, title ∈ ["A"] →
         dict_get title output
         = union_row SampleTitle.quote title
             {| MW.normalized := None; MW.redirects := None;
                MW.pages := Some [SampleLinks.page_A ["L1"; "L2"]] |}
             [ {| MW.normalized := None; MW.redirects := None;
                  MW.pages := Some [SampleLinks.page_A ["L3"]] |};
               {| MW.normalized := None; MW.redirects := None;
                  MW.pages := Some [SampleLinks.page_A ["L4"]] |} ])
    ∧ (∀ k, k ∉ ["A"] → dict_get k output = None).
Proof.
  assert (Hsend : ∀ c : gmap string string,
            c !! "titles" = None → sendable (update (links_query ["A"]) c)).
  { intros c Hc titles Ht. rewrite lookup_update, Hc in Ht.
    vm_compute in Ht. injection Ht as <-. vm_compute. lia. }
  assert (Hsend0 : sendable (links_query ["A"])).
  { intros titles Ht. vm_compute in Ht. injection Ht as <-. vm_compute. lia. }
  pose proof (links_loop_one_request_per_page SampleTitle.quote ["A"] "en.wikipedia.org"
                [SampleLinks.reply ["L1"; "L2"] (Some (SampleLinks.token "1|0|L3"));
                 SampleLinks.reply ["L3"] (Some (SampleLinks.token "1|0|L4"))]
                (SampleLinks.reply ["L4"] None) [] []) as H.
  destruct H as (_ & _ & H & _).
  - reflexivity.
  - split; [done |]. split; [by eexists |].
    eexists. split; [reflexivity |]. split; [by apply elem_of_dom |].
    split; [by apply Hsend |]. split; [by eexists |].
    eexists. split; [reflexivity |]. split; [by apply elem_of_dom |]. done.
  - intros titles Ht. vm_compute in Ht. injection Ht as <-. vm_compute. lia.
  - reflexivity.
  - reflexivity.
  - apply (H _ _ _ eq_refl eq_refl eq_refl).
    + apply NoDup_singleton.
    + split_and!.
      * intros q Hq. repeat (apply elem_of_cons in Hq as [-> | Hq]; [by eexists |]).
        by apply elem_of_nil in Hq.
      * intros title ->%list_elem_of_singleton. vm_compute. lia.
      * intros title q ->%list_elem_of_singleton _ _.
        eexists. split; reflexivity.
Defined.

(** * Further properties of the validation functions *)

Section StripFacts.
Local Open Scope list_scope.
Implicit Types (l m : list ascii) (s : string).

Lemma chars_of_chars l : Str.chars (Str.of_chars l) = l.
Proof. apply list_ascii_of_string_of_list_ascii. Qed.

Lemma of_chars_chars s : Str.of_chars (Str.chars s) = s.
Proof. apply string_of_list_ascii_of_string. Qed.

Lemma chars_inj s t : Str.chars s = Str.chars t → s = t.
Proof. intros H. by rewrite <- (of_chars_chars s), <- (of_chars_chars t), H. Qed.


(** [lstrip] removes a run of spaces at the front, and nothing else. *)
Lemma lstrip_split l : ∃ p, l = p ++ Str.lstrip l ∧ forallb Str.isspace p = true.
Proof.
  induction l as [| c l (p & Hl & Hp)]; [by exists [] |].
  simpl. destruct (Str.isspace c) eqn:Hc.
  - exists (c :: p). simpl. rewrite Hc, Hp. split; [by f_equal | done].
  - by exists [].
Qed.

Lemma lstrip_clean l :
  match Str.lstrip l with [] => True | c :: _ => Str.isspace c = false end.
Proof.
  induction l as [| c l IH]; [done |].
  simpl. destruct (Str.isspace c) eqn:Hc; [done |]. done.
Qed.

Lemma lstrip_nil l : Str.lstrip l = [] ↔ forallb Str.isspace l = true.
Proof.
  induction l as [| c l IH]; [done |].
  simpl. destruct (Str.isspace c); [done |]. split; done.
Qed.

Lemma lstrip_id l :
  match l with [] => True | c :: _ => Str.isspace c = false end → Str.lstrip l = l.
Proof. destruct l as [| c l]; [done |]. simpl. by intros ->. Qed.

Lemma rstrip_split l : ∃ p, l = Str.rstrip l ++ p ∧ forallb Str.isspace p = true.
Proof.
  destruct (lstrip_split (rev l)) as (p & Hl & Hp).
  exists (rev p). split.
  - unfold Str.rstrip. rewrite <- rev_app_distr, <- Hl. by rewrite rev_involutive.
  - rewrite forallb_forall in *. intros c Hc. apply Hp. by apply in_rev.
Qed.

Lemma rstrip_nil l : Str.rstrip l = [] ↔ forallb Str.isspace l = true.
Proof.
  unfold Str.rstrip. split.
  - intros H. apply (f_equal (@rev ascii)) in H. rewrite rev_involutive in H.
    simpl in H. apply lstrip_nil in H. rewrite forallb_forall in *.
    intros c Hc. apply H. by apply in_rev in Hc.
  - intros H. assert (Hr : Str.lstrip (rev l) = []).
    { apply lstrip_nil. rewrite forallb_forall in *. intros c Hc. apply H.
      by apply in_rev. }
    by rewrite Hr.
Qed.

Lemma rstrip_id l :
  match rev l with [] => True | c :: _ => Str.isspace c = false end → Str.rstrip l = l.
Proof. intros H. unfold Str.rstrip. rewrite lstrip_id by done. apply rev_involutive. Qed.

Lemma rstrip_clean l :
  match rev (Str.rstrip l) with [] => True | c :: _ => Str.isspace c = false end.
Proof. unfold Str.rstrip. rewrite rev_involutive. apply lstrip_clean. Qed.

Lemma trimmed_strip l : trimmed (Str.rstrip (Str.lstrip l)).
Proof.
  split; [| apply rstrip_clean].
  pose proof (lstrip_clean l) as Hc.
  destruct (rstrip_split (Str.lstrip l)) as (p & Hl & _).
  destruct (Str.rstrip (Str.lstrip l)) as [| c r]; [done |].
  by rewrite Hl in Hc.
Qed.

Lemma trimmed_fixed l : trimmed l → Str.rstrip (Str.lstrip l) = l.
Proof. intros [Hh Ht]. rewrite (lstrip_id l Hh). by apply rstrip_id. Qed.

Lemma trimmed_not_blank l : trimmed l → l ≠ [] → forallb Str.isspace l = false.
Proof.
  intros [Hh _] Hne. destruct l as [| c l]; [done |]. simpl. by rewrite Hh.
Qed.

Lemma strip_strip s : Str.strip (Str.strip s) = Str.strip s.
Proof.
  unfold Str.strip. rewrite chars_of_chars.
  by rewrite (trimmed_fixed _ (trimmed_strip _)).
Qed.

(** [x.strip() == ''] exactly when [re.match('\s*$', x)]. *)
Lemma strip_empty s : Str.strip s = "" ↔ Str.blank s = true.
Proof.
  unfold Str.strip, Str.blank. split.
  - intros H. apply (f_equal Str.chars) in H. rewrite chars_of_chars in H.
    change (Str.chars "") with (@nil ascii) in H.
    apply rstrip_nil in H. apply lstrip_nil.
    pose proof (lstrip_clean (Str.chars s)) as Hc.
    destruct (Str.lstrip (Str.chars s)) as [| c r]; [done |].
    simpl in H. by rewrite Hc in H.
  - intros H. apply lstrip_nil in H. rewrite H. reflexivity.
Qed.

Lemma blank_strip s : Str.blank s = false → Str.blank (Str.strip s) = false.
Proof.
  intros Hs. unfold Str.blank, Str.strip. rewrite chars_of_chars.
  apply trimmed_not_blank; [apply trimmed_strip |].
  intros Hnil. apply not_true_iff_false in Hs. apply Hs, strip_empty.
  unfold Str.strip. by rewrite Hnil.
Qed.

End StripFacts.

Section CheckedLists.
Local Open Scope list_scope.
Implicit Types (l r b : list string) (x y q : string).

(** A list of trimmed, non-blank strings is left as it is by the
    comprehension that trims and drops blanks. *)
Lemma stripped_fixed r :
  (∀ x, x ∈ r → Str.blank x = false ∧ Str.strip x = x) → stripped r = r.
Proof.
  intros H. unfold stripped. induction r as [| x r IH]; [done |].
  destruct (H x) as [Hb Hs]; [by left |].
  rewrite filter_cons. rewrite decide_True by done. simpl. rewrite Hs. f_equal.
  apply IH. intros y Hy. apply H. by right.
Qed.

Lemma stripped_elements l x :
  x ∈ stripped l → Str.blank x = false ∧ Str.strip x = x.
Proof.
  intros (y & _ & Hy & ->)%elem_of_stripped. split.
  - by apply blank_strip.
  - apply strip_strip.
Qed.

Lemma find_negb_entity_None l :
  find (fun q => negb (entity_match q)) l = None ↔ ∀ q, q ∈ l → entity_match q = true.
Proof.
  induction l as [| x l IH]; simpl.
  - split; [| done]. intros _ q Hq. by apply elem_of_nil in Hq.
  - destruct (entity_match x) eqn:Hx; simpl.
    + rewrite IH. split.
      * intros H q [-> | Hq]%elem_of_cons; [done | by apply H].
      * intros H q Hq. apply H. by right.
    + split; [done |]. intros H. specialize (H x). rewrite Hx in H.
      discriminate H. by left.
Qed.


(** What [checkEntities] and [checkTitles] return, in terms of the list
    left after trimming. *)
Lemma checkEntities_Return l r :
  checkEntities (Many l) = Return r →
  r = dedup (stripped l) ∧ stripped l ≠ []
  ∧ ∀ q, q ∈ stripped l → entity_match q = true.
Proof.
  unfold checkEntities. destruct (length (stripped l) =? 0)%nat eqn:Hlen; [done |].
  destruct (find _ (stripped l)) as [q |] eqn:Hf; [done |].
  intros [= <-]. split; [done |]. split.
  - intros Hnil. by rewrite Hnil in Hlen.
  - by apply find_negb_entity_None.
Qed.


Lemma dedup_nonempty l : l ≠ [] → dedup l ≠ [].
Proof.
  destruct l as [| x l]; [done |]. intros _ Hnil.
  assert (Hx : x ∈ dedup (x :: l)) by (apply elem_of_dedup; by left).
  rewrite Hnil in Hx. by apply elem_of_nil in Hx.
Qed.


End CheckedLists.

Section CheckedResults.
Local Open Scope list_scope.
Implicit Types (l r b : list string) (x y q : string).

Lemma trimmed_of_strip x : Str.strip x = x → trimmed (Str.chars x).
Proof.
  intros H. rewrite <- H at 1. unfold Str.strip. rewrite chars_of_chars.
  apply trimmed_strip.
Qed.

Lemma last_clean_cons (a : ascii) (l : list ascii) :
  l ≠ [] →
  match rev (a :: l) with [] => True | c :: _ => Str.isspace c = false end →
  match rev l with [] => True | c :: _ => Str.isspace c = false end.
Proof.
  intros Hne. simpl. destruct (rev l) as [| c r] eqn:Hr; [| done].
  apply (f_equal (@rev ascii)) in Hr. rewrite rev_involutive in Hr. done.
Qed.

(** On text that does not end in a space, [$] matches at the very end. *)
Lemma digits_then_end_trimmed (l : list ascii) :
  digits_then_end l = true →
  match rev l with [] => True | c :: _ => Str.isspace c = false end →
  forallb Str.isdigit l = true.
Proof.
  induction l as [| c l IH]; [done |].
  intros Hd Hlast. simpl in Hd. simpl forallb.
  destruct (Str.isdigit c) eqn:Hc.
  - simpl. destruct l as [| c' l']; [done |].
    apply IH; [done |]. by apply (last_clean_cons c).
  - apply andb_prop in Hd as [Hnl Hl]. destruct l; [| done].
    apply Ascii.eqb_eq in Hnl. subst c. simpl in Hlast. done.
Qed.

Lemma entity_match_trimmed q :
  entity_match q = true → trimmed (Str.chars q) → entity_id q.
Proof.
  unfold entity_match. intros Hm [_ Hlast].
  destruct (Str.chars q) as [| c [| d l]] eqn:Hq; [done | done |].
  apply andb_prop in Hm as [Hm Hl]. apply andb_prop in Hm as [Hc Hd].
  exists c, (d :: l). split; [done |]. split.
  - apply orb_prop in Hc as [Hc | Hc]; apply Ascii.eqb_eq in Hc; auto.
  - split; [done |]. simpl. rewrite Hd. simpl.
    destruct l as [| c' l']; [done |].
    apply digits_then_end_trimmed; [done |].
    apply (last_clean_cons d); [done |]. by apply (last_clean_cons c).
Qed.

Lemma elem_of_batches r c b :
  (1 ≤ c)%nat → b ∈ batches r c →
  b ≠ [] ∧ b `sublist_of` r.
Proof.
  intros Hc Hb. apply list_elem_of_lookup in Hb as [k Hk].
  assert (Hlt : (k < ceil_div (length r) c)%nat).
  { rewrite <- length_batches. by eapply lookup_lt_Some. }
  rewrite lookup_batches in Hk by done. injection Hk as <-. split.
  - by apply batch_nonempty.
  - unfold slice. etrans; [apply sublist_take | apply sublist_drop].
Qed.

Lemma checkEntities_fixed l b :
  (∀ q, q ∈ stripped l → entity_match q = true) →
  b ≠ [] → NoDup b → (∀ q, q ∈ b → q ∈ stripped l) →
  checkEntities (Many b) = Return b.
Proof.
  intros Hmatch Hne Hnd Hsub. unfold checkEntities.
  rewrite stripped_fixed by (intros x Hx; eapply stripped_elements; eauto).
  destruct b as [| x b]; [done |]. simpl length. simpl Nat.eqb. cbv iota.
  assert (Hf : find (fun q => negb (entity_match q)) (x :: b) = None).
  { apply find_negb_entity_None. intros q Hq. by apply Hmatch, Hsub. }
  rewrite Hf. by rewrite dedup_NoDup.
Qed.


(** Plain text stays plain under the trimming and the removal of
    duplicates: what the checks return of plain text is plain text. *)
Lemma plain_strip x : Str.plain x → Str.plain (Str.strip x).
Proof.
  unfold Str.plain, Str.strip. rewrite chars_of_chars. intros H.
  destruct (lstrip_split (Str.chars x)) as (p & Hl & _).
  destruct (rstrip_split (Str.lstrip (Str.chars x))) as (p' & Hr & _).
  rewrite Hl, forallb_app in H. apply andb_prop in H as [_ H].
  rewrite Hr, forallb_app in H. by apply andb_prop in H as [H _].
Qed.

Lemma plain_stripped l : Forall Str.plain l → Forall Str.plain (stripped l).
Proof.
  rewrite !Forall_forall. intros H x Hx.
  apply (proj1 (elem_of_stripped _ _)) in Hx as (y & Hy & _ & ->).
  by apply plain_strip, H.
Qed.

Lemma plain_dedup l : Forall Str.plain l → Forall Str.plain (dedup l).
Proof.
  rewrite !Forall_forall. intros H x Hx. apply H.
  by apply (proj1 (elem_of_dedup _ _)).
Qed.

Lemma plain_batch r c b :
  (1 ≤ c)%nat → Forall Str.plain r → b ∈ batches r c → Forall Str.plain b.
Proof.
  intros Hc Hr Hb. apply elem_of_batches in Hb as [_ Hsub]; [| done].
  rewrite Forall_forall in *. intros x Hx. apply Hr.
  exact (sublist_subseteq _ _ Hsub x Hx).
Qed.

End CheckedResults.

(** X1. Of a list of plain text (ASCII characters other than the separators
    0x1C-0x1F) [checkEntities] returns a list of plain text that is not
    empty and has no duplicates; its elements are the trimmed forms of the
    elements of the argument that are not blank; each is the letter [Q] or
    [P] followed by one or more digits and nothing else (the newline that
    [$] tolerates is trimmed away before the match).  A single string is
    handled as the list of that string. *)
Theorem checkEntities_returns_clean_identifiers (l r : list string) :
  Forall Str.plain l →
  checkEntities (Many l) = Return r →
  r ≠ [] ∧ NoDup r ∧ Forall Str.plain r
  ∧ (∀ q, q ∈ r ↔ ∃ y, y ∈ l ∧ Str.blank y = false ∧ q = Str.strip y)
  ∧ (∀ q, q ∈ r → entity_id q)
  ∧ (length r ≤ length l)%nat
  ∧ ∀ s, l = [s] → checkEntities (One s) = Return r.
Proof.
  intros Hplain Hck.
  pose proof (checkEntities_Return l r Hck) as (-> & Hne & Hmatch).
  split; [by apply dedup_nonempty |]. split; [apply NoDup_dedup |].
  split; [by apply plain_dedup, plain_stripped |]. split.
  { intros q. rewrite elem_of_dedup. apply elem_of_stripped. }
  split.
  { intros q Hq. apply (proj1 (elem_of_dedup _ _)) in Hq.
    apply entity_match_trimmed; [by apply Hmatch |].
    apply trimmed_of_strip. by destruct (stripped_elements l q Hq). }
  split.
  { etrans; [apply length_dedup | apply length_stripped]. }
  intros s ->. exact Hck.
Qed.

Lemma checkEntities_returns_clean_identifiers_witness :
  Forall Str.plain [" Q42"; "P31 "; ""; "Q42"]
  ∧ checkEntities (Many [" Q42"; "P31 "; ""; "Q42"]) = Return ["Q42"; "P31"]
  ∧ (∀ q, q ∈ ["Q42"; "P31"] → entity_id q).
Proof.
  assert (Hplain : Forall Str.plain [" Q42"; "P31 "; ""; "Q42"])
    by (repeat constructor).
  split; [exact Hplain |]. split; [reflexivity |].
  apply (checkEntities_returns_clean_identifiers [" Q42"; "P31 "; ""; "Q42"]
           ["Q42"; "P31"] Hplain eq_refl).
Defined.

Lemma checkEntities_Many (E : strs) (r : list string) :
  checkEntities E = Return r → ∃ l, checkEntities (Many l) = Return r.
Proof. destruct E as [s | l]; [by exists [s] | by exists l]. Qed.


Lemma checkEntities_plain (E : strs) (r : list string) :
  plain_strs E → checkEntities E = Return r → Forall Str.plain r.
Proof.
  intros Hplain Hck.
  assert (∃ l, Forall Str.plain l ∧ checkEntities (Many l) = Return r)
    as (l & Hl & Hckl).
  { destruct E as [s | l]; [exists [s]; split; [by constructor | done] | by exists l]. }
  pose proof (checkEntities_Return l r Hckl) as (-> & _ & _).
  by apply plain_dedup, plain_stripped.
Qed.


Lemma checkEntities_again (E : strs) (r : list string) :
  checkEntities E = Return r → checkEntities (Many r) = Return r.
Proof.
  intros [l Hl]%checkEntities_Many.
  pose proof (checkEntities_Return l r Hl) as (-> & Hne & Hmatch).
  apply (checkEntities_fixed l); [done | by apply dedup_nonempty | apply NoDup_dedup |].
  intros q. by rewrite elem_of_dedup.
Qed.

Lemma checkEntities_batch (E : strs) (r : list string) c b :
  checkEntities E = Return r → (1 ≤ c)%nat → b ∈ batches r c →
  checkEntities (Many b) = Return b.
Proof.
  intros [l Hl]%checkEntities_Many Hc Hb.
  pose proof (checkEntities_Return l r Hl) as (-> & Hne & Hmatch).
  apply elem_of_batches in Hb as [Hbne Hsub]; [| done].
  apply (checkEntities_fixed l); [done | done | |].
  - eapply sublist_NoDup; [apply NoDup_dedup | exact Hsub].
  - intros q Hq. apply (proj1 (elem_of_dedup _ _)).
    exact (sublist_subseteq _ _ Hsub q Hq).
Qed.




(** X2. A list that [checkEntities] has returned of plain text is plain
    text, passes the check again unchanged, and so does every batch
    [doChunks] cuts from it: the worker that checks its batch again works on
    the batch as it was passed. *)
Theorem checkEntities_accepts_its_batches (E : strs) (r : list string) :
  plain_strs E →
  checkEntities E = Return r →
  Forall Str.plain r
  ∧ checkEntities (Many r) = Return r
  ∧ ∀ c b, (1 ≤ c)%nat → b ∈ batches r c →
           Forall Str.plain b ∧ checkEntities (Many b) = Return b.
Proof.
  intros Hplain Hck. pose proof (checkEntities_plain E r Hplain Hck) as Hr.
  split; [done |]. split; [by apply (checkEntities_again E) |].
  intros c b Hc Hb. split; [by apply (plain_batch r c) |].
  by apply (checkEntities_batch E r c).
Qed.

Lemma checkEntities_accepts_its_batches_witness :
  plain_strs (Many [" Q1"; "Q2"; "Q1"; "Q3 "])
  ∧ checkEntities (Many ["Q1"; "Q2"; "Q3"]) = Return ["Q1"; "Q2"; "Q3"]
  ∧ checkEntities (Many ["Q3"]) = Return ["Q3"].
Proof.
  assert (Hplain : plain_strs (Many [" Q1"; "Q2"; "Q1"; "Q3 "]))
    by (repeat constructor).
  split; [exact Hplain |].
  destruct (checkEntities_accepts_its_batches (Many [" Q1"; "Q2"; "Q1"; "Q3 "])
              ["Q1"; "Q2"; "Q3"] Hplain eq_refl) as (_ & H1 & H2).
  split; [exact H1 |]. apply (H2 2%nat); [lia |].
  vm_compute. right. left.
Defined.





(** * Further properties of [doChunks] *)

Section ChunkingFacts.
Context {W V Row : Type}.
Local Open Scope list_scope.
Local Open Scope nat_scope.
Implicit Types (f : worker W V Row) (x : list string) (c : nat) (w : W).

Lemma ceil_div_covers n c : 1 ≤ c → n ≤ ceil_div n c * c.
Proof.
  intros Hc. destruct (decide (ceil_div n c * c < n)) as [Hlt | Hge]; [| lia].
  apply ceil_div_lt in Hlt; [lia | done].
Qed.

Lemma concat_slices x c m :
  concat (map (fun k => slice x (k * c) ((k + 1) * c)) (seq 0 m)) = take (m * c) x.
Proof.
  induction m as [| m IH]; [done |].
  rewrite seq_S, map_app, concat_app, IH. simpl. rewrite app_nil_r.
  unfold slice. replace ((m + 1) * c - m * c) with c by lia.
  rewrite take_take_drop. f_equal. lia.
Qed.

Lemma concat_batches x c : 1 ≤ c → concat (batches x c) = x.
Proof.
  intros Hc. unfold batches. rewrite concat_slices.
  apply take_ge. by apply ceil_div_covers.
Qed.

Lemma batches_cons x c : 1 ≤ c → x ≠ [] → ∃ b bs, batches x c = b :: bs.
Proof.
  intros Hc Hx. destruct (batches x c) as [| b bs] eqn:Hb; [| by eauto].
  apply (f_equal length) in Hb. rewrite length_batches in Hb. simpl in Hb.
  assert (Hlt : 0 < ceil_div (length x) c).
  { apply ceil_div_lt; [done |]. destruct x; [done | simpl; lia]. }
  lia.
Qed.

(** A call that did not return a result is the last of its run, and what it
    gave is the outcome of the run. *)
Lemma log_of_run_stops (bs : list (list string)) (calls : list (call V Row))
    (r : outcome (option (result V Row))) i b d :
  log_of_run bs calls r → calls !! i = Some (b, d) →
  (∀ d', d ≠ Return (Some d')) →
  r = d ∧ length calls = S i ∧ map fst calls = take (S i) bs
  ∧ ∀ j, j < i → ∃ b' d', calls !! j = Some (b', Return (Some d')).
Proof.
  intros (Hpre & Hmid & Hlast & _) Hi Hd.
  assert (Hlen : length calls = S i).
  { pose proof (lookup_lt_Some _ _ _ Hi) as Hlt.
    destruct (decide (S i < length calls)) as [Hlt' | Hge];
      [| unfold call in *; lia].
    destruct (Hmid _ _ _ Hi Hlt') as [d' ->]. by destruct (Hd d'). }
  split_and!; [| done | |].
  - destruct (Hlast b d) as [[d' ->] | ->]; [| by destruct (Hd d') | done].
    by rewrite last_lookup, Hlen.
  - destruct Hpre as [rest ->]. rewrite take_app_length'; [done |].
    by rewrite length_map.
  - intros j Hj.
    destruct (lookup_lt_is_Some_2 calls j) as [[b' d0] Hjd]; [unfold call in *; lia |].
    destruct (Hmid _ _ _ Hjd) as [d' ->]; [lia |]. eauto.
Qed.


End ChunkingFacts.



(** X6. The chunk size does not show in the result of a worker that treats the
    elements one by one.  If the worker returns a data frame whose rows are
    those of the elements of its batch, in order, [doChunks] returns the
    rows of the whole list; if it returns a mapping that is the union of the
    mappings of the parts of its batch, later parts winning, [doChunks]
    returns the mapping of the whole list.  Either is what one call on the
    whole list would return. *)
Theorem doChunks_result_independent_of_chunksize {W V Row : Type}
    (f : worker W V Row) (x : list string) (c : nat) (w : W) :
  (1 ≤ c)%nat → x ≠ [] →
  (∀ (rows : list string → list Row),
     (∀ b w, (f b c w).2 = Return (Some (Frame (rows b)))) →
     (∀ a b, rows (a ++ b)%list = (rows a ++ rows b)%list) →
     ∃ w' log, doChunks f x c w = (w', log, Return (Some (Frame (rows x)))))
  ∧ (∀ (dict_of : list string → gmap string V),
       (∀ b w, (f b c w).2 = Return (Some (Dict (dict_of b)))) →
       (∀ a b, dict_of (a ++ b)%list = update (dict_of a) (dict_of b)) →
       ∃ w' log, doChunks f x c w = (w', log, Return (Some (Dict (dict_of x))))).
Proof.
  intros Hc Hx. destruct (batches_cons x c Hc Hx) as (b & bs & Hb).
  pose proof (concat_batches x c Hc) as Hcat. rewrite Hb in Hcat. simpl in Hcat.
  split.
  - intros rows Hf Hadd.
    assert (Hnil : rows [] = []).
    { pose proof (Hadd [] []) as H. simpl in H. apply (f_equal length) in H.
      rewrite length_app in H. apply length_zero_iff_nil. lia. }
    assert (Hrows : ∀ ls, concat (map rows ls) = rows (concat ls)).
    { induction ls as [| a ls IH]; simpl; [done |]. by rewrite IH, Hadd. }
    rewrite doChunks_over_batches by done. rewrite Hb. simpl.
    pose proof (Hf b w) as Hfb. destruct (f b c w) as [w1 d]. simpl in Hfb. subst d.
    destruct (over_batches_frames f c rows bs Hf (rows b) w1
                [(b, Return (Some (Frame (rows b))))]) as (w' & log' & ->).
    rewrite Hrows, <- Hadd, Hcat. eauto.
  - intros dict_of Hf Hadd.
    assert (Hfold : ∀ ls a,
              fold_left update (map dict_of ls) (dict_of a) = dict_of (a ++ concat ls)%list).
    { induction ls as [| a' ls IH]; intros a; simpl.
      - by rewrite app_nil_r.
      - rewrite <- Hadd, IH. by rewrite <- app_assoc. }
    rewrite doChunks_over_batches by done. rewrite Hb. simpl.
    pose proof (Hf b w) as Hfb. destruct (f b c w) as [w1 d]. simpl in Hfb. subst d.
    destruct (over_batches_dicts f c dict_of bs Hf (dict_of b) w1
                [(b, Return (Some (Dict (dict_of b))))]) as (w' & log' & ->).
    rewrite Hfold, Hcat. eauto.
Qed.

Lemma doChunks_result_independent_of_chunksize_witness :
  ∃ w' log,
    doChunks Sample.listing ["Q1"; "Q2"; "Q3"] 2 0%nat
    = (w', log, Return (Some (Frame ["Q1"; "Q2"; "Q3"]))).
Proof.
  destruct (doChunks_result_independent_of_chunksize Sample.listing
              ["Q1"; "Q2"; "Q3"] 2 0%nat) as [H _]; [lia | done |].
  apply (H (fun b => b)); done.
Defined.

(** X7. An exception raised by the worker ends [doChunks] with that exception:
    the invocation that raised is the last one, no later batch is passed to
    the worker, and the results of the batches before it are not returned. *)
Theorem doChunks_propagates_worker_exception {W V Row : Type}
    (f : worker W V Row) (x : list string) (c : nat) (w : W) :
  ∀ w' log r, doChunks f x c w = (w', log, r) →
  ∀ i b e, log !! i = Some (b, Raise e) →
    r = Raise e
    ∧ length log = S i
    ∧ map fst log = take (S i) (batches x c)
    ∧ (∀ j, (j < i)%nat → ∃ b' d', log !! j = Some (b', Return (Some d'))).
Proof.
  intros w' log r Hrun i b e Hi.
  destruct (decide (c = 0)) as [-> | Hc].
  { injection Hrun as <- <- <-. done. }
  rewrite doChunks_over_batches in Hrun by lia.
  apply over_batches_log in Hrun as (calls & -> & Hlog).
  by apply (log_of_run_stops _ _ _ i b (Raise e) Hlog).
Qed.

Lemma doChunks_propagates_worker_exception_witness :
  ∃ w' log,
    doChunks SampleErrors.failing ["Q1"; "Q2"; "Q3"; "Q4"; "Q5"] 2 0%nat
    = (w', log, Raise (KeyError "Q3"))
    ∧ length log = 2%nat.
Proof.
  eexists _, _.
  destruct (doChunks_propagates_worker_exception SampleErrors.failing
              ["Q1"; "Q2"; "Q3"; "Q4"; "Q5"] 2 0%nat _ _ _ eq_refl
              1%nat ["Q3"; "Q4"] (KeyError "Q3") eq_refl) as (Hr & Hlen & _).
  split; [| exact Hlen]. reflexivity.
Defined.

(** * Further properties of [reqWDQS] *)

(** X8. [reqWDQS] checks its arguments before it sends anything.  A format
    other than json, xml and csv raises a [ValueError] that names the
    format, whatever the method is; with one of these formats, a method
    other than GET and POST raises a [ValueError] that names the method.
    In both cases no reply is taken and nothing is added to the log. *)
Theorem reqWDQS_rejects_unsupported_arguments (http2time : string → option Z)
    (q : string) (m : method) (format : string)
    (script : list WDQS.exchange) (log : list event) :
  (format ≠ "json" → format ≠ "xml" → format ≠ "csv" →
     reqWDQS http2time q m format script log
     = (script, log, Raise (ValueError ("Format '" ++ format ++ "' is not supported"))))
  ∧ (∀ name, m = Method name →
       format = "json" ∨ format = "xml" ∨ format = "csv" →
       reqWDQS http2time q m format script log
       = (script, log, Raise (ValueError ("Method '" ++ name ++ "' is not supported")))).
Proof.
  split.
  - intros Hj Hx Hc. unfold reqWDQS, wdqs_format_of.
    destruct (String.eqb_spec format "json"); [done |].
    destruct (String.eqb_spec format "xml"); [done |].
    destruct (String.eqb_spec format "csv"); [done |]. done.
  - intros name -> Hf. unfold reqWDQS.
    destruct Hf as [-> | [-> | ->]]; simpl; by destruct script.
Qed.

Lemma reqWDQS_rejects_unsupported_arguments_witness :
  reqWDQS SampleWDQS.http2time "SELECT ?x WHERE {}" (Method "PUT") "tsv"
          [SampleWDQS.ok "text/csv" "x"] []
  = ([SampleWDQS.ok "text/csv" "x"], [],
     Raise (ValueError "Format 'tsv' is not supported"))
  ∧ reqWDQS SampleWDQS.http2time "SELECT ?x WHERE {}" (Method "PUT") "csv"
            [SampleWDQS.ok "text/csv" "x"] []
    = ([SampleWDQS.ok "text/csv" "x"], [],
       Raise (ValueError "Method 'PUT' is not supported")).
Proof.
  destruct (reqWDQS_rejects_unsupported_arguments SampleWDQS.http2time
              "SELECT ?x WHERE {}" (Method "PUT") "tsv"
              [SampleWDQS.ok "text/csv" "x"] []) as [H1 _].
  destruct (reqWDQS_rejects_unsupported_arguments SampleWDQS.http2time
              "SELECT ?x WHERE {}" (Method "PUT") "csv"
              [SampleWDQS.ok "text/csv" "x"] []) as [_ H2].
  split; [by apply H1 | apply (H2 "PUT"); [done | by right; right]].
Defined.

(** X9. Only the status 429 is retried.  A reply with any other status from 400
    to 599 makes [reqWDQS] raise the HTTP error of that status after the one
    request, whatever replies would follow; a reply with a status outside
    that range and no [Content-Type] header raises a [KeyError]. *)
Theorem reqWDQS_raises_http_errors_without_retry (http2time : string → option Z)
    (q : string) (m : method) (format wf : string)
    (x : WDQS.exchange) (rest : list WDQS.exchange) (log : list event) :
  (m = GET ∨ m = POST) →
  wdqs_format_of format = Return wf →
  WDQS.status_code (WDQS.reply x) ≠ 429%Z →
  ((400 ≤ WDQS.status_code (WDQS.reply x) < 600)%Z →
     reqWDQS http2time q m format (x :: rest) log
     = (rest, (log ++ [Request m WDQS.url {[ "query" := q ]} (Some wf)])%list,
        Raise (HTTPError (WDQS.status_code (WDQS.reply x)))))
  ∧ (¬ (400 ≤ WDQS.status_code (WDQS.reply x) < 600)%Z →
     WDQS.content_type (WDQS.reply x) = None →
     reqWDQS http2time q m format (x :: rest) log
     = (rest, (log ++ [Request m WDQS.url {[ "query" := q ]} (Some wf)])%list,
        Raise (KeyError "content-type"))).
Proof.
  intros Hm Hwf Hst. unfold reqWDQS. rewrite Hwf.
  rewrite reqWDQS_loop_final by done. unfold raise_for_status. split.
  - intros [Hlo Hhi]. apply Z.leb_le in Hlo. apply Z.ltb_lt in Hhi.
    by rewrite Hlo, Hhi.
  - intros Hout Hct.
    destruct (400 <=? _)%Z eqn:Hlo; destruct (_ <? 600)%Z eqn:Hhi; simpl;
      try (unfold decode; by rewrite Hct).
    apply Z.leb_le in Hlo. apply Z.ltb_lt in Hhi. lia.
Qed.

Lemma reqWDQS_raises_http_errors_witness :
  reqWDQS SampleWDQS.http2time "SELECT ?x WHERE {}" GET "json"
    [ {| WDQS.reply := {| WDQS.status_code := 500; WDQS.retry_after := None;
                          WDQS.content_type := Some "text/html"; WDQS.text := "" |};
         WDQS.clock := 0 |};
      SampleWDQS.ok "application/sparql-results+json" "{}" ] []
  = ([SampleWDQS.ok "application/sparql-results+json" "{}"],
     [Request GET WDQS.url {[ "query" := "SELECT ?x WHERE {}" ]}
              (Some "application/sparql-results+json")],
     Raise (HTTPError 500)).
Proof.
  apply (reqWDQS_raises_http_errors_without_retry SampleWDQS.http2time
           "SELECT ?x WHERE {}" GET "json" "application/sparql-results+json");
    [by left | reflexivity | simpl; lia | simpl; lia].
Defined.

(** X10. The number of retries on status 429 has no bound.  Every 429 reply
    whose [Retry-After] gives a wait from 0 to 600 seconds is followed by a
    sleep of that length and by the same request again; the first reply with
    another status decides the outcome, and while the replies are all 429
    the function keeps asking.  A 429 reply without [Retry-After] raises a
    [KeyError], and one whose [Retry-After] is neither an integer nor a date
    raises a [TypeError]; neither is retried. *)
Theorem reqWDQS_retries_every_429 (http2time : string → option Z)
    (q : string) (m : method) (format wf : string)
    (xs : list (WDQS.exchange * Z)) (rest : list WDQS.exchange) (log : list event) :
  (m = GET ∨ m = POST) →
  wdqs_format_of format = Return wf →
  Forall (fun '(x, s) =>
            WDQS.status_code (WDQS.reply x) = 429%Z
            ∧ (∃ t, WDQS.retry_after (WDQS.reply x) = Some t
                    ∧ retry_wait http2time t (WDQS.clock x) = Return s)
            ∧ (0 ≤ s ≤ 600)%Z) xs →
  let request := Request m WDQS.url {[ "query" := q ]} (Some wf) in
  let retried := flat_map (fun '(x, s) => [request; Sleep s]) xs in
  (rest = [] →
     reqWDQS http2time q m format (map fst xs ++ rest)%list log
     = ([], (log ++ retried ++ [request])%list, Blocked))
  ∧ (∀ x rest', rest = x :: rest' →
       WDQS.status_code (WDQS.reply x) ≠ 429%Z →
       reqWDQS http2time q m format (map fst xs ++ rest)%list log
       = (rest', (log ++ retried ++ [request])%list,
          _ <- raise_for_status (WDQS.status_code (WDQS.reply x)) ;;
          decode format (WDQS.reply x)))
  ∧ (∀ x rest', rest = x :: rest' →
       WDQS.status_code (WDQS.reply x) = 429%Z →
       (WDQS.retry_after (WDQS.reply x) = None →
          reqWDQS http2time q m format (map fst xs ++ rest)%list log
          = (rest', (log ++ retried ++ [request])%list, Raise (KeyError "retry-after")))
       ∧ (∀ t, WDQS.retry_after (WDQS.reply x) = Some t →
            WDQS.pure_integer t = false → http2time t = None →
            ∃ msg,
              reqWDQS http2time q m format (map fst xs ++ rest)%list log
              = (rest', (log ++ retried ++ [request])%list, Raise (TypeError msg)))).
Proof.
  intros Hm Hwf Hxs request retried. unfold reqWDQS. rewrite Hwf.
  rewrite (reqWDQS_loop_retries http2time q m format wf xs rest log Hm Hxs).
  fold request. fold retried. split_and!.
  - intros ->. destruct Hm as [-> | ->]; simpl; by rewrite <- app_assoc.
  - intros x rest' -> Hst. rewrite reqWDQS_loop_final by done.
    by rewrite <- app_assoc.
  - intros x rest' -> Hst. split.
    + intros Hra. destruct Hm as [-> | ->]; cbn [reqWDQS_loop];
        apply Z.eqb_eq in Hst; rewrite Hst, Hra; by rewrite <- app_assoc.
    + intros t Hra Hint Hdate. eexists.
      destruct Hm as [-> | ->]; cbn [reqWDQS_loop];
        apply Z.eqb_eq in Hst; rewrite Hst, Hra; unfold retry_wait;
        rewrite Hint, Hdate; by rewrite <- app_assoc.
Qed.

Lemma reqWDQS_retries_every_429_witness :
  reqWDQS SampleWDQS.http2time "SELECT ?x WHERE {}" GET "json"
          [SampleWDQS.too_many "120" 0; SampleWDQS.too_many "0" 0;
           SampleWDQS.too_many "600" 0] []
  = ([],
     [Request GET WDQS.url {[ "query" := "SELECT ?x WHERE {}" ]}
              (Some "application/sparql-results+json"); Sleep 120;
      Request GET WDQS.url {[ "query" := "SELECT ?x WHERE {}" ]}
              (Some "application/sparql-results+json"); Sleep 0;
      Request GET WDQS.url {[ "query" := "SELECT ?x WHERE {}" ]}
              (Some "application/sparql-results+json"); Sleep 600;
      Request GET WDQS.url {[ "query" := "SELECT ?x WHERE {}" ]}
              (Some "application/sparql-results+json")],
     Blocked).
Proof.
  destruct (reqWDQS_retries_every_429 SampleWDQS.http2time "SELECT ?x WHERE {}" GET
              "json" "application/sparql-results+json"
              [(SampleWDQS.too_many "120" 0, 120%Z); (SampleWDQS.too_many "0" 0, 0%Z);
               (SampleWDQS.too_many "600" 0, 600%Z)] [] []) as [H _].
  - by left.
  - reflexivity.
  - repeat constructor; try (by eexists); simpl; lia.
  - by apply H.
Defined.

(** * Further properties of [reqMediaWiki] *)

Section RequestCounts.
Local Open Scope list_scope.
Implicit Types (log evs : list event).

Lemma n_requests_app evs evs' : n_requests (evs ++ evs') = (n_requests evs + n_requests evs')%nat.
Proof. unfold n_requests. by rewrite List.filter_app, length_app. Qed.

Lemma sleeps_app evs evs' : sleeps (evs ++ evs') = sleeps evs ++ sleeps evs'.
Proof. apply omap_app. Qed.

(** The loop from its [nt+1]-th request on: [k] sleeps of [60*(nt+1)], ...,
    [60*(nt+k)] seconds, [k+1] requests, and as many replies taken as
    requests answered. *)
Lemma reqMediaWiki_loop_schedule (query : gmap string string) (url : string)
    (m : method) (attempts : Z) :
  (m = GET ∨ m = POST) →
  ∀ (script : list MW.response) nt log,
  ∃ taken k r,
    reqMediaWiki_loop query url m attempts nt script log
    = (drop taken script,
       log ++ flat_map (fun n => [Request m url query None; Sleep (60 * Z.of_nat n)])
                       (seq (S nt) k)
           ++ [Request m url query None], r)
    ∧ (k = 0%nat ∨ Z.of_nat (nt + k) ≤ attempts)%Z
    ∧ (taken ≤ length script)%nat
    ∧ (r = Blocked → taken = k ∧ taken = length script)
    ∧ (r ≠ Blocked → taken = S k).
Proof.
  intros Hm. induction script as [| resp script IH]; intros nt log.
  - exists 0%nat, 0%nat, Blocked.
    split; [by destruct Hm as [-> | ->] |]. split_and!; [by left | done | done | done].
  - destruct (raise_for_status (MW.status_code resp)) as [[] | e |] eqn:Hst.
    + rewrite reqMediaWiki_loop_last by done.
      destruct (MW.error (MW.body resp)) as [err |].
      * destruct (String.eqb (MW.code err) "ratelimited").
        -- destruct (Z.of_nat (S nt) <=? attempts)%Z eqn:Hle.
           ++ apply Z.leb_le in Hle.
              destruct (IH (S nt) (log ++ [Request m url query None;
                                           Sleep (60 * Z.of_nat (S nt))]))
                as (taken & k & r & -> & Hk & Htaken & Hblocked & Hdone).
              exists (S taken), (S k), r. split.
              { simpl. by rewrite <- !app_assoc. }
              split_and!.
              ** right. destruct Hk as [-> | Hk]; lia.
              ** simpl. lia.
              ** intros Hr. destruct (Hblocked Hr). simpl. lia.
              ** intros Hr. by rewrite (Hdone Hr).
           ++ exists 1%nat, 0%nat. eexists. split; [done |].
              split_and!; [by left | simpl; lia | done | done].
        -- exists 1%nat, 0%nat. eexists. split; [done |].
           split_and!; [by left | simpl; lia | done | done].
      * exists 1%nat, 0%nat. eexists. split; [done |].
        split_and!; [by left | simpl; lia | done | done].
    + exists 1%nat, 0%nat, (Raise e). split.
      { destruct Hm as [-> | ->]; cbn [reqMediaWiki_loop]; by rewrite Hst. }
      split_and!; [by left | simpl; lia | done | done].
    + unfold raise_for_status in Hst. by destruct (_ && _).
Qed.

Lemma n_requests_retries (m : method) url (query : gmap string string) nt k :
  n_requests (flat_map (fun n => [Request m url query None; Sleep (60 * Z.of_nat n)])
                       (seq nt k)) = k.
Proof.
  revert nt. induction k as [| k IH]; intros nt; [done |].
  simpl. unfold n_requests in *. simpl. by rewrite IH.
Qed.

Lemma sleeps_retries (m : method) url (query : gmap string string) nt k :
  sleeps (flat_map (fun n => [Request m url query None; Sleep (60 * Z.of_nat n)])
                   (seq nt k))
  = map (fun n => (60 * Z.of_nat n)%Z) (seq nt k).
Proof.
  revert nt. induction k as [| k IH]; intros nt; [done |].
  simpl. unfold sleeps in *. simpl. by rewrite IH.
Qed.

End RequestCounts.

Lemma strip_eqb_blank (project : string) :
  String.eqb (Str.strip project) "" = Str.blank project.
Proof.
  destruct (String.eqb_spec (Str.strip project) "") as [He | Hne].
  - symmetry. by apply strip_empty.
  - symmetry. apply not_true_iff_false. intros Hb. by apply Hne, strip_empty.
Qed.




(** X12. Whatever the service replies, [reqMediaWiki] sends at most
    [attempts + 1] requests (one request when [attempts] is negative).  Its
    sleeps are of 60, 120, ... seconds, one between any two requests; every
    request but a last unanswered one takes one reply, in order. *)
Theorem reqMediaWiki_sends_at_most_attempts_plus_one (query : gmap string string)
    (project : string) (m : method) (attempts : Z)
    (script : list MW.response) (log : list event) :
  ∃ taken evs r,
    reqMediaWiki query project m attempts script log
    = (drop taken script, (log ++ evs)%list, r)
    ∧ (n_requests evs ≤ Z.to_nat attempts + 1)%nat
    ∧ sleeps evs
      = map (fun n => (60 * Z.of_nat n)%Z) (seq 1 (n_requests evs - 1))
    ∧ (taken ≤ length script)%nat
    ∧ (r = Blocked → n_requests evs = S taken ∧ taken = length script)
    ∧ (r ≠ Blocked → n_requests evs = taken).
Proof.
  assert (Hnone : ∀ e, ∃ taken evs r,
            (script, log, Raise (A := MW.json) e)
            = (drop taken script, (log ++ evs)%list, r)
            ∧ (n_requests evs ≤ Z.to_nat attempts + 1)%nat
            ∧ sleeps evs
              = map (fun n => (60 * Z.of_nat n)%Z) (seq 1 (n_requests evs - 1))
            ∧ (taken ≤ length script)%nat
            ∧ (r = Blocked → n_requests evs = S taken ∧ taken = length script)
            ∧ (r ≠ Blocked → n_requests evs = taken)).
  { intros e. exists 0%nat, [], (Raise e). rewrite app_nil_r.
    split_and!; [done | by (unfold n_requests; simpl; lia) | done | lia | done | done]. }
  unfold reqMediaWiki.
  destruct (String.eqb (Str.strip project) ""); [apply Hnone |].
  destruct (match query !! "titles" with
            | Some titles => (MW.MW_LIMIT <? MW.split_count titles)%nat
            | None => false
            end); [apply Hnone |].
  assert (Hcases : (m = GET ∨ m = POST) ∨ ∃ name, m = Method name).
  { destruct m; eauto. }
  destruct Hcases as [Hm | [name ->]].
  - destruct (reqMediaWiki_loop_schedule query ("https://" ++ project ++ "/w/api.php")
                m attempts Hm script 0%nat log)
      as (taken & k & r & -> & Hk & Htaken & Hblocked & Hdone).
    eexists taken, _, r. split; [done |].
    rewrite n_requests_app, sleeps_app, n_requests_retries, sleeps_retries.
    change (n_requests [_]) with 1%nat. change (sleeps [_]) with (@nil Z).
    rewrite app_nil_r. replace (k + 1 - 1)%nat with k by lia.
    split_and!; [| done | done | |].
    + destruct Hk as [-> | Hk]; lia.
    + intros Hr. destruct (Hblocked Hr). lia.
    + intros Hr. rewrite (Hdone Hr). lia.
  - destruct script; apply Hnone.
Qed.

(** X13. An HTTP error status is not retried, whatever the body of the reply
    says: [reqMediaWiki] raises the HTTP error after the one request.  That
    holds for status 429 as well, which [reqWDQS] retries: here only the
    error code ["ratelimited"] of a reply with a good status is. *)
Theorem reqMediaWiki_raises_http_errors_without_retry (query : gmap string string)
    (project : string) (m : method) (attempts : Z)
    (r : MW.response) (rest : list MW.response) (log : list event) :
  (m = GET ∨ m = POST) →
  Str.blank project = false →
  sendable query →
  (400 ≤ MW.status_code r < 600)%Z →
  reqMediaWiki query project m attempts (r :: rest) log
  = (rest, (log ++ [Request m ("https://" ++ project ++ "/w/api.php") query None])%list,
     Raise (HTTPError (MW.status_code r))).
Proof.
  intros Hm Hb Hsend [Hlo Hhi].
  assert (Hproj : String.eqb (Str.strip project) "" = false)
    by (by rewrite strip_eqb_blank).
  pose proof (reqMediaWiki_after_retries query project m attempts [] r rest log)
    as Hrun.
  change ([] ++ r :: rest)%list with (r :: rest) in Hrun.
  rewrite Hrun; [| done | done | done | done | by left].
  unfold retries. simpl. rewrite app_nil_r.
  assert (Hst : raise_for_status (MW.status_code r) = Raise (HTTPError (MW.status_code r))).
  { unfold raise_for_status. apply Z.leb_le in Hlo. apply Z.ltb_lt in Hhi.
    by rewrite Hlo, Hhi. }
  destruct Hm as [-> | ->]; cbn [reqMediaWiki_loop]; by rewrite Hst.
Qed.

Lemma reqMediaWiki_raises_http_errors_witness :
  reqMediaWiki (links_query ["A"]) "en.wikipedia.org" GET 2
    [ {| MW.status_code := 429; MW.body := MW.body SampleMW.limited |};
      SampleMW.empty_page ] []
  = ([SampleMW.empty_page],
     [Request GET "https://en.wikipedia.org/w/api.php" (links_query ["A"]) None],
     Raise (HTTPError 429)).
Proof.
  apply (reqMediaWiki_raises_http_errors_without_retry (links_query ["A"])
           "en.wikipedia.org" GET 2);
    [by left | reflexivity | | simpl; lia].
  intros titles Ht. vm_compute in Ht. injection Ht as <-. vm_compute. lia.
Defined.

(** * Further properties of [normalizedTitle] *)

Section NormalizedTitleOrigin.
Variable quote : string → string.
Local Open Scope list_scope.

(** The scan ends on the value it started from or on the [to] of an entry. *)
Lemma normalized_loop_origin (cur : string) (l : list MW.norm_entry) :
  normalized_loop quote cur l = cur
  ∨ ∃ nn, nn ∈ l ∧ MW.n_to nn = normalized_loop quote cur l.
Proof.
  revert cur. induction l as [| nn l IH]; intros cur; [by left |].
  cbn [normalized_loop]. unfold normalized_step.
  set (cur' := if is_fromencoded nn && String.eqb (quote cur) (MW.n_from nn)
               then MW.n_to nn else cur).
  assert (Hcur' : cur' = cur ∨ cur' = MW.n_to nn).
  { unfold cur'. destruct (_ && _); auto. }
  destruct (String.eqb (MW.n_from nn) cur').
  - right. exists nn. split; [by left | done].
  - destruct (IH cur') as [Heq | (nn' & Hin & Hto)].
    + rewrite Heq. destruct Hcur' as [-> | ->]; [by left |].
      right. exists nn. split; [by left | done].
    + right. exists nn'. split; [by right | done].
Qed.

(** Entries that do not name the value leave it as it is. *)
Lemma normalized_loop_unmentioned (cur : string) (l : list MW.norm_entry) :
  (∀ nn, nn ∈ l → MW.n_from nn ≠ cur
                  ∧ (is_fromencoded nn = true → MW.n_from nn ≠ quote cur)) →
  normalized_loop quote cur l = cur.
Proof.
  induction l as [| nn l IH]; intros H; [done |].
  destruct (H nn) as [Hplain Henc]; [by left |].
  cbn [normalized_loop]. unfold normalized_step.
  assert (Hsame : (if is_fromencoded nn && String.eqb (quote cur) (MW.n_from nn)
                   then MW.n_to nn else cur) = cur).
  { destruct (is_fromencoded nn); [| done]. simpl.
    destruct (String.eqb_spec (quote cur) (MW.n_from nn)) as [He | _]; [| done].
    by destruct Henc. }
  rewrite Hsame.
  destruct (String.eqb_spec (MW.n_from nn) cur) as [He | _]; [done |].
  apply IH. intros nn' Hin. apply H. by right.
Qed.

Lemma redirect_loop_None (anorm : string) (l : list MW.redirect) :
  (∀ r, r ∈ l → MW.r_from r ≠ anorm) → redirect_loop anorm l = None.
Proof.
  induction l as [| r l IH]; intros H; [done |]. simpl.
  destruct (String.eqb_spec (MW.r_from r) anorm) as [He | _].
  - destruct (H r); [by left | done].
  - apply IH. intros r' Hin. apply H. by right.
Qed.

End NormalizedTitleOrigin.

(** X14. [normalizedTitle] returns only titles that the reply gives.
    [normalized] is never the title itself; when it is not null it is the
    [to] of a normalization entry.  [target], when not null, is the [to] of
    a redirect whose [from] is the normalized title (the title itself when
    [normalized] is null); redirects are followed for one step only.  A
    title that no normalization entry and no redirect names as [from] (nor,
    for an entry marked [fromencoded], as the percent-encoding of [from])
    gets null for both, and its pages are those that carry the title as it
    was passed. *)
Theorem normalizedTitle_returns_titles_of_the_reply
    (quote : string → string) (title : string) (q : MW.query_part) :
  (normalizedTitle quote title q).1 ≠ Some title
  ∧ (∀ n, (normalizedTitle quote title q).1 = Some n →
       ∃ nn, nn ∈ default [] (MW.normalized q) ∧ MW.n_to nn = n)
  ∧ (∀ t, (normalizedTitle quote title q).2 = Some t →
       ∃ r, r ∈ default [] (MW.redirects q) ∧ MW.r_to r = t
            ∧ MW.r_from r = default title (normalizedTitle quote title q).1)
  ∧ ((∀ nn, nn ∈ default [] (MW.normalized q) →
        MW.n_from nn ≠ title
        ∧ (is_fromencoded nn = true → MW.n_from nn ≠ quote title)) →
     (∀ r, r ∈ default [] (MW.redirects q) → MW.r_from r ≠ title) →
     normalizedTitle quote title q = (None, None)
     ∧ resolved quote title q = title).
Proof.
  unfold resolved, normalizedTitle. simpl.
  assert (Hdef : default title
                   (if String.eqb (anorm_of quote title q) title
                    then None else Some (anorm_of quote title q))
                 = anorm_of quote title q).
  { by destruct (String.eqb_spec (anorm_of quote title q) title). }
  split_and!.
  - destruct (String.eqb_spec (anorm_of quote title q) title); [done |]. congruence.
  - intros n Hn.
    destruct (String.eqb_spec (anorm_of quote title q) title) as [| Hne]; [done |].
    injection Hn as <-. unfold anorm_of in *.
    destruct (MW.normalized q) as [l |]; [| done]. simpl.
    destruct (normalized_loop_origin quote title l) as [Heq | (nn & Hin & Hto)];
      [done | by exists nn].
  - intros t Ht. rewrite Hdef.
    destruct (MW.redirects q) as [l |]; [| done]. simpl.
    apply redirect_loop_Some in Ht as (l1 & r & l2 & -> & Hfrom & Hto & _).
    exists r. split; [| done]. apply elem_of_app. right. by left.
  - intros Hnorm Hred.
    assert (Han : anorm_of quote title q = title).
    { unfold anorm_of. destruct (MW.normalized q) as [l |]; [| done].
      by apply normalized_loop_unmentioned. }
    rewrite Han, String.eqb_refl.
    assert (Htarget : match MW.redirects q with
                      | Some l => redirect_loop title l
                      | None => None
                      end = None).
    { destruct (MW.redirects q) as [l |]; [| done]. by apply redirect_loop_None. }
    by rewrite Htarget.
Qed.

(** * Titles and the limit of the MediaWiki API *)

Section JoinedTitles.
Local Open Scope list_scope.



End JoinedTitles.

Section TitlesLimit.
Variable quote : string → string.
Local Open Scope list_scope.



End TitlesLimit.



(** * The rows of [m_PageOutLinks] *)

Section ODictElements.
Context {A : Type}.
Local Open Scope list_scope.
Implicit Types (d : odict A) (v : A).

Lemma dict_get_elem_of (k : string) d v : dict_get k d = Some v → (k, v) ∈ d.
Proof.
  induction d as [| [k' v'] d IH]; [done |]. simpl.
  destruct (String.eqb_spec k k') as [-> | _].
  - intros [= ->]. by left.
  - intros H. right. by apply IH.
Qed.

Lemma elem_of_dict_set (k : string) v d (k' : string) v' :
  (k', v') ∈ dict_set k v d → (k' = k ∧ v' = v) ∨ (k', v') ∈ d.
Proof.
  induction d as [| [k0 v0] d IH]; simpl.
  - intros [= -> ->]%list_elem_of_singleton. by left.
  - destruct (String.eqb_spec k k0) as [-> | _].
    + intros [[= -> ->] | Hin]%elem_of_cons; [by left | right; by right].
    + intros [[= -> ->] | Hin]%elem_of_cons; [right; by left |].
      destruct (IH Hin) as [? | ?]; [by left | right; by right].
Qed.

Lemma keys_dict_set (k : string) v d :
  map fst (dict_set k v d)
  = if bool_decide (k ∈ map fst d) then map fst d else map fst d ++ [k].
Proof.
  induction d as [| [k0 v0] d IH]; [done |]. simpl.
  destruct (String.eqb_spec k k0) as [-> | Hne].
  - simpl. rewrite bool_decide_eq_true_2 by (by left). done.
  - simpl. rewrite IH. destruct (bool_decide (k ∈ map fst d)) eqn:Hk.
    + apply bool_decide_eq_true in Hk.
      rewrite bool_decide_eq_true_2 by (by right). done.
    + apply bool_decide_eq_false in Hk.
      rewrite bool_decide_eq_false_2; [done |].
      intros [? | ?]%elem_of_cons; done.
Qed.

Lemma NoDup_dict_set (k : string) v d :
  NoDup (map fst d) → NoDup (map fst (dict_set k v d)).
Proof.
  intros Hnd. rewrite keys_dict_set. destruct (bool_decide (k ∈ map fst d)) eqn:Hk.
  - done.
  - apply bool_decide_eq_false in Hk. apply NoDup_app. split_and!; [done | | apply NoDup_singleton].
    intros x Hx ->%list_elem_of_singleton. done.
Qed.

End ODictElements.

Section RowsConsistent.
Variable quote : string → string.
Local Open Scope list_scope.
Implicit Types (output : odict links_row) (titles ts : list string).

Lemma page_status_cases (page : MW.page) : page_status page ∈ link_statuses.
Proof.
  unfold page_status, link_statuses.
  destruct (MW.invalid page); [set_solver |].
  destruct (MW.missing page); [set_solver |].
  destruct (MW.pageid page); set_solver.
Qed.

Lemma rows_consistent_set titles output (title : string) row :
  title ∈ titles → row_consistent row → rows_consistent titles output →
  rows_consistent titles (dict_set title row output).
Proof.
  intros Hin Hrow [Hnd Hrows]. split; [by apply NoDup_dict_set |].
  intros k r [[-> ->] | Hk]%elem_of_dict_set; [done | by apply Hrows].
Qed.

Lemma absorb_page_consistent titles first (title : string) normalized target
    (page : MW.page) output o :
  title ∈ titles → rows_consistent titles output →
  absorb_page first title normalized target page output = Return o →
  rows_consistent titles o.
Proof.
  intros Hin Hinv. unfold absorb_page.
  set (output1 := if first then dict_set title _ output else output).
  assert (Hinv1 : rows_consistent titles output1).
  { unfold output1. destruct first; [| done].
    apply rows_consistent_set; [done | | done].
    split; [apply page_status_cases |]. simpl.
    destruct (String.eqb_spec (page_status page) "OK"); done. }
  clearbody output1. destruct (MW.links page) as [links |]; [| by intros [= <-]].
  destruct (dict_get title output1) as [row |] eqn:Hget; [| done].
  destruct (row_links row) as [old |] eqn:Hold; [| done].
  intros [= <-]. apply rows_consistent_set; [done | | done].
  apply dict_get_elem_of in Hget. destruct Hinv1 as [_ Hrows].
  destruct (Hrows _ _ Hget) as [_ [Hst Hrow]]. rewrite Hold in Hrow.
  destruct Hrow as [Hok Hn]. split; [done |]. simpl. split; [done |].
  rewrite length_app. lia.
Qed.

Lemma absorb_pages_consistent titles first (title : string) normalized target anorm
    (pages : list MW.page) :
  title ∈ titles →
  ∀ output o, rows_consistent titles output →
    absorb_pages first title normalized target anorm pages output = Return o →
    rows_consistent titles o.
Proof.
  intros Hin. induction pages as [| page pages IH]; intros output o Hinv.
  - by intros [= <-].
  - simpl. destruct (String.eqb anorm (MW.title page)).
    + destruct (absorb_page _ _ _ _ _ _) as [o1 | |] eqn:H1; [| done | done].
      simpl. apply IH. by eapply absorb_page_consistent.
    + simpl. by apply IH.
Qed.

Lemma absorb_consistent titles first (q : MW.query_part) ts :
  (∀ title, title ∈ ts → title ∈ titles) →
  ∀ output o, rows_consistent titles output →
    absorb quote first q ts output = Return o → rows_consistent titles o.
Proof.
  induction ts as [| title ts IH]; intros Hsub output o Hinv.
  - by intros [= <-].
  - simpl. destruct (absorb_title quote first q title output) as [o1 | |] eqn:H1;
      [| done | done].
    simpl. apply IH; [intros t Ht; apply Hsub; by right |].
    unfold absorb_title in H1. destruct (normalizedTitle quote title q) as [n t].
    destruct (MW.pages q) as [pages |]; [| done].
    eapply absorb_pages_consistent; [| exact Hinv | exact H1].
    apply Hsub. by left.
Qed.

Lemma links_loop_consistent titles project :
  ∀ fuel (query : gmap string string) output (script : list MW.response) log
    script' log' o,
    rows_consistent titles output →
    links_loop quote fuel titles project query output script log
    = (script', log', Return (Some (Frame o))) →
    rows_consistent titles o.
Proof.
  induction fuel as [| fuel IH]; intros query output script log script' log' o Hinv;
    [done |].
  cbn [links_loop].
  destruct (reqMediaWiki query project GET default_attempts script log)
    as [[script1 log1] [j | e |]]; [| done | done].
  destruct (MW.query j) as [q |]; [| done].
  destruct (absorb quote _ q titles output) as [o1 | |] eqn:Habs; [| done | done].
  assert (Hinv1 : rows_consistent titles o1).
  { eapply absorb_consistent; [| exact Hinv | exact Habs]. done. }
  destruct (MW.continue j) as [c |].
  - by apply IH.
  - by intros [= _ _ <-].
Qed.

End RowsConsistent.

(** X16. Whatever the service replies, the data frame that [m_PageOutLinks]
    returns for a list of titles that fits in one chunk has one row per
    title at most and rows for the titles asked for only.  In every row the
    status is one of "invalid", "missing", "no pageid" and "OK", the links
    are listed exactly when the status is "OK", and [nlinks] is the number
    of links listed (0 when there is no list), over all the pages of the
    continuation. *)
Theorem m_PageOutLinks_rows_are_consistent (quote : string → string)
    (titles : list string) (project : string)
    (script script' : list MW.response) (log log' : list event)
    (output : odict links_row) :
  links_direct quote titles project script log
  = (script', log', Return (Some (Frame output))) →
  NoDup (map fst output)
  ∧ ∀ title row,
      (title, row) ∈ output →
      title ∈ titles
      ∧ row_status row ∈ link_statuses
      ∧ match row_links row with
        | Some l => row_status row = "OK" ∧ row_nlinks row = length l
        | None => row_status row ≠ "OK" ∧ row_nlinks row = 0%nat
        end.
Proof.
  intros Hrun. unfold links_direct in Hrun.
  apply links_loop_consistent in Hrun.
  - destruct Hrun as [Hnd Hrows]. split; [done |].
    intros title row Hin. destruct (Hrows title row Hin) as [Ht [Hst Hrow]]. done.
  - split; [constructor |]. intros title row Hin. by apply elem_of_nil in Hin.
Qed.

Lemma m_PageOutLinks_rows_are_consistent_witness :
  links_direct SampleTitle.quote ["A"] "en.wikipedia.org" SampleLinks.three_pages []
  = ([], requests "en.wikipedia.org" (links_query ["A"]) SampleLinks.three_pages,
     Return (Some (Frame [("A", {| row_status := "OK"; row_normalized := None;
                                   row_target := None; row_nlinks := 4;
                                   row_links := Some ["L1"; "L2"; "L3"; "L4"] |})])))
  ∧ NoDup (map fst [("A", {| row_status := "OK"; row_normalized := None;
                             row_target := None; row_nlinks := 4;
                             row_links := Some ["L1"; "L2"; "L3"; "L4"] |})]).
Proof.
  split; [reflexivity |].
  apply (m_PageOutLinks_rows_are_consistent SampleTitle.quote ["A"] "en.wikipedia.org"
           SampleLinks.three_pages [] [] _ _ eq_refl).
Defined.

(** * [w_isValid] over chunks *)

Section IsValidChunks.
Variable http2time : string → option Z.
Context {Row : Type}.
Variable frame_of : WDQS.body → list Row.
Local Open Scope list_scope.
Implicit Types (b el : list string) (x : WDQS.exchange) (xs rest : list WDQS.exchange).

Lemma reqWDQS_csv (q : string) x rest (log : list event) :
  csv_reply x →
  reqWDQS http2time q POST "csv" (x :: rest) log
  = (rest, log ++ [Request POST WDQS.url {[ "query" := q ]} (Some "text/csv")],
     Return (WDQS.Csv (WDQS.text (WDQS.reply x)))).
Proof.
  intros (H429 & Hst & rtype & Hct & Hpre). unfold reqWDQS.
  change (wdqs_format_of "csv") with (Return (A := string) "text/csv").
  cbv beta iota. rewrite reqWDQS_loop_final by (by right || done).
  rewrite Hst. simpl bind. unfold decode. rewrite Hct. simpl. by rewrite Hpre.
Qed.

Lemma w_isValid_direct depth b c (script : list WDQS.exchange) (log : list event) :
  checkEntities (Many b) = Return b → (length b ≤ c)%nat →
  w_isValid http2time frame_of depth (Many b) c script log
  = (let '(script, log, d) :=
       reqWDQS http2time (isValid_query b) POST "csv" script log in
     (script, log, d <- d ;; Return (Some (Frame (frame_of d))))).
Proof.
  intros Hck Hlen.
  assert (Hdirect : (c <? length b)%nat = false) by (apply Nat.ltb_ge; lia).
  destruct depth; simpl; by rewrite Hck, Hdirect.
Qed.

Lemma batches_single (l : list string) c :
  l ≠ [] → (length l ≤ c)%nat → batches l c = [l].
Proof.
  intros Hne Hlen. unfold batches.
  assert (Hc : (1 ≤ c)%nat) by (destruct l; [done | simpl in Hlen; lia]).
  assert (H1 : ceil_div (length l) c = 1%nat).
  { assert (H0 : (0 < ceil_div (length l) c)%nat).
    { apply ceil_div_lt; [done |]. destruct l; [done | simpl; lia]. }
    assert (H2 : ¬ (1 < ceil_div (length l) c)%nat).
    { intros H. apply ceil_div_lt in H; [lia | done]. }
    lia. }
  rewrite H1. simpl. unfold slice. simpl. rewrite Nat.add_0_r, Nat.sub_0_r.
  by rewrite take_ge.
Qed.

(** A worker that answers each batch from one CSV reply. *)
Lemma over_batches_csv (f : worker (list WDQS.exchange * list event) unit Row) c
    (bs : list (list string)) :
  (∀ b x rest log, b ∈ bs → csv_reply x →
     f b c (x :: rest, log)
     = ((rest, log ++ [isValid_request b]),
        Return (Some (Frame (frame_of (WDQS.Csv (WDQS.text (WDQS.reply x)))))))) →
  ∀ xs, length bs = length xs → Forall csv_reply xs →
  ∀ acc rest log calls, ∃ calls',
    over_batches f c false bs (Some (Frame acc)) (xs ++ rest, log) calls
    = ((rest, log ++ map isValid_request bs), calls',
       Return (Some (Frame (acc ++ concat (map (fun x => frame_of (WDQS.Csv (WDQS.text (WDQS.reply x)))) xs))))).
Proof.
  induction bs as [| b bs IH]; intros Hf xs Hlen Hxs acc rest log calls.
  - destruct xs; [| done]. simpl. rewrite !app_nil_r. by eexists.
  - destruct xs as [| x xs]; [done |]. apply Forall_cons_1 in Hxs as [Hx Hxs].
    simpl. rewrite (Hf b x (xs ++ rest) log) by (by left || done).
    simpl. unfold concat_frames.
    destruct (IH ltac:(intros; apply Hf; [by right | done]) xs ltac:(by injection Hlen)
                Hxs (acc ++ frame_of (WDQS.Csv (WDQS.text (WDQS.reply x)))) rest
                (log ++ [isValid_request b])
                (calls ++ [(b, Return (Some (Frame (frame_of (WDQS.Csv (WDQS.text (WDQS.reply x)))))))]))
      as [calls' ->].
    exists calls'. by rewrite <- !app_assoc.
Qed.

End IsValidChunks.

(** X17. [w_isValid] sends one query per batch of the checked list.  When the
    service answers each request with a good CSV reply, the function takes
    as many replies as there are batches of [chunksize] entities, sends for
    each batch, in order, one POST request whose SPARQL text lists the
    entities of that batch, and returns the rows of the replies in that
    order.  A list that fits in one chunk is one batch. *)
Theorem w_isValid_sends_one_query_per_batch (http2time : string → option Z)
    {Row : Type} (frame_of : WDQS.body → list Row) (depth : nat)
    (E : strs) (el : list string) (c : nat)
    (xs rest : list WDQS.exchange) (log : list event) :
  checkEntities E = Return el →
  (1 ≤ c)%nat →
  length xs = length (batches el c) →
  Forall csv_reply xs →
  w_isValid http2time frame_of (S depth) E c (xs ++ rest)%list log
  = (rest, (log ++ map isValid_request (batches el c))%list,
     Return (Some (Frame (concat (map (fun x => frame_of (WDQS.Csv (WDQS.text (WDQS.reply x))))
                                      xs))))).
Proof.
  intros Hck Hc Hlen Hxs.
  assert (Hne : el ≠ []).
  { destruct (checkEntities_Many E el Hck) as [l Hl].
    pose proof (checkEntities_Return l el Hl) as (-> & Hne & _).
    by apply dedup_nonempty. }
  destruct (decide (length el ≤ c)%nat) as [Hfit | Hover].
  - rewrite batches_single in * by done.
    destruct xs as [| x [| x' xs]]; [done | | done].
    apply Forall_cons_1 in Hxs as [Hx _].
    assert (Hdirect : (c <? length el)%nat = false) by (apply Nat.ltb_ge; lia).
    simpl. rewrite Hck, Hdirect. rewrite reqWDQS_csv by done.
    simpl. by rewrite app_nil_r.
  - assert (Hchunk : (c <? length el)%nat = true) by (apply Nat.ltb_lt; lia).
    cbn [w_isValid]. rewrite Hck, Hchunk.
    set (f := fun (x_list : list string) (chunksize : nat)
                  (w : list WDQS.exchange * list event) =>
                let '(script, log, d) :=
                  w_isValid http2time frame_of depth (Many x_list) chunksize w.1 w.2 in
                ((script, log), d)).
    assert (Hf : ∀ b x rest log, b ∈ batches el c → csv_reply x →
              f b c (x :: rest, log)
              = ((rest, (log ++ [isValid_request b])%list),
                 Return (Some (Frame (frame_of (WDQS.Csv (WDQS.text (WDQS.reply x)))))))).
    { intros b x rest0 log0 Hb Hx. unfold f. simpl fst. simpl snd.
      rewrite w_isValid_direct.
      - by rewrite reqWDQS_csv.
      - by apply (checkEntities_batch E el c).
      - by apply (batch_length el). }
    rewrite doChunks_over_batches by done.
    destruct (batches_cons el c Hc Hne) as (b & bs & Hb). rewrite Hb in *.
    destruct xs as [| x xs]; [done |]. apply Forall_cons_1 in Hxs as [Hx Hxs].
    cbn [over_batches app]. rewrite (Hf b x) by (by left || done).
    destruct (over_batches_csv frame_of f c bs
                ltac:(intros; apply Hf; [by right | done]) xs
                ltac:(by injection Hlen) Hxs
                (frame_of (WDQS.Csv (WDQS.text (WDQS.reply x)))) rest
                (log ++ [isValid_request b])%list
                [(b, Return (Some (Frame (frame_of (WDQS.Csv (WDQS.text (WDQS.reply x)))))))])
      as [calls' ->].
    simpl. by rewrite <- app_assoc.
Qed.

Lemma w_isValid_sends_one_query_per_batch_witness :
  w_isValid SampleWDQS.http2time (fun d => [d]) 1 (Many ["Q1"; "Q2"; " Q1"; "Q3"]) 2
    [SampleWDQS.ok "text/csv" "a"; SampleWDQS.ok "text/csv; charset=utf-8" "b";
     SampleWDQS.ok "text/csv" "c"] []
  = ([SampleWDQS.ok "text/csv" "c"],
     [isValid_request ["Q1"; "Q2"]; isValid_request ["Q3"]],
     Return (Some (Frame [WDQS.Csv "a"; WDQS.Csv "b"]))).
Proof.
  apply (w_isValid_sends_one_query_per_batch SampleWDQS.http2time (fun d => [d]) 0
           (Many ["Q1"; "Q2"; " Q1"; "Q3"]) ["Q1"; "Q2"; "Q3"] 2
           [SampleWDQS.ok "text/csv" "a"; SampleWDQS.ok "text/csv; charset=utf-8" "b"]
           [SampleWDQS.ok "text/csv" "c"] []).
  - reflexivity.
  - lia.
  - reflexivity.
  - repeat constructor; try done; by eexists.
Defined.

(** * [reqMediaWiki] on replies of any kind *)

Section ReqMediaWikiOnFacts.
Context {R J : Type}.
Variable status_code : R → Z.
Variable body : R → J.
Variable error : J → option MW.api_error.
Local Open Scope list_scope.
Implicit Types (query : gmap string string) (script rest : list R) (log : list event).

Lemma reqMediaWiki_on_loop_takes_reply query url (m : method) attempts rest :
  ∀ nt log rest' log' j,
    reqMediaWiki_on_loop status_code body error query url m attempts nt rest log
    = (rest', log', Return j) →
    (length rest' < length rest)%nat.
Proof.
  induction rest as [| r rest IH]; intros nt log rest' log' j Hrun.
  - destruct m; simpl in Hrun; done.
  - destruct m; cbn [reqMediaWiki_on_loop] in Hrun; [| | done];
      (destruct (raise_for_status (status_code r)); [| done | done]);
      (destruct (error (body r)) as [err |];
       [| injection Hrun as <- _ _; simpl; lia]);
      (destruct (String.eqb (MW.code err) "ratelimited"); [| done]);
      (destruct (Z.of_nat (S nt) <=? attempts)%Z; [| done]);
      apply IH in Hrun; simpl; lia.
Qed.

Lemma reqMediaWiki_on_takes_reply query project (m : method) attempts rest log
    rest' log' j :
  reqMediaWiki_on status_code body error query project m attempts rest log
  = (rest', log', Return j) →
  (length rest' < length rest)%nat.
Proof.
  unfold reqMediaWiki_on. destruct (String.eqb (Str.strip project) ""); [done |].
  destruct (match query !! "titles" with
            | Some titles => (MW.MW_LIMIT <? MW.split_count titles)%nat
            | None => false
            end); [done |].
  apply reqMediaWiki_on_loop_takes_reply.
Qed.

(** A good reply without ["error"] is returned after the one request. *)
Lemma reqMediaWiki_on_good query project attempts (r : R) rest log :
  Str.blank project = false → sendable query →
  raise_for_status (status_code r) = Return tt → error (body r) = None →
  reqMediaWiki_on status_code body error query project GET attempts (r :: rest) log
  = (rest, log ++ [Request GET ("https://" ++ project ++ "/w/api.php") query None],
     Return (body r)).
Proof.
  intros Hb Hsend Hst Herr. unfold reqMediaWiki_on. rewrite strip_eqb_blank, Hb.
  assert (Hlim : match query !! "titles" with
                 | Some titles => (MW.MW_LIMIT <? MW.split_count titles)%nat
                 | None => false
                 end = false).
  { destruct (query !! "titles") as [titles |] eqn:Ht; [| done].
    apply Nat.ltb_ge. by apply Hsend. }
  rewrite Hlim. cbn [reqMediaWiki_on_loop]. by rewrite Hst, Herr.
Qed.

End ReqMediaWikiOnFacts.

(** On the replies of [MW] it is [reqMediaWiki]. *)
Lemma reqMediaWiki_on_plain (query : gmap string string) (project : string)
    (m : method) (attempts : Z) (script : list MW.response) (log : list event) :
  reqMediaWiki_on MW.status_code MW.body MW.error query project m attempts script log
  = reqMediaWiki query project m attempts script log.
Proof.
  unfold reqMediaWiki_on, reqMediaWiki.
  destruct (String.eqb (Str.strip project) ""); [done |].
  destruct (match query !! "titles" with
            | Some titles => (MW.MW_LIMIT <? MW.split_count titles)%nat
            | None => false
            end); [done |].
  generalize 0%nat as nt. revert log.
  induction script as [| r script IH]; intros log nt.
  - by destruct m.
  - destruct m; cbn [reqMediaWiki_on_loop reqMediaWiki_loop]; [| | done];
      (destruct (raise_for_status (MW.status_code r)); [| done | done]);
      (destruct (MW.error (MW.body r)) as [err |]; [| done]);
      (destruct (String.eqb (MW.code err) "ratelimited"); [| done]);
      (destruct (Z.of_nat (S nt) <=? attempts)%Z; [| done]);
      apply IH.
Qed.

(** * m_Search *)

Section SortedByIndex.
Local Open Scope list_scope.
Implicit Types (x y : search_row) (l : list search_row).

Lemma insert_by_index_perm x l : insert_by_index x l ≡ₚ x :: l.
Proof.
  induction l as [| y l IH]; [done |]. simpl.
  destruct (s_index x <=? s_index y)%Z; [done |].
  rewrite IH. apply Permutation_swap.
Qed.

Lemma sorted_by_index_perm l : sorted_by_index l ≡ₚ l.
Proof.
  induction l as [| x l IH]; [done |]. simpl.
  by rewrite insert_by_index_perm, IH.
Qed.

Lemma length_sorted_by_index l : length (sorted_by_index l) = length l.
Proof. by rewrite sorted_by_index_perm. Qed.

Lemma elem_of_sorted_by_index x l : x ∈ sorted_by_index l ↔ x ∈ l.
Proof. by rewrite sorted_by_index_perm. Qed.

Lemma ascending_insert x l : ascending l → ascending (insert_by_index x l).
Proof.
  induction l as [| y l IH]; intros Hl.
  - simpl. split; [| done]. intros y Hy. by apply elem_of_nil in Hy.
  - simpl. destruct Hl as [Hy Hl]. destruct (s_index x <=? s_index y)%Z eqn:Hle.
    + apply Z.leb_le in Hle. split; [| by split].
      intros z [-> | Hz]%elem_of_cons; [done |]. specialize (Hy z Hz). lia.
    + apply Z.leb_gt in Hle. split; [| by apply IH].
      intros z Hz. rewrite (insert_by_index_perm x l) in Hz.
      apply elem_of_cons in Hz as [-> | Hz]; [lia | by apply Hy].
Qed.

Lemma ascending_sorted l : ascending (sorted_by_index l).
Proof. induction l as [| x l IH]; [done |]. simpl. by apply ascending_insert. Qed.

Lemma ascending_by_index l : ascending l → by_index l.
Proof.
  induction l as [| x l IH]; intros Hl i j a b Hij Ha Hb; [done |].
  destruct Hl as [Hx Hl]. destruct j as [| j]; [lia |]. simpl in Hb.
  destruct i as [| i].
  - simpl in Ha. injection Ha as <-. apply Hx. by eapply list_elem_of_lookup_2.
  - simpl in Ha. apply (IH Hl i j); [lia | done | done].
Qed.

(** The sort is stable: the rows of one rank keep the order they had. *)
Lemma insert_by_index_stable (k : Z) x l :
  filter (fun r => s_index r = k) (insert_by_index x l)
  = filter (fun r => s_index r = k) (x :: l).
Proof.
  induction l as [| y l IH]; [done |]. simpl.
  destruct (s_index x <=? s_index y)%Z eqn:Hle; [done |].
  apply Z.leb_gt in Hle. rewrite filter_cons, IH, !filter_cons.
  destruct (decide (s_index y = k)), (decide (s_index x = k)); try done. lia.
Qed.

Lemma sorted_by_index_stable (k : Z) l :
  filter (fun r => s_index r = k) (sorted_by_index l)
  = filter (fun r => s_index r = k) l.
Proof.
  induction l as [| x l IH]; [done |]. simpl.
  by rewrite insert_by_index_stable, !filter_cons, IH.
Qed.

End SortedByIndex.

Section SearchFacts.
Local Open Scope list_scope.
Implicit Types (output o : list search_row) (pages : list MWX.page).

Lemma search_row_of_consistent (index : Z) (page : MWX.page) :
  search_row_consistent (search_row_of index page).
Proof.
  unfold search_row_consistent, search_row_of, pageprops_status, search_statuses. simpl.
  destruct (MWX.props page) as [pp |]; simpl.
  - destruct (MWX.wikibase_item pp) as [item |]; simpl.
    + destruct (MWX.disambiguation pp); simpl.
      * split; [set_solver |]. split; [by right | by eexists].
      * split; [set_solver |]. split; [by left | by eexists].
    + split; [set_solver |]. split; [by intros [? ?] | by intros [? | ?]].
  - split; [set_solver |]. split; [by intros [? ?] | by intros [? | ?]].
Qed.

Lemma search_pages_spec (limit : Z) pages :
  ∀ output o (getlimit : bool),
    below limit output → Forall search_row_consistent output →
    search_pages limit pages output = Return (o, getlimit) →
    Forall search_row_consistent o
    ∧ (Z.of_nat (length o) ≤ Z.max limit 1)%Z
    ∧ (if getlimit then o ≠ [] else below limit o).
Proof.
  induction pages as [| page pages IH]; intros output o getlimit Hbelow Hrows.
  - intros [= <- <-]. split; [done |]. split; [| done].
    destruct Hbelow as [-> | Hlt]; simpl; lia.
  - simpl. destruct (MWX.index page) as [index |]; [| done].
    assert (Hrows' : Forall search_row_consistent (output ++ [search_row_of index page])).
    { apply Forall_app. split; [done |]. constructor; [| done].
      apply search_row_of_consistent. }
    destruct (limit <=? _)%Z eqn:Hle.
    + intros [= <- <-]. split; [done |]. split.
      * rewrite length_app. simpl. destruct Hbelow as [-> | Hlt]; simpl; lia.
      * by destruct output.
    + apply Z.leb_gt in Hle. apply IH; [by right | done].
Qed.

Lemma search_loop_spec project (limit : Z) :
  ∀ fuel (query : gmap string string) output (script : list MWX.response) log
    script' log' o,
    below limit output → Forall search_row_consistent output →
    search_loop fuel project query limit output script log = (script', log', Return o) →
    Forall search_row_consistent o ∧ (Z.of_nat (length o) ≤ Z.max limit 1)%Z.
Proof.
  induction fuel as [| fuel IH];
    intros query output script log script' log' o Hbelow Hrows; [done |].
  cbn [search_loop].
  destruct (reqMediaWikiX query project script log) as [[script1 log1] [j | e |]];
    [| done | done].
  assert (Hout : Forall search_row_consistent output
                 ∧ (Z.of_nat (length output) ≤ Z.max limit 1)%Z).
  { split; [done |]. destruct Hbelow as [-> | Hlt]; simpl; lia. }
  destruct (MWX.query j) as [q |]; [| by intros [= _ _ <-]].
  destruct (MWX.pages q) as [pages |]; [| done].
  destruct (search_pages limit pages output) as [[o1 getlimit] | |] eqn:Hpages;
    [| done | done].
  destruct (search_pages_spec limit pages output o1 getlimit Hbelow Hrows Hpages)
    as (Hrows1 & Hlen1 & Hlim1).
  destruct getlimit; [by intros [= _ _ <-] |].
  destruct (MWX.continue j) as [c |]; [| by intros [= _ _ <-]].
  by apply IH.
Qed.

(** The loop never stops for want of fuel: each iteration takes a reply. *)
Lemma search_loop_fuel project (limit : Z) :
  ∀ fuel1 fuel2 (query : gmap string string) output (script : list MWX.response) log,
    (length script < fuel1)%nat → (length script < fuel2)%nat →
    search_loop fuel1 project query limit output script log
    = search_loop fuel2 project query limit output script log.
Proof.
  induction fuel1 as [| fuel1 IH]; intros fuel2 query output script log H1 H2; [lia |].
  destruct fuel2 as [| fuel2]; [lia |].
  cbn [search_loop].
  destruct (reqMediaWikiX query project script log)
    as [[script' log'] [j | e |]] eqn:Hreq; [| done | done].
  apply reqMediaWiki_on_takes_reply in Hreq.
  destruct (MWX.query j) as [q |]; [| done].
  destruct (MWX.pages q) as [pages |]; [| done].
  destruct (search_pages limit pages output) as [[o1 getlimit] | |]; [| done | done].
  destruct getlimit; [done |].
  destruct (MWX.continue j) as [c |]; [| done].
  apply IH; lia.
Qed.

Lemma search_rows_cons (page : MWX.page) pages (index : Z) :
  MWX.index page = Some index →
  search_rows (page :: pages) = search_row_of index page :: search_rows pages.
Proof. intros H. unfold search_rows. cbn [omap list_omap]. by rewrite H. Qed.

(** On pages that reach the limit the loop over the pages stops at the
    [limit]-th row. *)
Lemma search_pages_cut (limit : Z) pages :
  Forall (fun page => is_Some (MWX.index page)) pages →
  ∀ output,
    (Z.of_nat (length output) < limit ≤ Z.of_nat (length output + length pages))%Z →
    search_pages limit pages output
    = Return (output ++ take (Z.to_nat limit - length output) (search_rows pages), true).
Proof.
  induction 1 as [| page pages [index Hindex] Hpages IH]; intros output Hlim.
  - simpl in Hlim. lia.
  - rewrite (search_rows_cons page pages index Hindex).
    cbn [search_pages]. rewrite Hindex.
    destruct (limit <=? _)%Z eqn:Hle.
    + apply Z.leb_le in Hle. rewrite length_app in Hle. simpl in Hle.
      replace (Z.to_nat limit - length output)%nat with 1%nat by lia.
      simpl. by rewrite take_0.
    + apply Z.leb_gt in Hle. rewrite length_app in Hle. simpl in Hle.
      rewrite IH by (rewrite length_app; simpl in *; lia).
      rewrite length_app. simpl.
      replace (Z.to_nat limit - length output)%nat
        with (S (Z.to_nat limit - (length output + 1)))%nat by lia.
      simpl. by rewrite <- app_assoc.
Qed.

Lemma length_search_rows pages :
  Forall (fun page => is_Some (MWX.index page)) pages →
  length (search_rows pages) = length pages.
Proof.
  induction 1 as [| page pages [index Hindex] _ IH]; [done |].
  rewrite (search_rows_cons page pages index Hindex). simpl. by f_equal.
Qed.

Lemma search_query_sendable (string mode profile : String.string) (limit : Z)
    (query : gmap String.string String.string) :
  search_query string mode profile limit = Return query → sendable query.
Proof.
  unfold search_query. intros Hq titles Ht.
  destruct (String.eqb mode "title"); [| destruct (String.eqb mode "text"); [| done]];
    injection Hq as <-; done.
Qed.

End SearchFacts.

Section SearchRuns.
Local Open Scope list_scope.
Implicit Types (output o : list search_row) (pages : list MWX.page).

(** Pages that do not reach the limit are all taken. *)
Lemma search_pages_all (limit : Z) pages :
  Forall (fun page => is_Some (MWX.index page)) pages →
  ∀ output,
    (Z.of_nat (length output + length pages) < limit)%Z →
    search_pages limit pages output = Return (output ++ search_rows pages, false).
Proof.
  induction 1 as [| page pages [index Hindex] Hpages IH]; intros output Hlim.
  - simpl. by rewrite app_nil_r.
  - rewrite (search_rows_cons page pages index Hindex).
    cbn [search_pages]. rewrite Hindex. simpl in Hlim.
    assert (Hgt : (limit <=? Z.of_nat (length (output ++ [search_row_of index page])))%Z
                  = false).
    { apply Z.leb_gt. rewrite length_app. simpl. lia. }
    rewrite Hgt, IH by (rewrite length_app; simpl; lia).
    by rewrite <- app_assoc.
Qed.

Lemma m_Search_unfold (string mode project profile : String.string) (limit : Z)
    (query : gmap String.string String.string)
    (script : list MWX.response) (log : list event) :
  Str.blank string = false →
  search_query string mode profile limit = Return query →
  m_Search string mode project profile limit script log
  = (let '(script, log, output) :=
       search_loop (S (length script)) project query limit [] script log in
     (script, log,
      output <- output ;;
      Return (if (length output =? 0)%nat then None else Some (sorted_by_index output)))).
Proof.
  intros Hb Hq. unfold m_Search. by rewrite strip_eqb_blank, Hb, Hq.
Qed.

End SearchRuns.


(** X19. Whatever the service replies, a data frame that [m_Search] returns has
    at least one row and at most [limit] rows (one row when [limit] is below
    one); its rows are in the order of their ranks ([index]); and in every
    row the status is one of "no_pageprops", "no_wikibase_item",
    "disambiguation" and "OK", the entity being given exactly for the last
    two. *)
Theorem m_Search_rows_within_limit_and_sorted
    (string mode project profile : String.string) (limit : Z)
    (script script' : list MWX.response) (log log' : list event)
    (rows : list search_row) :
  m_Search string mode project profile limit script log
  = (script', log', Return (Some rows)) →
  rows ≠ []
  ∧ (Z.of_nat (length rows) ≤ Z.max limit 1)%Z
  ∧ by_index rows
  ∧ Forall search_row_consistent rows.
Proof.
  unfold m_Search. destruct (String.eqb (Str.strip string) ""); [done |].
  destruct (search_query string mode profile limit) as [query | |]; [| done | done].
  destruct (search_loop _ project query limit [] script log)
    as [[script1 log1] [output | e |]] eqn:Hloop; [| done | done].
  simpl. destruct (length output =? 0)%nat eqn:Hlen; [done |].
  intros [= _ _ <-].
  apply search_loop_spec in Hloop as [Hrows Hmax]; [| by left | done].
  split_and!.
  - intros Hnil. apply (f_equal length) in Hnil.
    rewrite length_sorted_by_index in Hnil. simpl in Hnil. by rewrite Hnil in Hlen.
  - by rewrite length_sorted_by_index.
  - apply ascending_by_index, ascending_sorted.
  - apply Forall_forall. intros row Hrow.
    apply (proj1 (elem_of_sorted_by_index _ _)) in Hrow.
    rewrite Forall_forall in Hrows. by apply Hrows.
Qed.

Lemma m_Search_rows_within_limit_witness :
  m_Search "Max Planck" "title" "en.wikipedia.org" "engine_autoselect" 2
           [SampleSearch.reply SampleSearch.three (Some {[ "continue" := "||" ]})] []
  = ([],
     [Request GET "https://en.wikipedia.org/w/api.php"
        (list_to_map
           [("format", "json"); ("formatversion", "2"); ("redirects", "1");
            ("action", "query"); ("generator", "prefixsearch");
            ("gpsnamespace", "0"); ("gpsprofile", "engine_autoselect");
            ("gpslimit", "2"); ("prop", "pageprops");
            ("ppprop", "wikibase_item|disambiguation");
            ("gpssearch", "Max Planck")]) None],
     Return (Some [ {| s_index := 1; s_title := "Max Planck"; s_status := "OK";
                       s_entity := Some "Q9021" |};
                    {| s_index := 2; s_title := "Max Planck Society"; s_status := "OK";
                       s_entity := Some "Q158085" |} ]))
  ∧ by_index [ {| s_index := 1; s_title := "Max Planck"; s_status := "OK";
                  s_entity := Some "Q9021" |};
               {| s_index := 2; s_title := "Max Planck Society"; s_status := "OK";
                  s_entity := Some "Q158085" |} ].
Proof.
  split; [reflexivity |].
  apply (m_Search_rows_within_limit_and_sorted "Max Planck" "title" "en.wikipedia.org"
           "engine_autoselect" 2
           [SampleSearch.reply SampleSearch.three (Some {[ "continue" := "||" ]})]
           [] [] _ _ eq_refl).
Defined.

(** X20. One good reply to [m_Search].  Without ["query"] nothing was found:
    [None] is returned.  With at least [limit] pages, the rows are those of
    the first [limit] pages in the order of the reply, put in the order of
    their ranks afterwards, and no further request is sent even when the
    reply has a continuation token.  With fewer pages and no token the rows
    are those of all pages, and [None] when there is no page.  The request
    carries the limit, as "max" when it is above 500. *)
Theorem m_Search_takes_the_first_limit_pages
    (string mode project profile : String.string) (limit : Z)
    (query : gmap String.string String.string)
    (r : MWX.response) (rest : list MWX.response) (log : list event) :
  Str.blank string = false →
  Str.blank project = false →
  search_query string mode profile limit = Return query →
  good_reply r →
  let sent := (log ++ [Request GET ("https://" ++ project ++ "/w/api.php") query None])%list in
  (MWX.query (MWX.body r) = None →
     m_Search string mode project profile limit (r :: rest) log
     = (rest, sent, Return None))
  ∧ (∀ q pages,
       MWX.query (MWX.body r) = Some q → MWX.pages q = Some pages →
       Forall (fun page => is_Some (MWX.index page)) pages →
       ((1 ≤ limit ≤ Z.of_nat (length pages))%Z →
          m_Search string mode project profile limit (r :: rest) log
          = (rest, sent,
             Return (Some (sorted_by_index (take (Z.to_nat limit) (search_rows pages))))))
       ∧ ((Z.of_nat (length pages) < limit)%Z → MWX.continue (MWX.body r) = None →
            m_Search string mode project profile limit (r :: rest) log
            = (rest, sent,
               Return (if (length pages =? 0)%nat then None
                       else Some (sorted_by_index (search_rows pages))))))
  ∧ (query !! (if String.eqb mode "title" then "gpslimit" else "gsrlimit")
     = Some (if (500 <? limit)%Z then "max" else str_of_int limit)).
Proof.
  intros Hs Hp Hq [Hst Herr] sent.
  pose proof (search_query_sendable _ _ _ _ _ Hq) as Hsend.
  assert (Hreq : reqMediaWikiX query project (r :: rest) log = (rest, sent, Return (MWX.body r))).
  { unfold reqMediaWikiX. by rewrite reqMediaWiki_on_good. }
  rewrite (m_Search_unfold _ _ _ _ _ query) by done.
  cbn [search_loop]. rewrite Hreq. split_and!.
  - by intros ->.
  - intros q pages -> Hpages Hidx. rewrite Hpages. split.
    + intros Hlim. rewrite search_pages_cut by (done || simpl; lia).
      simpl. rewrite Nat.sub_0_r.
      assert (Hlen : (length (take (Z.to_nat limit) (search_rows pages)) =? 0)%nat = false).
      { apply Nat.eqb_neq. rewrite length_take, length_search_rows by done. lia. }
      by rewrite Hlen.
    + intros Hlim ->. rewrite search_pages_all by (done || simpl; lia).
      simpl. by rewrite length_search_rows.
  - unfold search_query in Hq.
    destruct (String.eqb mode "title"); [by injection Hq as <- |].
    destruct (String.eqb mode "text"); [by injection Hq as <- | done].
Qed.

Lemma m_Search_takes_the_first_limit_pages_witness :
  m_Search "Max Planck" "text" "en.wikipedia.org" "engine_autoselect" 5
           [SampleSearch.nothing; SampleSearch.reply SampleSearch.three None] []
  = ([SampleSearch.reply SampleSearch.three None],
     [Request GET "https://en.wikipedia.org/w/api.php"
        (list_to_map
           [("format", "json"); ("formatversion", "2"); ("action", "query");
            ("generator", "search"); ("gsrprop", EmptyString); ("gsrnamespace", "0");
            ("gsrqiprofile", "engine_autoselect"); ("gsrlimit", "5");
            ("prop", "pageprops"); ("ppprop", "wikibase_item|disambiguation");
            ("gsrsearch", "Max Planck")]) None],
     Return None).
Proof.
  destruct (m_Search_takes_the_first_limit_pages "Max Planck" "text" "en.wikipedia.org"
              "engine_autoselect" 5 _ SampleSearch.nothing
              [SampleSearch.reply SampleSearch.three None] []
              eq_refl eq_refl eq_refl (conj eq_refl eq_refl)) as [H _].
  by apply H.
Defined.

(** * m_WikidataEntity *)

Section SingleBatch.
Context {W V Row : Type}.
Local Open Scope list_scope.


End SingleBatch.

Section EntityFacts.
Variable quote : string → string.
Local Open Scope list_scope.
Implicit Types (output : odict entity_row) (titles ts : list string) (page : MWX.page).

Lemma entity_status_consistent page (normalized target : option string) :
  entity_row_consistent {| e_status := (entity_status page).1;
                           e_normalized := normalized;
                           e_target := target;
                           e_entity := (entity_status page).2 |}.
Proof.
  unfold entity_row_consistent, entity_status, pageprops_status, entity_statuses. simpl.
  destruct (MWX.invalid page); simpl.
  { split; [set_solver |]. split; [by intros [? ?] | by intros [? | ?]]. }
  destruct (MWX.missing page); simpl.
  { split; [set_solver |]. split; [by intros [? ?] | by intros [? | ?]]. }
  destruct (MWX.props page) as [pp |]; simpl.
  - destruct (MWX.wikibase_item pp) as [item |]; simpl.
    + destruct (MWX.disambiguation pp); simpl.
      * split; [set_solver |]. split; [by right | by eexists].
      * split; [set_solver |]. split; [by left | by eexists].
    + split; [set_solver |]. split; [by intros [? ?] | by intros [? | ?]].
  - split; [set_solver |]. split; [by intros [? ?] | by intros [? | ?]].
Qed.

Lemma entity_pages_consistent titles (title : string) normalized target anorm
    (pages : list MWX.page) :
  title ∈ titles →
  ∀ output, entity_rows_consistent titles output →
    entity_rows_consistent titles
      (entity_pages title normalized target anorm pages output).
Proof.
  intros Hin. induction pages as [| page pages IH]; intros output Hinv; [done |].
  simpl. apply IH. destruct (String.eqb anorm (MWX.title page)); [| done].
  destruct Hinv as [Hnd Hrows]. split; [by apply NoDup_dict_set |].
  intros k r [[-> ->] | Hk]%elem_of_dict_set; [| by apply Hrows].
  split; [done |]. apply entity_status_consistent.
Qed.

Lemma entity_titles_consistent titles (q : MWX.query_part) ts :
  (∀ title, title ∈ ts → title ∈ titles) →
  ∀ output o, entity_rows_consistent titles output →
    entity_titles quote q ts output = Return o → entity_rows_consistent titles o.
Proof.
  induction ts as [| title ts IH]; intros Hsub output o Hinv.
  - by intros [= <-].
  - simpl. unfold entity_title at 1.
    destruct (normalizedTitle quote title (MWX.names q)) as [n t].
    destruct (MWX.pages q) as [pages |] eqn:Hpages; [| done].
    simpl. apply IH; [intros t' Ht'; apply Hsub; by right |].
    apply entity_pages_consistent; [apply Hsub; by left | done].
Qed.

Lemma entity_loop_consistent titles project :
  ∀ fuel (query : gmap string string) output (script : list MWX.response) log
    script' log' o,
    entity_rows_consistent titles output →
    entity_loop quote fuel titles project query output script log
    = (script', log', Return (Some (Frame o))) →
    entity_rows_consistent titles o.
Proof.
  induction fuel as [| fuel IH]; intros query output script log script' log' o Hinv;
    [done |].
  cbn [entity_loop].
  destruct (reqMediaWikiX query project script log)
    as [[script1 log1] [j | e |]]; [| done | done].
  destruct (MWX.query j) as [q |]; [| done].
  destruct (entity_titles quote q titles output) as [o1 | |] eqn:Habs; [| done | done].
  assert (Hinv1 : entity_rows_consistent titles o1).
  { eapply entity_titles_consistent; [| exact Hinv | exact Habs]. done. }
  destruct (MWX.continue j) as [c |].
  - by apply IH.
  - by intros [= _ _ <-].
Qed.





End EntityFacts.



(** X22. Whatever the service replies, the data frame that [m_WikidataEntity]
    returns for titles that fit in one query has one row per title at most,
    and rows for the titles asked for only; in every row the status is one
    of "invalid", "missing", "no_pageprops", "no_wikibase_item",
    "disambiguation" and "OK", and the entity is given exactly for the last
    two. *)
Theorem m_WikidataEntity_rows_are_consistent (quote : string → string)
    (titles : list string) (project : string)
    (script script' : list MWX.response) (log log' : list event)
    (output : odict entity_row) :
  entity_direct quote titles project script log
  = (script', log', Return (Some (Frame output))) →
  NoDup (map fst output)
  ∧ ∀ title row,
      (title, row) ∈ output →
      title ∈ titles
      ∧ e_status row ∈ entity_statuses
      ∧ (is_Some (e_entity row) ↔ e_status row = "OK" ∨ e_status row = "disambiguation").
Proof.
  intros Hrun. unfold entity_direct in Hrun.
  apply entity_loop_consistent in Hrun.
  - destruct Hrun as [Hnd Hrows]. split; [done |].
    intros title row Hin. destruct (Hrows title row Hin) as [Ht [Hst Hrow]]. done.
  - split; [constructor |]. intros title row Hin. by apply elem_of_nil in Hin.
Qed.

Lemma m_WikidataEntity_rows_are_consistent_witness :
  entity_direct SampleTitle.quote ["Max"; "Cervante"; "humanist"] "en.wikipedia.org"
    [SampleEntity.reply] []
  = ([],
     [Request GET "https://en.wikipedia.org/w/api.php"
        (entity_query ["Max"; "Cervante"; "humanist"]) None],
     Return (Some (Frame
       [("Max", {| e_status := "disambiguation"; e_normalized := None;
                   e_target := None; e_entity := Some "Q225238" |});
        ("Cervante", {| e_status := "missing"; e_normalized := None;
                        e_target := None; e_entity := None |});
        ("humanist", {| e_status := "OK"; e_normalized := Some "Humanist";
                        e_target := Some "Humanism"; e_entity := Some "Q46158" |})])))
  ∧ NoDup (map fst
       [("Max", {| e_status := "disambiguation"; e_normalized := None;
                   e_target := None; e_entity := Some "Q225238" |});
        ("Cervante", {| e_status := "missing"; e_normalized := None;
                        e_target := None; e_entity := None |});
        ("humanist", {| e_status := "OK"; e_normalized := Some "Humanist";
                        e_target := Some "Humanism"; e_entity := Some "Q46158" |})]).
Proof.
  split; [reflexivity |].
  apply (m_WikidataEntity_rows_are_consistent SampleTitle.quote
           ["Max"; "Cervante"; "humanist"] "en.wikipedia.org" [SampleEntity.reply]
           [] [] _ _ eq_refl).
Defined.



(** * m_Redirects *)

Section RedirectsFacts.
Variable quote : string → string.
Local Open Scope list_scope.
Implicit Types (output o : gmap string (list string)) (titles ts : list string).
Implicit Types (pages hits : list MWX.page).



(** Only the keys of the titles are written. *)
Lemma redirects_pages_keys first (title anorm : string) pages :
  ∀ output o, redirects_pages first title anorm pages output = Return o →
    ∀ k, k ≠ title → o !! k = output !! k.
Proof.
  induction pages as [| page pages IH]; intros output o.
  - by intros [= <-].
  - cbn [redirects_pages].
    destruct (String.eqb anorm (MWX.title page)); [| apply IH].
    destruct (first && (MWX.invalid page || MWX.missing page)).
    + intros [= <-] k Hk. by rewrite lookup_insert_ne.
    + cbv zeta. destruct ((if first then _ else _) !! title) as [l |] eqn:Hl; [| done].
      intros Hrun k Hk. rewrite (IH _ _ Hrun k Hk), lookup_insert_ne by done.
      destruct first; [by rewrite lookup_insert_ne | done].
Qed.

Lemma redirects_titles_keys first (q : MWX.query_part) ts :
  ∀ output o, redirects_titles quote first q ts output = Return o →
    ∀ k, k ∉ ts → o !! k = output !! k.
Proof.
  induction ts as [| t ts IH]; intros output o.
  - by intros [= <-].
  - cbn [redirects_titles]. unfold redirects_title at 1.
    destruct (MWX.pages q) as [pages |]; [| done].
    destruct (redirects_pages first t _ pages output) as [o1 | |] eqn:H1;
      [| done | done].
    simpl. intros Hrun k Hk. rewrite (IH _ _ Hrun) by set_solver.
    apply (redirects_pages_keys _ _ _ _ _ _ H1). set_solver.
Qed.

Lemma redirects_loop_keys titles project :
  ∀ fuel (query : gmap string string) output (script : list MWX.response) log
    script' log' (m : gmap string (option (list string))),
    (∀ k, k ∉ titles → output !! k = None) →
    redirects_loop quote fuel titles project query output script log
    = (script', log', Return (Some (Dict m))) →
    ∀ k v, m !! k = Some v → k ∈ titles ∧ ∀ l, v = Some l → l ≠ [].
Proof.
  induction fuel as [| fuel IH]; intros query output script log script' log' m Hkeys;
    [done |].
  cbn [redirects_loop].
  destruct (reqMediaWikiX query project script log)
    as [[script1 log1] [j | e |]]; [| done | done].
  destruct (MWX.query j) as [q |]; [| done].
  destruct (redirects_titles quote _ q titles output) as [o1 | |] eqn:Habs;
    [| done | done].
  assert (Hkeys1 : ∀ k, k ∉ titles → o1 !! k = None).
  { intros k Hk. rewrite (redirects_titles_keys _ _ _ _ _ Habs k Hk). by apply Hkeys. }
  destruct (MWX.continue j) as [c |].
  - by apply IH.
  - intros [= _ _ <-] k v Hk. rewrite lookup_fmap in Hk.
    destruct (o1 !! k) as [l0 |] eqn:Hl0; [| done]. injection Hk as <-. split.
    + destruct (decide (k ∈ titles)) as [Hin | Hout]; [done |].
      rewrite (Hkeys1 k Hout) in Hl0. done.
    + unfold none_if_empty. intros l. destruct l0; [done |]. by intros [= <-].
Qed.



End RedirectsFacts.

(** X24. Whatever the service replies, the dictionary that [m_Redirects] returns
    for titles sent in one query has keys among the titles asked for only,
    and no empty list as a value: a title has [None] or a list of at least
    one title. *)
Theorem m_Redirects_has_no_empty_list (quote : string → string)
    (titles : list string) (project : string)
    (script script' : list MWX.response) (log log' : list event)
    (m : gmap string (option (list string))) :
  redirects_direct quote titles project script log
  = (script', log', Return (Some (Dict m))) →
  ∀ title v, m !! title = Some v →
    title ∈ titles ∧ ∀ l, v = Some l → l ≠ [].
Proof.
  intros Hrun. unfold redirects_direct in Hrun.
  by apply (redirects_loop_keys quote titles project _ _ _ _ _ _ _ _
              ltac:(intros; apply lookup_empty) Hrun).
Qed.

Lemma m_Redirects_has_no_empty_list_witness :
  ∃ m : gmap string (option (list string)),
    redirects_direct SampleTitle.quote ["Cervante"; "humanist"] "en.wikipedia.org"
      [SampleRedirects.reply] []
    = ([],
       [Request GET "https://en.wikipedia.org/w/api.php"
          (redirects_query ["Cervante"; "humanist"]) None],
       Return (Some (Dict m)))
    ∧ ∀ title v, m !! title = Some v →
        title ∈ ["Cervante"; "humanist"] ∧ ∀ l, v = Some l → l ≠ [].
Proof.
  eexists. split; [reflexivity |].
  apply (m_Redirects_has_no_empty_list SampleTitle.quote ["Cervante"; "humanist"]
           "en.wikipedia.org" [SampleRedirects.reply] [] [] _ _ eq_refl).
Defined.



(** * Sleeps of [reqWDQS], and the chunk size zero *)

Section WaitBounds.
Import WDQS.
Variable http2time : string → option Z.
Local Open Scope list_scope.

Lemma reqWDQS_loop_waits (q : string) (m : method) (format wf : string) :
  (m = GET ∨ m = POST) →
  ∀ (script : list exchange) (log : list event),
  ∃ taken evs r,
    reqWDQS_loop http2time q m format wf script log
    = (drop taken script, log ++ evs, r)
    ∧ Forall (fun s => (0 ≤ s ≤ 600)%Z) (sleeps evs)
    ∧ Forall (fun e => is_request e = true
                       → e = Request m url {[ "query" := q ]} (Some wf)) evs
    ∧ n_requests evs = S (length (sleeps evs))
    ∧ (taken ≤ length script)%nat
    ∧ (r = Blocked → taken = length (sleeps evs) ∧ taken = length script)
    ∧ (r ≠ Blocked → taken = S (length (sleeps evs))).
Proof.
  intros Hm. induction script as [| x script IH]; intros log.
  - exists 0%nat, [Request m url {[ "query" := q ]} (Some wf)], Blocked.
    split; [by destruct Hm as [-> | ->] |].
    split_and!; try done. by repeat constructor.
  - assert (Hone : ∀ r : outcome body, r ≠ Blocked →
              ∃ taken evs r',
                (script, log ++ [Request m url {[ "query" := q ]} (Some wf)], r)
                = (drop taken (x :: script), log ++ evs, r')
                ∧ Forall (fun s => (0 ≤ s ≤ 600)%Z) (sleeps evs)
                ∧ Forall (fun e => is_request e = true
                                   → e = Request m url {[ "query" := q ]} (Some wf)) evs
                ∧ n_requests evs = S (length (sleeps evs))
                ∧ (taken ≤ length (x :: script))%nat
                ∧ (r' = Blocked → taken = length (sleeps evs)
                                  ∧ taken = length (x :: script))
                ∧ (r' ≠ Blocked → taken = S (length (sleeps evs)))).
    { intros r Hr. exists 1%nat, [Request m url {[ "query" := q ]} (Some wf)], r.
      split; [done |]. split_and!; try done; [by repeat constructor | simpl; lia]. }
    destruct (decide (status_code (reply x) = 429%Z)) as [H429 | Hother].
    + assert (Hunfold :
        reqWDQS_loop http2time q m format wf (x :: script) log
        = match retry_after (reply x) with
          | None => (script, log ++ [Request m url {[ "query" := q ]} (Some wf)],
                     Raise (KeyError "retry-after"))
          | Some t =>
              match retry_wait http2time t (clock x) with
              | Raise e => (script, log ++ [Request m url {[ "query" := q ]} (Some wf)],
                            Raise e)
              | Blocked => (script, log ++ [Request m url {[ "query" := q ]} (Some wf)],
                            Blocked)
              | Return t =>
                  if (600 <? t)%Z then
                    (script, log ++ [Request m url {[ "query" := q ]} (Some wf)],
                     Raise (TypeError "exceptions must derive from BaseException"))
                  else if (t <? 0)%Z then
                    (script, log ++ [Request m url {[ "query" := q ]} (Some wf)],
                     Raise (ValueError "sleep length must be non-negative"))
                  else
                    reqWDQS_loop http2time q m format wf script
                      ((log ++ [Request m url {[ "query" := q ]} (Some wf)])
                         ++ [Sleep t])
              end
          end).
      { apply Z.eqb_eq in H429.
        destruct Hm as [-> | ->]; cbn [reqWDQS_loop]; by rewrite H429. }
      rewrite Hunfold. clear Hunfold.
      destruct (retry_after (reply x)) as [t |]; [| by apply Hone].
      destruct (retry_wait http2time t (clock x)) as [s | e |] eqn:Hwait;
        [| by apply Hone |].
      * destruct (600 <? s)%Z eqn:Hhi; [by apply Hone |].
        destruct (s <? 0)%Z eqn:Hlo; [by apply Hone |].
        apply Z.ltb_ge in Hhi, Hlo.
        destruct (IH ((log ++ [Request m url {[ "query" := q ]} (Some wf)]) ++ [Sleep s]))
          as (taken & evs & r & -> & Hsl & Hreq & Hn & Htaken & Hblocked & Hdone).
        exists (S taken), ([Request m url {[ "query" := q ]} (Some wf); Sleep s] ++ evs), r.
        split; [simpl; by rewrite <- !app_assoc |].
        rewrite n_requests_app, sleeps_app.
        change (n_requests [_; _]) with 1%nat. change (sleeps [_; _]) with [s].
        split_and!.
        -- apply Forall_app. split; [| done]. constructor; [lia | done].
        -- apply Forall_app. split; [| done]. by repeat constructor.
        -- simpl. lia.
        -- simpl. lia.
        -- intros Hr. destruct (Hblocked Hr). simpl. lia.
        -- intros Hr. rewrite (Hdone Hr). simpl. lia.
      * unfold retry_wait in Hwait. destruct (pure_integer t); [done |].
        by destruct (http2time t).
    + rewrite reqWDQS_loop_final by done. apply Hone.
      unfold raise_for_status. destruct (_ && _); [done |]. simpl.
      unfold decode. destruct (content_type (reply x)) as [rtype |]; [| done].
      repeat (destruct (_ && _); [done |]). done.
Qed.

End WaitBounds.

(** X26. Whatever the service replies, every sleep of [reqWDQS] is of 0 to 600
    seconds, there is one sleep between any two requests, all requests are
    the same request, and every request but a last unanswered one takes one
    reply, in order. *)
Theorem reqWDQS_sleeps_at_most_600_seconds (http2time : string → option Z)
    (q : string) (m : method) (format : string)
    (script : list WDQS.exchange) (log : list event) :
  ∃ taken evs r,
    reqWDQS http2time q m format script log = (drop taken script, (log ++ evs)%list, r)
    ∧ Forall (fun s => (0 ≤ s ≤ 600)%Z) (sleeps evs)
    ∧ (∀ e e', e ∈ evs → e' ∈ evs → is_request e = true → is_request e' = true → e = e')
    ∧ length (sleeps evs) = (n_requests evs - 1)%nat
    ∧ (taken ≤ length script)%nat
    ∧ (r = Blocked → n_requests evs = S taken ∧ taken = length script)
    ∧ (r ≠ Blocked → n_requests evs = taken).
Proof.
  assert (Hnone : ∀ e, ∃ taken evs r,
            (script, log, Raise (A := WDQS.body) e)
            = (drop taken script, (log ++ evs)%list, r)
            ∧ Forall (fun s => (0 ≤ s ≤ 600)%Z) (sleeps evs)
            ∧ (∀ e e', e ∈ evs → e' ∈ evs → is_request e = true →
                       is_request e' = true → e = e')
            ∧ length (sleeps evs) = (n_requests evs - 1)%nat
            ∧ (taken ≤ length script)%nat
            ∧ (r = Blocked → n_requests evs = S taken ∧ taken = length script)
            ∧ (r ≠ Blocked → n_requests evs = taken)).
  { intros e. exists 0%nat, [], (Raise e). rewrite app_nil_r.
    split_and!; try done; [| lia].
    intros e1 e2 He1. by apply elem_of_nil in He1. }
  unfold reqWDQS. destruct (wdqs_format_of format) as [wf | e |] eqn:Hwf;
    [| apply Hnone | by unfold wdqs_format_of in Hwf; repeat destruct (String.eqb _ _)].
  assert (Hcases : (m = GET ∨ m = POST) ∨ ∃ name, m = Method name).
  { destruct m; eauto. }
  destruct Hcases as [Hm | [name ->]]; [| destruct script; apply Hnone].
  destruct (reqWDQS_loop_waits http2time q m format wf Hm script log)
    as (taken & evs & r & -> & Hsl & Hreq & Hn & Htaken & Hblocked & Hdone).
  exists taken, evs, r. split; [done |]. split_and!; try done.
  - intros e e' He He' Hr Hr'. rewrite Forall_forall in Hreq.
    rewrite (Hreq e He Hr), (Hreq e' He' Hr'). done.
  - lia.
  - intros Hr. destruct (Hblocked Hr). lia.
  - intros Hr. rewrite (Hdone Hr). lia.
Qed.

